(** * python-vistopia: the show archiver of [vistopian/visitor.py]

    A shallow embedding of [Visitor.save_show]: the retrying fetcher
    [download], the segmented fetcher [download_m3u8] and the loop over the
    catalog, over an explicit file system and an event log. *)

From stdpp Require Import gmap strings list fin_maps.
From Stdlib Require Import ZArith Ascii String Permutation.

Local Open Scope string_scope.
Local Open Scope Z_scope.

(** ** Paths

    A [pathlib.Path] is kept as its list of components, relative to the
    working directory ([[]] is the working directory itself).  The paths
    are those of a POSIX system: the slash is the only separator, and a
    backslash is a character of a name like any other.  Components [..]
    are not resolved: a path names the node stored under exactly these
    components. *)

Abbreviation Path := (list string).

(** Splitting a string at every slash. *)
Fixpoint components (s : string) : list string :=
  match s with
  | EmptyString => [EmptyString]
  | String c s' =>
      if Ascii.eqb c "/" then EmptyString :: components s'
      else match components s' with
           | [] => [String c EmptyString]
           | x :: xs => String c x :: xs
           end
  end.

Definition keep_component (x : string) : bool :=
  negb (String.eqb x "") && negb (String.eqb x ".").

(** [Path(s).parts] without the root: empty and [.] components vanish. *)
Definition parts (s : string) : Path := List.filter keep_component (components s).

(** [Path(s).name]: the final component, [""] when there is none. *)
Definition path_name (s : string) : string := List.last (parts s) "".

(** [p.name] and [p.parent] of a path already in components. *)
Definition name (p : Path) : string := List.last p "".
Definition parent (p : Path) : Path := removelast p.

(** [str.rfind('.')]. *)
Fixpoint rfind_dot (s : string) : option nat :=
  match s with
  | EmptyString => None
  | String c s' =>
      match rfind_dot s' with
      | Some i => Some (S i)
      | None => if Ascii.eqb c "." then Some O else None
      end
  end.

(** [PurePath.stem]: the name up to its last dot, unless that dot is the
    first or the last character. *)
Definition stem (nm : string) : string :=
  match rfind_dot nm with
  | Some i =>
      if (Nat.ltb 0 i && Nat.ltb i (String.length nm - 1))%bool
      then substring 0 i nm else nm
  | None => nm
  end.

(** [p / s] for a relative [s]. *)
Definition joinpath (p : Path) (s : string) : Path := p ++ parts s.

(** [title.replace("/", "\\")]. *)
Fixpoint replace_slash (s : string) : string :=
  match s with
  | EmptyString => EmptyString
  | String c s' => String (if Ascii.eqb c "/" then "\"%char else c) (replace_slash s')
  end.

(** ** File system *)

Inductive Content :=
| Bytes (data : string)
| Listing (entries : list Path).

Inductive Node :=
| File (c : Content)
| Dir.

(** The node a path leads to; the working directory is always there. *)
Definition node (fs : gmap Path Node) (p : Path) : option Node :=
  match p with
  | [] => Some Dir
  | _ => fs !! p
  end.

Definition is_dir (fs : gmap Path Node) (p : Path) : bool :=
  match node fs p with Some Dir => true | _ => false end.

(** [p.exists()]. *)
Definition exists_ (fs : gmap Path Node) (p : Path) : bool :=
  match node fs p with Some _ => true | None => false end.

Definition child_of (d k : Path) : Prop := k ≠ [] ∧ removelast k = d.

Definition dir_empty (fs : gmap Path Node) (d : Path) : bool :=
  bool_decide (map_Forall (λ k _, ¬ child_of d k) fs).

(** ** Exceptions, events and the world *)

Inductive Exn :=
| SocketTimeout
| TransportError
| FileNotFoundError
| FileExistsError
| IsADirectoryError
| NotADirectoryError
| DirectoryNotEmpty
| InvalidArgument
| NotImplementedError
| IndexError
| ManifestError
| FfmpegError
| MutagenError
| OutOfFuel.

Inductive Res (A : Type) :=
| Ok (a : A)
| Raise (e : Exn).
Arguments Ok {A} a.
Arguments Raise {A} e.

Inductive Level := Info | Warning | Error.

Inductive Msg :=
| Retrying (fname : Path) (count : Z)
| FetchFailed (fname : Path)
| TsStart (folder : Path) (n : nat)
| TsDone (folder : Path)
| MergeStart (fname : Path)
| MergeDone (fname : Path)
| Starting (fname : Path)
| Done (fname : Path)
| Skipping (fname : Path)
| EpisodeFailed (fname : Path)
| Traceback (e : Exn).

Inductive Event :=
| EvFetch (url : string) (dst : Path)
| EvLoad (url : string)
| EvConcat (inputs : list Path) (out : Path)
| EvRetag (fname : Path)
| EvRetagCover (fname : Path)
| EvLog (lvl : Level) (msg : Msg).

Record World := mkWorld {
  fs : gmap Path Node;
  log : list Event
}.

(** What one [urlretrieve] attempt meets on the network.  [Some part] says
    the body transfer had begun, so the destination was opened and [part]
    written, before the attempt ended. *)
Inductive Outcome :=
| Complete (data : string)
| TimedOut (partial : option string)
| Failed (partial : option string).

(** The surroundings of a run: the network, the manifest library, the order
    in which the worker pool completes its tasks, and the external tools.
    [ffmpeg_ok] says whether the merge tool does its work on files it can
    read, [ffmpeg_partial] what a run of it that fails leaves at the output:
    nothing, or the part it had written. *)
Record Env := mkEnv {
  urlopen : string → nat → Outcome;
  m3u8_load : string → option (list string);
  urljoin : string → string → string;
  pool_order : string → list nat;
  ffmpeg_ok : bool;
  ffmpeg_partial : option string;
  retag_ok : Path → bool;
  retag_cover_ok : Path → bool
}.

(** ** The monad of effects: state passing with exceptions *)

Definition M (A : Type) : Type := World → Res A * World.

#[global] Instance M_ret : MRet M := λ A a w, (Ok a, w).
#[global] Instance M_bind : MBind M := λ A B f m w,
  match m w with
  | (Ok a, w') => f a w'
  | (Raise e, w') => (Raise e, w')
  end.

Definition raise {A} (e : Exn) : M A := λ w, (Raise e, w).

(** [try: m except Exception as e: ...], with the outcome as a value. *)
Definition try {A} (m : M A) : M (Res A) := λ w,
  match m w with
  | (r, w') => (Ok r, w')
  end.

Definition emit (e : Event) : M unit := λ w,
  (Ok tt, mkWorld (fs w) (log w ++ [e])).

Definition logger (lvl : Level) (msg : Msg) : M unit := emit (EvLog lvl msg).

Definition get_fs : M (gmap Path Node) := λ w, (Ok (fs w), w).
Definition get_log : M (list Event) := λ w, (Ok (log w), w).

(** ** File-system primitives *)

(** [open(p, 'wb')]: the destination must not be a directory and its parent
    must be one. *)
Definition open_wb (f : gmap Path Node) (p : Path) : Res unit :=
  if is_dir f p then Raise IsADirectoryError
  else if is_dir f (parent p) then Ok tt
  else Raise FileNotFoundError.

Definition write_file (p : Path) (c : Content) : M unit := λ w,
  match open_wb (fs w) p with
  | Ok _ => (Ok tt, mkWorld (<[p := File c]> (fs w)) (log w))
  | Raise e => (Raise e, w)
  end.

(** [p.mkdir(exist_ok=True)]. *)
Definition mkdir_exist_ok (p : Path) : M unit := λ w,
  if is_dir (fs w) p then (Ok tt, w)
  else if exists_ (fs w) p then (Raise FileExistsError, w)
  else if is_dir (fs w) (parent p) then (Ok tt, mkWorld (<[p := Dir]> (fs w)) (log w))
  else (Raise FileNotFoundError, w).

(** [p.unlink(missing_ok=...)]. *)
Definition unlink (missing_ok : bool) (p : Path) : M unit := λ w,
  match node (fs w) p with
  | Some (File _) => (Ok tt, mkWorld (delete p (fs w)) (log w))
  | Some Dir => (Raise IsADirectoryError, w)
  | None => if missing_ok then (Ok tt, w) else (Raise FileNotFoundError, w)
  end.

(** [p.rmdir()]: only an empty directory can be removed. *)
Definition rmdir (p : Path) : M unit := λ w,
  match p, fs w !! p with
  | [], _ => (Raise InvalidArgument, w)
  | _, Some Dir =>
      if dir_empty (fs w) p then (Ok tt, mkWorld (delete p (fs w)) (log w))
      else (Raise DirectoryNotEmpty, w)
  | _, Some (File _) => (Raise NotADirectoryError, w)
  | _, None => (Raise FileNotFoundError, w)
  end.

(** The number of fetch attempts made so far for a URL. *)
Definition is_fetch_of (url : string) (e : Event) : bool :=
  match e with
  | EvFetch u _ => String.eqb u url
  | _ => false
  end.

Definition attempts (url : string) (l : list Event) : nat :=
  List.length (List.filter (is_fetch_of url) l).

Section Archiver.

Variable env : Env.

(** [urllib.request.urlretrieve(url, fname)]: the connection is opened
    first; once the body arrives the destination is opened for writing and
    filled as far as the transfer gets. *)
Definition urlretrieve (url : string) (fname : Path) : M unit :=
  l ← get_log;
  emit (EvFetch url fname);;
  match urlopen env url (attempts url l) with
  | Complete data => write_file fname (Bytes data)
  | TimedOut None => raise SocketTimeout
  | TimedOut (Some part) => write_file fname (Bytes part);; raise SocketTimeout
  | Failed None => raise TransportError
  | Failed (Some part) => write_file fname (Bytes part);; raise TransportError
  end.

(** The [while count <= 5] loop of [download] (lines 76-82); the result is
    the value of [count] on leaving the loop. *)
Fixpoint retry_loop (fuel : nat) (count : Z) (url : string) (fname : Path) : M Z :=
  if count <=? 5 then
    match fuel with
    | O => raise OutOfFuel
    | S fuel' =>
        r ← try (urlretrieve url fname);
        match r with
        | Ok _ => mret count
        | Raise SocketTimeout =>
            logger Warning (Retrying fname count);;
            retry_loop fuel' (count + 1) url fname
        | Raise e => raise e
        end
    end
  else mret count.

(** [download(url, fname)], lines 69-85. *)
Definition download_fuel (fuel : nat) (url : string) (fname : Path) : M unit :=
  r ← try (urlretrieve url fname);
  match r with
  | Ok _ => mret tt
  | Raise SocketTimeout =>
      count ← retry_loop fuel 1 url fname;
      if 5 <? count then
        logger Warning (FetchFailed fname);;
        unlink false fname
      else mret tt
  | Raise e => raise e
  end.

Definition download : string → Path → M unit := download_fuel 5.

(** [executor.map(download, urls, paths)] inside [with ThreadPoolExecutor]:
    every task runs to its end; the results of the map are never read, so
    what a task raises is dropped.  The pool is followed at the grain of
    whole calls of [download]: [order] lists the tasks in the order in which
    they run to their end, one after the other.  A real run of the pool is a
    permutation of the tasks; the statements that depend on the order say
    so.  Two tasks that write the same destination at the same time are
    beyond this grain. *)
Fixpoint executor_map (order : list nat) (tasks : list (string * Path)) : M unit :=
  match order with
  | [] => mret tt
  | i :: order' =>
      match tasks !! i with
      | Some (url, fname) => try (download url fname);; executor_map order' tasks
      | None => executor_map order' tasks
      end
  end.

(** [m3u8.load(url)] and the segment URIs of the playlist. *)
Definition load_playlist (url : string) : M (list string) :=
  emit (EvLoad url);;
  match m3u8_load env url with
  | Some uris => mret uris
  | None => raise ManifestError
  end.

(** The scratch directory [Path(fname).parent / Path(fname).stem], the
    file of a segment [folder / Path(ts).name] and the merge manifest
    [folder / 'filelist.txt']. *)
Definition scratch_folder (fname : Path) : Path :=
  joinpath (parent fname) (stem (name fname)).

Definition seg_path (folder : Path) (ts : string) : Path :=
  joinpath folder (path_name ts).

Definition filelist (folder : Path) : Path := joinpath folder "filelist.txt".

(** The media read from the listed files, [None] when one of them is not a
    media file. *)
Fixpoint read_all (f : gmap Path Node) (entries : list Path) : option (list string) :=
  match entries with
  | [] => Some []
  | p :: entries' =>
      match node f p, read_all f entries' with
      | Some (File (Bytes d)), Some ds => Some (d :: ds)
      | _, _ => None
      end
  end.

Definition join_media (ds : list string) : string := foldr String.append "" ds.

(** A run of the merge tool that fails: the output may have been begun. *)
Definition ffmpeg_fail (out : Path) : M unit :=
  match ffmpeg_partial env with
  | Some part => try (write_file out (Bytes part));; raise FfmpegError
  | None => raise FfmpegError
  end.

(** [ffmpeg.input(listfile, format='concat', safe=0)
     .output(filename=out, codec='copy', loglevel='quite').run()], lines
    110-111: the tool is run on the merge manifest; it reads the listed
    files in the order of the manifest and copies their media, one after
    the other, to [out].  [run] raises [ffmpeg.Error] when the tool ends
    with an error: when it cannot read the manifest or one of the listed
    files, when it cannot write [out], or when it fails for a reason of its
    own ([ffmpeg_ok] is false; its options are part of that).  A failed run
    may leave a part of the output behind. *)
Definition ffmpeg_concat (listfile out : Path) : M unit :=
  f ← get_fs;
  match node f listfile with
  | Some (File (Listing entries)) =>
      emit (EvConcat entries out);;
      match read_all f entries with
      | Some ds =>
          if ffmpeg_ok env then
            r ← try (write_file out (Bytes (join_media ds)));
            match r with
            | Ok _ => mret tt
            | Raise _ => raise FfmpegError
            end
          else ffmpeg_fail out
      | None => ffmpeg_fail out
      end
  | _ => raise FfmpegError
  end.

Fixpoint unlink_all (ps : list Path) : M unit :=
  match ps with
  | [] => mret tt
  | p :: ps' => unlink true p;; unlink_all ps'
  end.

(** [download_m3u8], lines 93-103: the playlist, the scratch directory and
    the concurrent fetch of the segments. *)
Definition download_m3u8_fetch (url : string) (fname : Path) : M (list string) :=
  playlist ← load_playlist url;
  let ts_list := map (urljoin env url) playlist in
  let folder := scratch_folder fname in
  mkdir_exist_ok folder;;
  logger Info (TsStart folder (List.length ts_list));;
  executor_map (pool_order env url)
               (zip ts_list (map (seg_path folder) ts_list));;
  logger Info (TsDone folder);;
  mret ts_list.

(** Lines 104-112: the merge manifest, one entry per element of [ts_list]
    in the order of the list, and the merge.  The text of the file, a line
    [file '<path>'] per entry, is kept as the list of its entries. *)
Definition download_m3u8_merge (fname : Path) (ts_list : list string) : M unit :=
  let folder := scratch_folder fname in
  logger Info (MergeStart fname);;
  write_file (filelist folder) (Listing (map (seg_path folder) ts_list));;
  ffmpeg_concat (filelist folder) fname;;
  logger Info (MergeDone fname).

(** Lines 113-117: the temporary files and the scratch directory go. *)
Definition download_m3u8_cleanup (fname : Path) (ts_list : list string) : M unit :=
  let folder := scratch_folder fname in
  unlink_all (map (seg_path folder) ts_list);;
  unlink true (filelist folder);;
  rmdir folder.

Definition download_m3u8 (url : string) (fname : Path) : M unit :=
  ts_list ← download_m3u8_fetch url fname;
  download_m3u8_merge fname ts_list;;
  download_m3u8_cleanup fname ts_list.

End Archiver.

(** ** The catalog *)

Record MediaFile := mkMediaFile {
  quality : Z;
  mf_media_key_full_url : string
}.

Record Article := mkArticle {
  sort_number : Z;
  title : string;
  media_type_en : string;
  media_key_full_url : string;
  media_files : list MediaFile
}.

Record Part := mkPart { part : list Article }.

Record Catalog := mkCatalog {
  cat_title : string;
  catalog : list Part
}.

(** Lines 157-162: the scan for the best quality.  The pair is
    [(best_quality, video_m3u8)]. *)
Fixpoint best_scan (best_quality : Z) (video_m3u8 : string) (l : list MediaFile)
  : Z * string :=
  match l with
  | [] => (best_quality, video_m3u8)
  | media_file :: l' =>
      if best_quality <? quality media_file
      then best_scan (quality media_file) (mf_media_key_full_url media_file) l'
      else best_scan best_quality video_m3u8 l'
  end.

(** [article['media_files'][0]] raises [IndexError] on an empty list. *)
Definition select_best (l : list MediaFile) : Res (Z * string) :=
  match l with
  | [] => Raise IndexError
  | m0 :: _ => Ok (best_scan (quality m0) (mf_media_key_full_url m0) l)
  end.

(** Lines 132-134: [episodes is not None and sort_number not in episodes]. *)
Definition filtered_out (episodes : option (gset Z)) (a : Article) : bool :=
  match episodes with
  | None => false
  | Some s => negb (bool_decide (sort_number a ∈ s))
  end.

(** Lines 136-143: the target file of an article. *)
Definition target (show_dir : Path) (a : Article) : Res Path :=
  let title := replace_slash (title a) in
  if String.eqb (media_type_en a) "audio" then Ok (joinpath show_dir (title ++ ".mp3"))
  else if String.eqb (media_type_en a) "video" then Ok (joinpath show_dir (title ++ ".mkv"))
  else Raise NotImplementedError.

Section SaveShow.

Variable env : Env.
Variables no_tag no_cover : bool.
Variable episodes : option (gset Z).

(** The taggers [retag] and [retag_cover], lines 251-289, kept as calls:
    each is an event, and raises when the file is not there or when its
    work fails ([retag_ok], [retag_cover_ok]: the tag library, and for
    [retag_cover] the fetch of the cover image).  What they write into the
    file, the tags and the image, is not followed: the media of the file is
    what the statements below speak of. *)
Definition retag (fname : Path) : M unit :=
  emit (EvRetag fname);;
  f ← get_fs;
  match node f fname with
  | Some (File _) => if retag_ok env fname then mret tt else raise MutagenError
  | _ => raise MutagenError
  end.

Definition retag_cover (fname : Path) : M unit :=
  emit (EvRetagCover fname);;
  f ← get_fs;
  match node f fname with
  | Some (File _) => if retag_cover_ok env fname then mret tt else raise MutagenError
  | _ => raise MutagenError
  end.

(** Lines 149-154: an audio episode. *)
Definition save_audio (a : Article) (fname : Path) : M unit :=
  download env (media_key_full_url a) fname;;
  (if no_tag then mret tt else retag fname);;
  (if no_cover then mret tt else retag_cover fname);;
  logger Info (Done fname).

(** Lines 156-170: a video episode.  The handler ends in [continue], which
    skips the completion message. *)
Definition save_video (a : Article) (fname : Path) : M unit :=
  match select_best (media_files a) with
  | Raise e => raise e
  | Ok (_, video_m3u8) =>
      r ← try (download_m3u8 env video_m3u8 fname);
      match r with
      | Ok _ => logger Info (Done fname)
      | Raise e =>
          logger Error (EpisodeFailed fname);;
          logger Error (Traceback e);;
          unlink true fname
      end
  end.

(** Lines 136-174: the body of the loop for an article that passed the
    filter. *)
Definition process_article (show_dir : Path) (a : Article) : M unit :=
  match target show_dir a with
  | Raise e => raise e
  | Ok fname =>
      f ← get_fs;
      if negb (exists_ f fname) then
        logger Info (Starting fname);;
        if String.eqb (media_type_en a) "audio"
        then save_audio a fname
        else save_video a fname
      else logger Info (Skipping fname)
  end.

(** Lines 130-134: the inner loop, with its [continue]. *)
Fixpoint for_articles (show_dir : Path) (l : list Article) : M unit :=
  match l with
  | [] => mret tt
  | article :: l' =>
      (if filtered_out episodes article then mret tt
       else process_article show_dir article);;
      for_articles show_dir l'
  end.

(** Line 129: the outer loop. *)
Fixpoint for_parts (show_dir : Path) (c : list Part) : M unit :=
  match c with
  | [] => mret tt
  | p :: c' => for_articles show_dir (part p);; for_parts show_dir c'
  end.

(** Lines 124 and 129-174 of [save_show]. *)
Definition save_show_loop (c : Catalog) : M unit :=
  for_parts (parts (cat_title c)) (catalog c).

(** Processing a list of articles one after the other, stopping at the
    first exception: what the claims call processing the episodes in
    order. *)
Fixpoint process_in_order (show_dir : Path) (l : list Article) : M unit :=
  match l with
  | [] => mret tt
  | a :: l' => process_article show_dir a;; process_in_order show_dir l'
  end.

End SaveShow.

Definition articles (c : Catalog) : list Article := List.concat (map part (catalog c)).

Definition in_filter (episodes : option (gset Z)) (a : Article) : bool :=
  negb (filtered_out episodes a).

(** * The rest of [Visitor]

    The API client with its caches, [save_meta], [save_show] as a whole and
    [save_transcript].  They raise exceptions and write messages that the
    fetchers above do not have; these live in a second layer over the
    first. *)

Inductive ExnX :=
| Base (e : Exn)
| RuntimeError
| KeyError
| RequestError
| PdfkitError.

Inductive ResX (A : Type) :=
| OkX (a : A)
| RaiseX (e : ExnX).
Arguments OkX {A} a.
Arguments RaiseX {A} e.

(** The endpoints of [get_catalog] and [get_content_show]:
    [content/catalog/{id}] and [content/content-show/{id}]. *)
Inductive Endpoint :=
| CatalogOf (id : Z)
| ContentShow (id : Z).

#[global] Instance Endpoint_eq_dec : EqDecision Endpoint.
Proof. solve_decision. Defined.

Inductive MsgX :=
| ApiFailed (uri : Endpoint)
| ApiDump (uri : Endpoint)
| Generating (fname : Path)
| Generated (fname : Path)
| Converting (fname : Path)
| Converted (fname : Path).

(** What the second layer does, apart from the events of the first:
    requests to the API, its own log messages and the conversions to PDF. *)
Inductive Note :=
| NRequest (uri : Endpoint) (params : gmap string string)
| NLog (lvl : Level) (msg : MsgX)
| NPdf (html pdf : Path).

(** [series], the answer of [content/content-show]. *)
Record Series := mkSeries {
  share_desc : string;
  author : string;
  series_title : string
}.

(** The answer of [content/catalog]: the catalog with the keys that
    [Catalog] and [Article] do not carry. *)
Record CatalogData := mkCatalogData {
  cat : Catalog;
  background_img : string;
  content_url : Article → string
}.

(** What [requests.get(url).json()] gives: nothing (the call raises), or a
    JSON object with or without its keys [status] and [data]. *)
Inductive Reply (D : Type) :=
| Unreachable
| Replied (status : option string) (data : option D).
Arguments Unreachable {D}.
Arguments Replied {D} status data.

(** The API server; the number is how many requests the endpoint has had. *)
Record Server := mkServer {
  catalog_reply : Z → nat → Reply CatalogData;
  show_reply : Z → nat → Reply Series
}.

(** The tools of [save_transcript]: [pdfkit], which may fail, and the text
    that reading a merge manifest back would give. *)
Record Tools := mkTools {
  pdf_render : string → option string;
  listing_text : list Path → string
}.

Record WorldX := mkWorldX {
  base : World;
  notes : list Note;
  catalog_cache : list (Z * CatalogData);
  show_cache : list (Z * Series)
}.

Definition MX (A : Type) : Type := WorldX → ResX A * WorldX.

#[global] Instance MX_ret : MRet MX := λ A a w, (OkX a, w).
#[global] Instance MX_bind : MBind MX := λ A B f m w,
  match m w with
  | (OkX a, w') => f a w'
  | (RaiseX e, w') => (RaiseX e, w')
  end.

Definition raiseX {A} (e : ExnX) : MX A := λ w, (RaiseX e, w).

Definition tryX {A} (m : MX A) : MX (ResX A) := λ w,
  match m w with
  | (r, w') => (OkX r, w')
  end.

(** Running a computation of the first layer. *)
Definition lift {A} (m : M A) : MX A := λ w,
  match m (base w) with
  | (Ok a, b) => (OkX a, mkWorldX b (notes w) (catalog_cache w) (show_cache w))
  | (Raise e, b) => (RaiseX (Base e), mkWorldX b (notes w) (catalog_cache w) (show_cache w))
  end.

Definition note (n : Note) : MX unit := λ w,
  (OkX tt, mkWorldX (base w) (notes w ++ [n]) (catalog_cache w) (show_cache w)).

Definition get_notes : MX (list Note) := λ w, (OkX (notes w), w).

Definition is_request_of (uri : Endpoint) (n : Note) : bool :=
  match n with
  | NRequest u _ => bool_decide (u = uri)
  | _ => false
  end.

Definition requests (uri : Endpoint) (l : list Note) : nat :=
  List.length (List.filter (is_request_of uri) l).

(** ** The API client *)

(** [get_api_response], lines 17-38.  [reply] is the answer of the server
    to this request. *)
Definition get_api_response {D} (token : string) (uri : Endpoint)
    (params : gmap string string) (reply : nat → Reply D) : MX D :=
  let params := <["api_token" := token]> params in
  ns ← get_notes;
  note (NRequest uri params);;
  match reply (requests uri ns) with
  | Unreachable => raiseX RequestError
  | Replied None _ => raiseX KeyError
  | Replied (Some status) data =>
      if negb (String.eqb status "success") then
        note (NLog Error (ApiFailed uri));;
        note (NLog Error (ApiDump uri));;
        raiseX RuntimeError
      else
        match data with
        | None =>
            note (NLog Error (ApiFailed uri));;
            note (NLog Error (ApiDump uri));;
            raiseX RuntimeError
        | Some d => mret d
        end
  end.

(** [functools.lru_cache()]: at most 128 results, the most recently used
    first; a call that raises stores nothing. *)
Definition lru_maxsize : nat := 128.

Fixpoint lru_find {V} (k : Z) (c : list (Z * V)) : option V :=
  match c with
  | [] => None
  | (k', v) :: c' => if Z.eqb k' k then Some v else lru_find k c'
  end.

Fixpoint lru_remove {V} (k : Z) (c : list (Z * V)) : list (Z * V) :=
  match c with
  | [] => []
  | (k', v) :: c' => if Z.eqb k' k then c' else (k', v) :: lru_remove k c'
  end.

Definition lru_touch {V} (k : Z) (v : V) (c : list (Z * V)) : list (Z * V) :=
  (k, v) :: lru_remove k c.

Definition lru_store {V} (k : Z) (v : V) (c : list (Z * V)) : list (Z * V) :=
  take lru_maxsize ((k, v) :: c).

Definition set_catalog_cache (c : list (Z * CatalogData)) : MX unit := λ w,
  (OkX tt, mkWorldX (base w) (notes w) c (show_cache w)).

Definition set_show_cache (c : list (Z * Series)) : MX unit := λ w,
  (OkX tt, mkWorldX (base w) (notes w) (catalog_cache w) c).

Section Client.

Variable server : Server.
Variable token : string.

(** [get_catalog], lines 40-43. *)
Definition get_catalog (id : Z) : MX CatalogData := λ w,
  match lru_find id (catalog_cache w) with
  | Some v => (set_catalog_cache (lru_touch id v (catalog_cache w));; mret v) w
  | None =>
      (v ← get_api_response token (CatalogOf id) ∅ (catalog_reply server id);
       set_catalog_cache (lru_store id v (catalog_cache w));;
       mret v) w
  end.

(** [get_content_show], lines 59-62. *)
Definition get_content_show (id : Z) : MX Series := λ w,
  match lru_find id (show_cache w) with
  | Some v => (set_show_cache (lru_touch id v (show_cache w));; mret v) w
  | None =>
      (v ← get_api_response token (ContentShow id) ∅ (show_reply server id);
       set_show_cache (lru_store id v (show_cache w));;
       mret v) w
  end.

End Client.

(** ** [save_meta] and [save_show] *)

Definition get_base_fs : MX (gmap Path Node) := λ w, (OkX (fs (base w)), w).

Section Show.

Variable env : Env.
Variable server : Server.
Variable token : string.
Variables no_tag no_cover : bool.
Variable episodes : option (gset Z).

(** [save_meta], lines 177-203: the cover, the description and the reader,
    each made only when its file is not there. *)
Definition save_meta (catalog : CatalogData) (series : Series) (show_dir : Path)
  : MX unit :=
  let cover := joinpath show_dir "cover.jpg" in
  f ← get_base_fs;
  (if negb (exists_ f cover) then
     lift (logger Info (Starting cover));;
     lift (download env (background_img catalog) cover);;
     lift (logger Info (Done cover))
   else lift (logger Info (Skipping cover)));;
  let desc := joinpath show_dir "desc.txt" in
  f ← get_base_fs;
  (if negb (exists_ f desc) then
     note (NLog Info (Generating desc));;
     lift (write_file desc (Bytes (share_desc series)));;
     note (NLog Info (Generated desc))
   else lift (logger Info (Skipping desc)));;
  let reader := joinpath show_dir "reader.txt" in
  f ← get_base_fs;
  (if negb (exists_ f reader) then
     note (NLog Info (Generating reader));;
     lift (write_file reader (Bytes (author series)));;
     note (NLog Info (Generated reader))
   else lift (logger Info (Skipping reader))).

(** [save_show], lines 64-174, as a whole. *)
Definition save_show (id : Z) : MX unit :=
  cdata ← get_catalog server token id;
  series ← get_content_show server token id;
  let show_dir := parts (cat_title (cat cdata)) in
  lift (mkdir_exist_ok show_dir);;
  save_meta cdata series show_dir;;
  lift (save_show_loop env no_tag no_cover episodes (cat cdata)).

End Show.

(** ** [save_transcript] *)

(** [s.startswith(p)]. *)
Fixpoint starts_with (p s : string) : bool :=
  match p, s with
  | EmptyString, _ => true
  | String a p', String b s' => Ascii.eqb a b && starts_with p' s'
  | String _ _, EmptyString => false
  end.

(** [s.replace(old, new)] for a non-empty [old]: the occurrences of [old]
    are taken from the left and do not overlap.  [skip] counts the
    characters of an occurrence that are still to be passed over. *)
Fixpoint replace_from (skip : nat) (old new s : string) : string :=
  match s with
  | EmptyString => EmptyString
  | String c s' =>
      match skip with
      | S k => replace_from k old new s'
      | O =>
          if starts_with old s
          then new +:+ replace_from (String.length old - 1) old new s'
          else String c (replace_from 0 old new s')
      end
  end.

Definition str_replace (old new s : string) : string := replace_from 0 old new s.

Definition dquote : ascii := "034"%char.

(** The two literals of lines 232-233. *)
Definition assets_old : string := String "=" (String dquote "/assets/").
Definition assets_new : string :=
  String "=" (String dquote "https://api.vistopia.com.cn/assets/").

Definition rewrite_assets (content : string) : string :=
  str_replace assets_old assets_new content.

Section Transcript.

Variable env : Env.
Variable server : Server.
Variable token : string.
Variable tools : Tools.
Variable episodes : option (gset Z).

Definition text_of (c : Content) : string :=
  match c with
  | Bytes s => s
  | Listing entries => listing_text tools entries
  end.

(** [open(fname).read()]. *)
Definition read_text (fname : Path) : MX string :=
  f ← get_base_fs;
  match node f fname with
  | Some (File c) => mret (text_of c)
  | Some Dir => raiseX (Base IsADirectoryError)
  | None => raiseX (Base FileNotFoundError)
  end.

(** [pdfkit.from_file(html, pdf)]: the tool reads the page and writes the
    document; any failure of its is one error. *)
Definition pdfkit_from_file (fname pdfname : Path) : MX unit :=
  note (NPdf fname pdfname);;
  f ← get_base_fs;
  match node f fname with
  | Some (File c) =>
      match pdf_render tools (text_of c) with
      | Some pdf =>
          r ← tryX (lift (write_file pdfname (Bytes pdf)));
          match r with
          | OkX _ => mret tt
          | RaiseX _ => raiseX PdfkitError
          end
      | None => raiseX PdfkitError
      end
  | _ => raiseX PdfkitError
  end.

(** Lines 221-249: the page and the document of one article. *)
Definition transcript_article (catalog : CatalogData) (show_dir : Path) (a : Article)
  : MX unit :=
  let title := replace_slash (title a) in
  let fname := joinpath show_dir (title ++ ".html") in
  f ← get_base_fs;
  (if negb (exists_ f fname) then
     lift (logger Info (Starting fname));;
     lift (urlretrieve env (content_url catalog a) fname);;
     content ← read_text fname;
     lift (write_file fname (Bytes (rewrite_assets content)));;
     lift (logger Info (Done fname))
   else lift (logger Info (Skipping fname)));;
  let pdfname := joinpath show_dir (title ++ ".pdf") in
  f ← get_base_fs;
  if negb (exists_ f pdfname) then
    note (NLog Info (Converting pdfname));;
    pdfkit_from_file fname pdfname;;
    note (NLog Info (Converted pdfname))
  else lift (logger Info (Skipping pdfname)).

Fixpoint transcript_articles (catalog : CatalogData) (show_dir : Path) (l : list Article)
  : MX unit :=
  match l with
  | [] => mret tt
  | article :: l' =>
      (if filtered_out episodes article then mret tt
       else transcript_article catalog show_dir article);;
      transcript_articles catalog show_dir l'
  end.

Fixpoint transcript_parts (catalog : CatalogData) (show_dir : Path) (c : list Part)
  : MX unit :=
  match c with
  | [] => mret tt
  | p :: c' =>
      transcript_articles catalog show_dir (part p);;
      transcript_parts catalog show_dir c'
  end.

(** [save_transcript], lines 205-249. *)
Definition save_transcript (id : Z) : MX unit :=
  cdata ← get_catalog server token id;
  let show_dir := parts (cat_title (cat cdata)) in
  lift (mkdir_exist_ok show_dir);;
  transcript_parts cdata show_dir (catalog (cat cdata)).

End Transcript.

(** * Notions used in the statements *)

(** The file system after an attempt that got as far as [part]. *)
Definition fs_after (fname : Path) (partial : option string) (f : gmap Path Node)
  : gmap Path Node :=
  match partial with
  | None => f
  | Some part => <[fname := File (Bytes part)]> f
  end.

(** An attempt that ends in [socket.timeout]: the network timed out, and the
    destination could be opened if the body had begun. *)
Definition times_out (f : gmap Path Node) (fname : Path) (o : Outcome) : Prop :=
  match o with
  | TimedOut None => True
  | TimedOut (Some _) => open_wb f fname = Ok tt
  | _ => False
  end.

(** An attempt that ends in a transport failure other than a timeout. *)
Definition fails (f : gmap Path Node) (fname : Path) (o : Outcome) : Prop :=
  match o with
  | Failed None => True
  | Failed (Some _) => open_wb f fname = Ok tt
  | _ => False
  end.

Definition partial_of (o : Outcome) : option string :=
  match o with
  | Complete d => Some d
  | TimedOut p => p
  | Failed p => p
  end.

(** The events of the loop from [count] on, when the [n] attempts left all
    time out. *)
Fixpoint retry_trace (url : string) (fname : Path) (n : nat) (count : Z) : list Event :=
  match n with
  | O => []
  | S n' => EvFetch url fname :: EvLog Warning (Retrying fname count)
            :: retry_trace url fname n' (count + 1)
  end.

(** A file is at [p]. *)
Definition file_at (f : gmap Path Node) (p : Path) : Prop :=
  ∃ c, node f p = Some (File c).

(** The file system once the paths [ps] are unlinked, first to last. *)
Fixpoint delete_all (ps : list Path) (f : gmap Path Node) : gmap Path Node :=
  match ps with
  | [] => f
  | p :: ps' => delete_all ps' (delete p f)
  end.

(** The file system the merge tool reads: the one the fetch left, with the
    merge manifest written. *)
Definition fs_at_merge (fname : Path) (ts_list : list string) (w1 : World)
  : gmap Path Node :=
  <[filelist (scratch_folder fname) :=
      File (Listing (map (seg_path (scratch_folder fname)) ts_list))]> (fs w1).

(** [keeps R m]: running [m] takes the file system to one related by [R]. *)
Definition keeps (R : relation (gmap Path Node)) {A} (m : M A) : Prop :=
  ∀ w, R (fs w) (fs (m w).2).

(** The same directories before and after. *)
Definition same_dirs : relation (gmap Path Node) :=
  λ f f', ∀ q, is_dir f' q = is_dir f q.

(** No directory appears, except maybe at [d]. *)
Definition no_new_dir (d : Path) : relation (gmap Path Node) :=
  λ f f', ∀ q, q ≠ d → is_dir f' q = true → is_dir f q = true.

(** Does the string hold a slash? *)
Fixpoint has_slash (s : string) : bool :=
  match s with
  | EmptyString => false
  | String c s' => Ascii.eqb c "/" || has_slash s'
  end.

(** [appends P m]: running [m] only adds events to the log, and every event
    it adds satisfies [P]. *)
Definition appends (P : Event → Prop) {A} (m : M A) : Prop :=
  ∀ w, ∃ evs, log (m w).2 = (log w ++ evs)%list ∧ Forall P evs.

(** The events of a call of [download] that succeeds after [j] timeouts. *)
Definition recover_trace (url : string) (fname : Path) (j : nat) : list Event :=
  match j with
  | O => [EvFetch url fname]
  | S j' => EvFetch url fname :: (retry_trace url fname j' 1 ++ [EvFetch url fname])%list
  end.

(** An attempt that brings the whole body to a destination that can be
    opened. *)
Definition completes (f : gmap Path Node) (fname : Path) (o : Outcome) (data : string)
  : Prop :=
  o = Complete data ∧ open_wb f fname = Ok tt.

(** Events of a single call of [download]: fetches of its URL to its
    destination, and warnings. *)
Definition download_event (url : string) (fname : Path) (e : Event) : Prop :=
  e = EvFetch url fname ∨ ∃ msg, e = EvLog Warning msg.

(** Events that are no call of a tagger switched off by its flag. *)
Definition respects_flags (no_tag no_cover : bool) (e : Event) : Prop :=
  (no_tag = true → ∀ p, e ≠ EvRetag p) ∧ (no_cover = true → ∀ p, e ≠ EvRetagCover p).

(** Events other than calls of the taggers. *)
Definition plain_event (e : Event) : Prop :=
  (∀ p, e ≠ EvRetag p) ∧ (∀ p, e ≠ EvRetagCover p).

(** The events of an audio episode that is fetched after [j] timeouts,
    tagged as the flags say, and reported. *)
Definition audio_trace (no_tag no_cover : bool) (url : string) (fname : Path) (j : nat)
  : list Event :=
  ([EvLog Info (Starting fname)] ++ recover_trace url fname j
   ++ (if no_tag then [] else [EvRetag fname])
   ++ (if no_cover then [] else [EvRetagCover fname])
   ++ [EvLog Info (Done fname)])%list.

(** A task of the pool whose first attempt brings the whole body [d]. *)
Definition task_completes (env : Env) (w : World) (t : string * Path) (d : string) : Prop :=
  completes (fs w) t.2 (urlopen env t.1 (attempts t.1 (log w))) d.

(** Nothing changes but maybe the path [p]. *)
Definition only_at (p : Path) : relation (gmap Path Node) :=
  λ f f', ∀ q, q ≠ p → node f' q = node f q.

(** Nothing changes outside the directory [d]. *)
Definition inside (d : Path) : relation (gmap Path Node) :=
  λ f f', ∀ q, ¬ d `prefix_of` q → node f' q = node f q.

(** Nothing changes but maybe paths of [ps] that were not there. *)
Definition fills_only (ps : list Path) : relation (gmap Path Node) :=
  λ f f', ∀ q, exists_ f q = true ∨ q ∉ ps → node f' q = node f q.

(** What is there stays as it is, and nothing appears outside [d]. *)
Definition adds_inside (d : Path) : relation (gmap Path Node) :=
  λ f f', ∀ q, exists_ f q = true ∨ ¬ d `prefix_of` q → node f' q = node f q.

(** [keeps] for the second layer. *)
Definition keepsX (R : relation (gmap Path Node)) {A} (m : MX A) : Prop :=
  ∀ w, R (fs (base w)) (fs (base (m w).2)).

(** The page and the document of an article, lines 222 and 242. *)
Definition page_path (show_dir : Path) (a : Article) : Path :=
  joinpath show_dir (replace_slash (title a) ++ ".html").

Definition doc_path (show_dir : Path) (a : Article) : Path :=
  joinpath show_dir (replace_slash (title a) ++ ".pdf").

(** The first thing the loop does with an article it takes up is to say so:
    it logs that the download of its target starts, or that the target is
    there and is skipped (lines 146 and 174).  No other message of a run has
    one of these two forms. *)
Definition announced (e : Event) : option Path :=
  match e with
  | EvLog Info (Starting p) => Some p
  | EvLog Info (Skipping p) => Some p
  | _ => None
  end.

(** Events that announce no article. *)
Abbreviation quiet := (λ e : Event, announced e = None).

(** [old in s]: the string [old] occurs somewhere in [s]. *)
Fixpoint occurs (old s : string) : bool :=
  starts_with old s ||
  match s with
  | EmptyString => false
  | String _ s' => occurs old s'
  end.

(** No equals sign in the string. *)
Fixpoint no_equals (s : string) : bool :=
  match s with
  | EmptyString => true
  | String c s' => negb (Ascii.eqb c "=") && no_equals s'
  end.

(** * Concrete runs

    Small environments and worlds on which the definitions are evaluated. *)

Definition no_manifest : string → option (list string) := λ _, None.
Definition plain_join : string → string → string := λ _ ts, ts.

(** A network on which every attempt times out before any byte arrives. *)
Definition env_time_out : Env :=
  mkEnv (λ _ _, TimedOut None) no_manifest plain_join (λ _, []) true None
        (λ _, true) (λ _, true).

(** A network that refuses every connection: a failure that is no timeout. *)
Definition env_refused : Env :=
  mkEnv (λ _ _, Failed None) no_manifest plain_join (λ _, []) true None
        (λ _, true) (λ _, true).

(** A network that times out twice in the body, then refuses. *)
Definition env_flaky : Env :=
  mkEnv (λ _ k, match k with
                | O => TimedOut (Some "ab")
                | 1%nat => TimedOut None
                | 2%nat => Failed (Some "abc")
                | _ => Complete "abcd"
                end)
        no_manifest plain_join (λ _, []) true None (λ _, true) (λ _, true).

(** A network that times out for ever, the body once begun. *)
Definition env_stalled : Env :=
  mkEnv (λ _ k, match k with
                | 3%nat => TimedOut (Some "ab")
                | _ => TimedOut None
                end)
        no_manifest plain_join (λ _, []) true None (λ _, true) (λ _, true).

(** A working directory that holds the directory of the show. *)
Definition world_show : World := mkWorld {[ ["show"] := Dir ]} [].

(** A network that serves every URL at once. *)
Definition env_ok : Env :=
  mkEnv (λ url _, Complete ("<" ++ url ++ ">")%string) no_manifest plain_join
        (λ _, []) true None (λ _, true) (λ _, true).

(** As [env_ok], except that the host [bad] refuses connections. *)
Definition env_bad_host : Env :=
  mkEnv (λ url _, if String.prefix "http://bad/" url then Failed None
                  else Complete ("<" ++ url ++ ">")%string)
        no_manifest plain_join (λ _, []) true None (λ _, true) (λ _, true).

Definition ep_text : Article := mkArticle 1 "one" "text" "http://h/one.txt" [].
Definition ep_audio_bad : Article := mkArticle 1 "one" "audio" "http://bad/one.mp3" [].
Definition ep_audio_two : Article := mkArticle 2 "two" "audio" "http://h/two.mp3" [].
Definition ep_video_one : Article :=
  mkArticle 1 "one" "video" "" [mkMediaFile 720 "http://h/one.m3u8"].

Definition catalog_text_first : Catalog :=
  mkCatalog "show" [mkPart [ep_text; ep_audio_two]].
Definition catalog_bad_first : Catalog :=
  mkCatalog "show" [mkPart [ep_audio_bad]; mkPart [ep_audio_two]].
Definition catalog_video_first : Catalog :=
  mkCatalog "show" [mkPart [ep_video_one; ep_audio_two]].
Definition catalog_two : Catalog := mkCatalog "show" [mkPart [ep_audio_two]].

(** The show once its audio episode is on disk. *)
Definition world_done : World :=
  mkWorld {[ ["show"] := Dir; ["show"; "two.mp3"] := File (Bytes "<two>") ]} [].

(** A show with one video episode of two segments; the pool finishes the
    second segment first. *)
Definition env_video : Env :=
  mkEnv (λ url _, Complete ("<" ++ url ++ ">")%string)
        (λ url, if String.eqb url "http://h/one.m3u8" then Some ["s0.ts"; "s1.ts"]
                else None)
        (λ _ ts, ("http://h/" ++ ts)%string)
        (λ _, [1; 0]%nat) true None (λ _, true) (λ _, true).

Definition catalog_video_only : Catalog := mkCatalog "show" [mkPart [ep_video_one]].

(** The scratch directory of the episode is there already, with a file
    that an earlier run left behind. *)
Definition world_leftover : World :=
  mkWorld {[ ["show"] := Dir; ["show"; "one"] := Dir;
             ["show"; "one"; "old.ts"] := File (Bytes "<old>") ]} [].

(** A playlist whose two segments have the same final component. *)
Definition env_clash (order : list nat) : Env :=
  mkEnv (λ url _, Complete ("<" ++ url ++ ">")%string)
        (λ _, Some ["a/seg.ts"; "b/seg.ts"])
        (λ _ ts, ("http://h/" ++ ts)%string)
        (λ _, order) true None (λ _, true) (λ _, true).

(** A network that times out twice, then delivers. *)
Definition env_slow : Env :=
  mkEnv (λ _ k, match k with
                | O => TimedOut (Some "ab")
                | 1%nat => TimedOut None
                | _ => Complete "abcd"
                end)
        no_manifest plain_join (λ _, []) true None (λ _, true) (λ _, true).

(** As [env_video], but the host refuses the second segment. *)
Definition env_missing_segment : Env :=
  mkEnv (λ url _, if String.eqb url "http://h/s1.ts" then Failed None
                  else Complete ("<" ++ url ++ ">")%string)
        (λ url, if String.eqb url "http://h/one.m3u8" then Some ["s0.ts"; "s1.ts"]
                else None)
        (λ _ ts, ("http://h/" ++ ts)%string)
        (λ _, [1; 0]%nat) true (Some "<http://h/s0.ts>") (λ _, true) (λ _, true).

Definition ep_video_bare : Article := mkArticle 1 "one" "video" "" [].
Definition catalog_video_bare : Catalog :=
  mkCatalog "show" [mkPart [ep_video_bare; ep_audio_two]].

(** Two audio articles with the same title. *)
Definition ep_audio_twin : Article := mkArticle 3 "two" "audio" "http://h/twin.mp3" [].
Definition catalog_twins : Catalog :=
  mkCatalog "show" [mkPart [ep_audio_two]; mkPart [ep_audio_twin]].

(** The show with the scratch directory of its video episode. *)
Definition world_scratch : World :=
  mkWorld {[ ["show"] := Dir; ["show"; "one"] := Dir ]} [].

Definition tasks_one : list (string * Path) :=
  [("http://h/s0.ts", ["show"; "one"; "s0.ts"]);
   ("http://h/s1.ts", ["show"; "one"; "s1.ts"])].

(** A server that knows the show 7 and fails for every other id. *)
Definition cdata_two : CatalogData :=
  mkCatalogData catalog_two "http://h/cover.jpg"
                (λ a, ("http://h/" ++ title a ++ ".html")%string).

Definition series_two : Series := mkSeries "about the show" "the reader" "show".

Definition server_seven : Server :=
  mkServer (λ id _, if id =? 7 then Replied (Some "success") (Some cdata_two)
                    else Replied (Some "error") None)
           (λ id _, if id =? 7 then Replied (Some "success") (Some series_two)
                    else Replied (Some "success") None).

(** An empty disk, nothing asked yet, nothing cached. *)
Definition worldx_empty : WorldX := mkWorldX (mkWorld ∅ []) [] [] [].

(** A cache that is full: 128 catalogs, of the shows 100 to 227. *)
Definition worldx_full : WorldX :=
  mkWorldX (mkWorld ∅ []) []
           ((λ n : nat, (100 + Z.of_nat n, cdata_two)) <$> seq 0 128) [].

(** The show with its cover already there. *)
Definition worldx_cover : WorldX :=
  mkWorldX (mkWorld {[ ["show"] := Dir;
                       ["show"; "cover.jpg"] := File (Bytes "old cover") ]} [])
           [] [] [].

(** A converter that always works, and a show whose page is already
    there. *)
Definition tools_plain : Tools :=
  mkTools (λ html, Some ("pdf of " ++ html)%string) (λ _, ""%string).

Definition worldx_page : WorldX :=
  mkWorldX (mkWorld {[ ["show"] := Dir;
                       ["show"; "two.html"] := File (Bytes "half a page") ]} [])
           [] [] [].

(** A show directory with nothing in it, and a network that serves a page
    with a link to an asset. *)
Definition worldx_show : WorldX := mkWorldX world_show [] [] [].

Definition page_raw : string :=
  ("<img src" ++ assets_old ++ "a.png" ++ String dquote ">")%string.

Definition env_page : Env :=
  mkEnv (λ _ _, Complete page_raw) no_manifest plain_join (λ _, []) true None
        (λ _, true) (λ _, true).

(** An empty show directory beside a directory of papers. *)
Definition worldx_papers : WorldX :=
  mkWorldX (mkWorld {[ ["show"] := Dir; ["papers"] := Dir;
                       ["papers"; "cover.jpg"] := File (Bytes "a scan") ]} [])
           [] [] [].

(** * Properties *)

Local Open Scope list_scope.

(** ** The monad *)

Lemma bind_ok {A B} (m : M A) (f : A → M B) w a w' :
  m w = (Ok a, w') → (m ≫= f) w = f a w'.
Proof. intros H. unfold mbind, M_bind. by rewrite H. Qed.

Lemma bind_raise {A B} (m : M A) (f : A → M B) w e w' :
  m w = (Raise e, w') → (m ≫= f) w = (Raise e, w').
Proof. intros H. unfold mbind, M_bind. by rewrite H. Qed.

Lemma try_eq {A} (m : M A) w r w' : m w = (r, w') → try m w = (Ok r, w').
Proof. intros H. unfold try. by rewrite H. Qed.

Lemma bind_inv {A B} (m : M A) (f : A → M B) w r w' :
  (m ≫= f) w = (r, w') →
  (∃ a w1, m w = (Ok a, w1) ∧ f a w1 = (r, w')) ∨
  (∃ e, m w = (Raise e, w') ∧ r = Raise e).
Proof.
  unfold mbind, M_bind. destruct (m w) as [[a|e] w1]; intros H.
  - left. eauto.
  - right. inversion H; subst. eauto.
Qed.

Ltac munfold :=
  unfold mbind, M_bind, mret, M_ret, try, raise, logger, emit, get_log, get_fs in *.

(** A failed run of the merge tool raises, and leaves the disk as it was or
    with a part of the output. *)
Lemma ffmpeg_fail_raises env out w :
  ∃ w', ffmpeg_fail env out w = (Raise FfmpegError, w') ∧
        log w' = log w ∧
        (fs w' = fs w ∨
         ∃ part, ffmpeg_partial env = Some part ∧ open_wb (fs w) out = Ok tt ∧
                 fs w' = <[out := File (Bytes part)]> (fs w)).
Proof.
  unfold ffmpeg_fail. destruct (ffmpeg_partial env) as [part|]; [|by eexists; eauto].
  unfold mbind, M_bind, try, write_file, raise.
  destruct (open_wb (fs w) out) as [[]|e] eqn:E; simpl; eexists; split_and!; eauto.
Qed.

(** ** Best quality *)

Lemma best_scan_spec (l : list MediaFile) : ∀ bq bu,
  (best_scan bq bu l = (bq, bu) ∧ ∀ m, m ∈ l → quality m ≤ bq) ∨
  (∃ i m, l !! i = Some m ∧
          best_scan bq bu l = (quality m, mf_media_key_full_url m) ∧
          bq < quality m ∧
          (∀ m', m' ∈ l → quality m' ≤ quality m) ∧
          (∀ j m', (j < i)%nat → l !! j = Some m' → quality m' < quality m)).
Proof.
  induction l as [|x l IH]; intros bq bu; simpl.
  - left. split; [done|]. intros m Hm. by apply elem_of_nil in Hm.
  - destruct (bq <? quality x) eqn:E.
    + apply Z.ltb_lt in E.
      destruct (IH (quality x) (mf_media_key_full_url x))
        as [[Heq Hle] | (i & m & Hi & Heq & Hlt & Hle & Hbefore)].
      * right. exists O, x. simpl. split_and!; try done.
        -- intros m' Hm'. apply elem_of_cons in Hm' as [->|Hm']; [lia|].
           by apply Hle.
        -- intros j m' Hj. lia.
      * right. exists (S i), m. simpl. split_and!; try done; try lia.
        -- intros m' Hm'. apply elem_of_cons in Hm' as [->|Hm']; [lia|].
           by apply Hle.
        -- intros [|j] m' Hj Hm'; simpl in Hm'.
           ++ inversion Hm'; subst. done.
           ++ apply (Hbefore j); [lia|done].
    + apply Z.ltb_ge in E.
      destruct (IH bq bu)
        as [[Heq Hle] | (i & m & Hi & Heq & Hlt & Hle & Hbefore)].
      * left. split; [done|].
        intros m' Hm'. apply elem_of_cons in Hm' as [->|Hm']; [lia|].
        by apply Hle.
      * right. exists (S i), m. simpl. split_and!; try done.
        -- intros m' Hm'. apply elem_of_cons in Hm' as [->|Hm']; [lia|].
           by apply Hle.
        -- intros [|j] m' Hj Hm'; simpl in Hm'.
           ++ inversion Hm'; subst. lia.
           ++ apply (Hbefore j); [lia|done].
Qed.

(** C6.  For a non-empty list of media candidates the scan of [save_show]
    (strict [>] on the integer quality, starting from the first candidate)
    selects a candidate of maximal quality, and no candidate before the
    selected one has that quality: among equals the first seen is kept. *)
Theorem select_best_first_max (l : list MediaFile) :
  l ≠ [] →
  ∃ i m, l !! i = Some m ∧
         select_best l = Ok (quality m, mf_media_key_full_url m) ∧
         (∀ m', m' ∈ l → quality m' ≤ quality m) ∧
         (∀ j m', (j < i)%nat → l !! j = Some m' → quality m' < quality m).
Proof.
  destruct l as [|m0 l]; [done|]. intros _.
  unfold select_best.
  destruct (best_scan_spec (m0 :: l) (quality m0) (mf_media_key_full_url m0))
    as [[Heq Hle] | (i & m & Hi & Heq & Hlt & Hle & Hbefore)].
  - exists O, m0. rewrite Heq. split_and!; try done. intros j m' Hj. lia.
  - exists i, m. rewrite Heq. by split_and!.
Qed.

Lemma select_best_first_max_witness :
  ∃ i m, [mkMediaFile 480 "a"; mkMediaFile 720 "b"; mkMediaFile 720 "c";
          mkMediaFile 1080 "d"; mkMediaFile 1080 "e"] !! i = Some m ∧
         select_best [mkMediaFile 480 "a"; mkMediaFile 720 "b"; mkMediaFile 720 "c";
                      mkMediaFile 1080 "d"; mkMediaFile 1080 "e"]
         = Ok (quality m, mf_media_key_full_url m) ∧
         (∀ m', m' ∈ [mkMediaFile 480 "a"; mkMediaFile 720 "b"; mkMediaFile 720 "c";
                      mkMediaFile 1080 "d"; mkMediaFile 1080 "e"] →
                quality m' ≤ quality m) ∧
         (∀ j m', (j < i)%nat →
                  [mkMediaFile 480 "a"; mkMediaFile 720 "b"; mkMediaFile 720 "c";
                   mkMediaFile 1080 "d"; mkMediaFile 1080 "e"] !! j = Some m' →
                  quality m' < quality m).
Proof. apply select_best_first_max. discriminate. Defined.

Example select_best_spec_example :
  select_best [mkMediaFile 480 "a"; mkMediaFile 720 "b"; mkMediaFile 720 "c";
               mkMediaFile 1080 "d"; mkMediaFile 1080 "e"] = Ok (1080, "d").
Proof. reflexivity. Qed.

(** ** The retrying fetcher *)

Lemma attempts_app url l1 l2 : attempts url (l1 ++ l2) = (attempts url l1 + attempts url l2)%nat.
Proof. unfold attempts. by rewrite List.filter_app, length_app. Qed.

Lemma attempts_fetch url fname l :
  attempts url (l ++ [EvFetch url fname]) = S (attempts url l).
Proof.
  rewrite attempts_app. unfold attempts at 2. simpl.
  rewrite String.eqb_refl. simpl. lia.
Qed.

Lemma attempts_log url l lvl msg : attempts url (l ++ [EvLog lvl msg]) = attempts url l.
Proof. rewrite attempts_app. unfold attempts at 2. simpl. lia. Qed.

Lemma parent_ne (p : Path) : p ≠ [] → parent p ≠ p.
Proof.
  intros Hp Heq. apply (f_equal List.length) in Heq.
  unfold parent in Heq. rewrite removelast_firstn_len, length_take in Heq.
  destruct p; [done|]. simpl in Heq. lia.
Qed.

Lemma node_insert_eq f (p : Path) n : p ≠ [] → node (<[p := n]> f) p = Some n.
Proof. destruct p; [done|]. intros _. apply lookup_insert_eq. Qed.

Lemma node_insert_ne f (p q : Path) n : p ≠ q → node (<[p := n]> f) q = node f q.
Proof. destruct q; [done|]. intros H. by apply lookup_insert_ne. Qed.

Lemma node_delete_eq f (p : Path) : p ≠ [] → node (delete p f) p = None.
Proof. destruct p; [done|]. intros _. apply lookup_delete_eq. Qed.

Lemma node_delete_ne f (p q : Path) : p ≠ q → node (delete p f) q = node f q.
Proof. destruct q; [done|]. intros H. by apply lookup_delete_ne. Qed.

Lemma open_wb_ne f (p : Path) : open_wb f p = Ok tt → p ≠ [].
Proof. intros H ->. done. Qed.

Lemma open_wb_insert_file f p c :
  open_wb f p = Ok tt → open_wb (<[p := File c]> f) p = Ok tt.
Proof.
  intros H. pose proof (open_wb_ne _ _ H) as Hne. revert H.
  unfold open_wb, is_dir. rewrite node_insert_eq by done.
  rewrite node_insert_ne by (intros Heq; by apply (parent_ne p)).
  by destruct (node f p) as [[|]|].
Qed.

Section Download.

Variable env : Env.
Variables (url : string) (fname : Path).

Lemma urlretrieve_times_out w :
  times_out (fs w) fname (urlopen env url (attempts url (log w))) →
  urlretrieve env url fname w =
    (Raise SocketTimeout,
     mkWorld (fs_after fname (partial_of (urlopen env url (attempts url (log w)))) (fs w))
             (log w ++ [EvFetch url fname])).
Proof.
  unfold urlretrieve, times_out. munfold. simpl.
  destruct (urlopen env url (attempts url (log w))) as [d|[part|]|p]; try done.
  intros Hopen. unfold write_file. simpl. by rewrite Hopen.
Qed.

Lemma times_out_fs_after f o p :
  times_out f fname o → times_out (fs_after fname p f) fname o.
Proof.
  unfold times_out. destruct o as [|[part|]|]; try done.
  destruct p as [q|]; simpl; [|done]. by apply open_wb_insert_file.
Qed.

Lemma delete_fs_after p f : delete fname (fs_after fname p f) = delete fname f.
Proof. destruct p; simpl; [|done]. by rewrite delete_insert_eq. Qed.

Lemma attempts_retry_trace n count l :
  attempts url (l ++ retry_trace url fname n count) = (attempts url l + n)%nat.
Proof.
  revert count l. induction n as [|n IH]; intros count l; simpl.
  - rewrite app_nil_r. lia.
  - change (EvFetch url fname :: EvLog Warning (Retrying fname count) :: retry_trace url fname n (count + 1))
      with ([EvFetch url fname] ++ [EvLog Warning (Retrying fname count)]
              ++ retry_trace url fname n (count + 1))%list.
    rewrite !app_assoc, IH, attempts_log, attempts_fetch. lia.
Qed.

Lemma file_at_fs_after f o :
  times_out f fname o → file_at f fname ∨ (∃ part, o = TimedOut (Some part)) →
  file_at (fs_after fname (partial_of o) f) fname.
Proof.
  intros Hto [[c Hc] | [part ->]].
  - assert (Hne : fname ≠ []) by (by intros ->).
    destruct (partial_of o) as [q|]; simpl; [|by exists c].
    eexists. by apply node_insert_eq.
  - simpl in *. eexists. apply node_insert_eq. by eapply open_wb_ne.
Qed.

Lemma retry_loop_all_time_out (n : nat) : ∀ fuel count w,
  count = 6 - Z.of_nat n → (n ≤ 5)%nat → (n ≤ fuel)%nat →
  (∀ k, (k < n)%nat →
        times_out (fs w) fname (urlopen env url (attempts url (log w) + k))) →
  ∃ w', retry_loop env fuel count url fname w = (Ok 6, w') ∧
        log w' = log w ++ retry_trace url fname n count ∧
        delete fname (fs w') = delete fname (fs w) ∧
        (file_at (fs w) fname → file_at (fs w') fname) ∧
        (∀ k part, (k < n)%nat →
           urlopen env url (attempts url (log w) + k) = TimedOut (Some part) →
           file_at (fs w') fname).
Proof.
  induction n as [|n IH]; intros fuel count w Hc Hn Hfuel Hto.
  - exists w. subst count. destruct fuel; simpl; munfold;
      (split_and!; [done|by rewrite app_nil_r|done|done|intros; lia]).
  - destruct fuel as [|fuel]; [lia|].
    assert (Hle : (count <=? 5) = true) by (apply Z.leb_le; lia).
    simpl. rewrite Hle.
    pose proof (Hto O ltac:(lia)) as H0. rewrite Nat.add_0_r in H0.
    pose proof (urlretrieve_times_out w H0) as Hu.
    set (o := urlopen env url (attempts url (log w))) in *.
    set (w1 := mkWorld (fs_after fname (partial_of o) (fs w))
                       (log w ++ [EvFetch url fname])) in *.
    set (w2 := mkWorld (fs w1) (log w1 ++ [EvLog Warning (Retrying fname count)])).
    destruct (IH fuel (count + 1) w2) as (w' & Hrun & Hlog & Hdel & Hkeep & Hpart).
    + lia.
    + lia.
    + lia.
    + intros k Hk. simpl. rewrite attempts_log, attempts_fetch.
      apply times_out_fs_after.
      replace (S (attempts url (log w)) + k)%nat with (attempts url (log w) + S k)%nat by lia.
      apply Hto. lia.
    + exists w'. split_and!.
      * unfold mbind, M_bind. rewrite (try_eq _ _ _ _ Hu).
        unfold logger, emit. simpl. exact Hrun.
      * rewrite Hlog. simpl. by rewrite <- !app_assoc.
      * rewrite Hdel. simpl. apply delete_fs_after.
      * intros Hat. apply Hkeep. simpl. apply file_at_fs_after; [done|by left].
      * intros [|k] part Hk Hout.
        -- apply Hkeep. simpl. rewrite Nat.add_0_r in Hout. fold o in Hout.
           apply file_at_fs_after; [done|]. right. by exists part.
        -- apply (Hpart k part); [lia|]. simpl.
           rewrite attempts_log, attempts_fetch.
           replace (S (attempts url (log w)) + k)%nat
             with (attempts url (log w) + S k)%nat by lia.
           done.
Qed.

End Download.

Section DownloadClaims.

Variable env : Env.
Variables (url : string) (fname : Path).

Lemma urlretrieve_fails w :
  fails (fs w) fname (urlopen env url (attempts url (log w))) →
  urlretrieve env url fname w =
    (Raise TransportError,
     mkWorld (fs_after fname (partial_of (urlopen env url (attempts url (log w)))) (fs w))
             (log w ++ [EvFetch url fname])).
Proof.
  unfold urlretrieve, fails. munfold. simpl.
  destruct (urlopen env url (attempts url (log w))) as [d|p|[part|]]; try done.
  intros Hopen. unfold write_file. simpl. by rewrite Hopen.
Qed.

Lemma fails_fs_after f o p :
  fails f fname o → fails (fs_after fname p f) fname o.
Proof.
  unfold fails. destruct o as [| |[part|]]; try done.
  destruct p as [q|]; simpl; [|done]. by apply open_wb_insert_file.
Qed.

(** Inside the loop: [j] timeouts, then a failure that is not a timeout. *)
Lemma retry_loop_failure (j : nat) : ∀ fuel count w,
  1 ≤ count → count + Z.of_nat j ≤ 5 → (j < fuel)%nat →
  (∀ k, (k < j)%nat →
        times_out (fs w) fname (urlopen env url (attempts url (log w) + k))) →
  fails (fs w) fname (urlopen env url (attempts url (log w) + j)) →
  ∃ w', retry_loop env fuel count url fname w = (Raise TransportError, w') ∧
        attempts url (log w') = (attempts url (log w) + j + 1)%nat.
Proof.
  induction j as [|j IH]; intros fuel count w Hc1 Hc5 Hfuel Hto Hfail;
    (destruct fuel as [|fuel]; [lia|]);
    assert (Hle : (count <=? 5) = true) by (apply Z.leb_le; lia);
    simpl; rewrite Hle.
  - rewrite Nat.add_0_r in Hfail.
    pose proof (urlretrieve_fails w Hfail) as Hu.
    eexists. split.
    + unfold mbind, M_bind. rewrite (try_eq _ _ _ _ Hu). reflexivity.
    + simpl. rewrite attempts_fetch. lia.
  - pose proof (Hto O ltac:(lia)) as H0. rewrite Nat.add_0_r in H0.
    pose proof (urlretrieve_times_out env url fname w H0) as Hu.
    set (o := urlopen env url (attempts url (log w))) in *.
    set (w1 := mkWorld (fs_after fname (partial_of o) (fs w))
                       (log w ++ [EvFetch url fname])) in *.
    set (w2 := mkWorld (fs w1) (log w1 ++ [EvLog Warning (Retrying fname count)])).
    destruct (IH fuel (count + 1) w2) as (w' & Hrun & Hatt).
    + lia.
    + lia.
    + lia.
    + intros k Hk. simpl. rewrite attempts_log, attempts_fetch.
      apply times_out_fs_after.
      replace (S (attempts url (log w)) + k)%nat with (attempts url (log w) + S k)%nat by lia.
      apply Hto. lia.
    + simpl. rewrite attempts_log, attempts_fetch. apply fails_fs_after.
      replace (S (attempts url (log w)) + j)%nat with (attempts url (log w) + S j)%nat by lia.
      done.
    + exists w'. split.
      * unfold mbind, M_bind. rewrite (try_eq _ _ _ _ Hu).
        unfold logger, emit. simpl. exact Hrun.
      * rewrite Hatt. simpl. rewrite attempts_log, attempts_fetch. lia.
Qed.

(** The whole of [download] when the initial attempt and the five retries
    time out: the trace, and the world just before [fname.unlink()]. *)
Lemma download_all_time_out w :
  (∀ k, (k < 6)%nat →
        times_out (fs w) fname (urlopen env url (attempts url (log w) + k))) →
  ∃ w1, download env url fname w =
          unlink false fname
            (mkWorld (fs w1) (log w1 ++ [EvLog Warning (FetchFailed fname)])) ∧
        log w1 = log w ++ EvFetch url fname :: retry_trace url fname 5 1 ∧
        delete fname (fs w1) = delete fname (fs w) ∧
        (file_at (fs w) fname → file_at (fs w1) fname) ∧
        (∀ k part, (k < 6)%nat →
           urlopen env url (attempts url (log w) + k) = TimedOut (Some part) →
           file_at (fs w1) fname).
Proof.
  intros Hto.
  pose proof (Hto O ltac:(lia)) as H0. rewrite Nat.add_0_r in H0.
  pose proof (urlretrieve_times_out env url fname w H0) as Hu.
  set (o := urlopen env url (attempts url (log w))) in *.
  set (w0 := mkWorld (fs_after fname (partial_of o) (fs w))
                     (log w ++ [EvFetch url fname])) in *.
  destruct (retry_loop_all_time_out env url fname 5 5 1 w0)
    as (w1 & Hrun & Hlog & Hdel & Hkeep & Hpart); try lia.
  { intros k Hk. simpl. rewrite attempts_fetch. apply times_out_fs_after.
    replace (S (attempts url (log w)) + k)%nat with (attempts url (log w) + S k)%nat by lia.
    apply Hto. lia. }
  exists w1. split_and!.
  - unfold download, download_fuel, mbind, M_bind.
    rewrite (try_eq _ _ _ _ Hu), Hrun. simpl. reflexivity.
  - rewrite Hlog. simpl. by rewrite <- app_assoc.
  - rewrite Hdel. simpl. apply delete_fs_after.
  - intros Hat. apply Hkeep. simpl.
    apply file_at_fs_after; [done|by left].
  - intros [|k] part Hk Hout.
    + apply Hkeep. simpl. rewrite Nat.add_0_r in Hout. fold o in Hout.
      apply file_at_fs_after; [done|]. right. by exists part.
    + apply (Hpart k part); [lia|]. simpl. rewrite attempts_fetch.
      replace (S (attempts url (log w)) + k)%nat
        with (attempts url (log w) + S k)%nat by lia.
      done.
Qed.

Lemma unlink_log b p w : log (unlink b p w).2 = log w.
Proof.
  unfold unlink. destruct (node (fs w) p) as [[c|]|]; try done. by destruct b.
Qed.

End DownloadClaims.

(** C2 (amended).  When the initial attempt and every retry time out,
    [download] makes exactly six fetch attempts, the initial one and five
    retries, and then records the failure. *)
Theorem download_all_time_out_six_attempts (env : Env) (url : string) (fname : Path) (w : World) :
  (∀ k, (k < 6)%nat →
        times_out (fs w) fname (urlopen env url (attempts url (log w) + k))) →
  log (download env url fname w).2 =
    log w ++ EvFetch url fname :: retry_trace url fname 5 1
          ++ [EvLog Warning (FetchFailed fname)] ∧
  attempts url (log (download env url fname w).2) = (attempts url (log w) + 6)%nat.
Proof.
  intros Hto.
  destruct (download_all_time_out env url fname w Hto) as (w1 & Hrun & Hlog & _).
  rewrite Hrun, unlink_log. simpl. rewrite Hlog.
  split.
  - by rewrite <- app_assoc.
  - rewrite attempts_log.
    change (EvFetch url fname :: retry_trace url fname 5 1)
      with ([EvFetch url fname] ++ retry_trace url fname 5 1).
    rewrite app_assoc, attempts_retry_trace, attempts_fetch. lia.
Qed.

Lemma download_all_time_out_six_attempts_witness :
  (∀ k, (k < 6)%nat →
        times_out (fs world_show) ["show"; "x.mp3"]
                  (urlopen env_time_out "u" (attempts "u" (log world_show) + k))) ∧
  attempts "u" (log (download env_time_out "u" ["show"; "x.mp3"] world_show).2)
  = (attempts "u" (log world_show) + 6)%nat.
Proof.
  assert (H : ∀ k, (k < 6)%nat →
      times_out (fs world_show) ["show"; "x.mp3"]
                (urlopen env_time_out "u" (attempts "u" (log world_show) + k))).
  { intros k _. exact I. }
  split; [exact H|].
  exact (proj2 (download_all_time_out_six_attempts env_time_out "u" ["show"; "x.mp3"]
                  world_show H)).
Defined.

(** C2, as stated, fails: with every attempt timing out the fetcher makes
    six attempts, not five. *)
Lemma download_five_attempts_counterexample :
  (∀ k, urlopen env_time_out "u" k = TimedOut None) ∧
  attempts "u" (log (download env_time_out "u" ["show"; "x.mp3"] world_show).2) = 6%nat ∧
  attempts "u" (log (download env_time_out "u" ["show"; "x.mp3"] world_show).2) ≠ 5%nat.
Proof.
  split; [done|]. split; [by vm_compute|].
  intros H. vm_compute in H. discriminate.
Qed.

(** C3 (amended).  [download] catches timeouts only.  A transport failure
    that is not a timeout, at the initial attempt or at a retry, is not
    retried and leaves [download] as an exception.  When the initial attempt
    and the five retries time out and a file is at the destination (it was
    there before, or an attempt began to write it), the failure is logged,
    the file is deleted and the call returns normally, with the same unit
    value as a successful call. *)
Theorem download_catches_timeouts_only (env : Env) (url : string) (fname : Path) (w : World) :
  (∀ j, (j ≤ 5)%nat →
        (∀ k, (k < j)%nat →
              times_out (fs w) fname (urlopen env url (attempts url (log w) + k))) →
        fails (fs w) fname (urlopen env url (attempts url (log w) + j)) →
        (download env url fname w).1 = Raise TransportError ∧
        attempts url (log (download env url fname w).2)
        = (attempts url (log w) + j + 1)%nat) ∧
  ((∀ k, (k < 6)%nat →
         times_out (fs w) fname (urlopen env url (attempts url (log w) + k))) →
   (file_at (fs w) fname ∨
    ∃ k part, (k < 6)%nat ∧
              urlopen env url (attempts url (log w) + k) = TimedOut (Some part)) →
   (download env url fname w).1 = Ok tt ∧
   fs (download env url fname w).2 = delete fname (fs w) ∧
   log (download env url fname w).2 =
     log w ++ EvFetch url fname :: retry_trace url fname 5 1
           ++ [EvLog Warning (FetchFailed fname)]).
Proof.
  split.
  - intros [|j] Hj Hto Hfail.
    + rewrite Nat.add_0_r in Hfail.
      pose proof (urlretrieve_fails env url fname w Hfail) as Hu.
      unfold download, download_fuel, mbind, M_bind.
      rewrite (try_eq _ _ _ _ Hu). simpl. rewrite attempts_fetch. split; [done|lia].
    + pose proof (Hto O ltac:(lia)) as H0. rewrite Nat.add_0_r in H0.
      pose proof (urlretrieve_times_out env url fname w H0) as Hu.
      set (o := urlopen env url (attempts url (log w))) in *.
      set (w0 := mkWorld (fs_after fname (partial_of o) (fs w))
                         (log w ++ [EvFetch url fname])) in *.
      destruct (retry_loop_failure env url fname j 5 1 w0) as (w' & Hrun & Hatt);
        try lia.
      { intros k Hk. simpl. rewrite attempts_fetch. apply times_out_fs_after.
        replace (S (attempts url (log w)) + k)%nat
          with (attempts url (log w) + S k)%nat by lia.
        apply Hto. lia. }
      { simpl. rewrite attempts_fetch. apply fails_fs_after.
        replace (S (attempts url (log w)) + j)%nat
          with (attempts url (log w) + S j)%nat by lia.
        done. }
      unfold download, download_fuel, mbind, M_bind.
      rewrite (try_eq _ _ _ _ Hu), Hrun. simpl. split; [done|].
      rewrite Hatt. simpl. rewrite attempts_fetch. lia.
  - intros Hto Hfile.
    destruct (download_all_time_out env url fname w Hto)
      as (w1 & Hrun & Hlog & Hdel & Hkeep & Hpart).
    assert (Hat : file_at (fs w1) fname).
    { destruct Hfile as [Hf | (k & part & Hk & Hout)]; [by apply Hkeep|].
      by apply (Hpart k part). }
    destruct Hat as [c Hc].
    rewrite Hrun. unfold unlink. simpl. rewrite Hc. simpl.
    rewrite Hdel, Hlog, <- app_assoc. done.
Qed.

Lemma download_catches_timeouts_only_witness :
  ((download env_flaky "u" ["show"; "x.mp3"] world_show).1 = Raise TransportError ∧
   attempts "u" (log (download env_flaky "u" ["show"; "x.mp3"] world_show).2)
   = (attempts "u" (log world_show) + 2 + 1)%nat) ∧
  ((download env_stalled "u" ["show"; "x.mp3"] world_show).1 = Ok tt ∧
   fs (download env_stalled "u" ["show"; "x.mp3"] world_show).2
   = delete ["show"; "x.mp3"] (fs world_show) ∧
   log (download env_stalled "u" ["show"; "x.mp3"] world_show).2
   = log world_show ++ EvFetch "u" ["show"; "x.mp3"]
       :: retry_trace "u" ["show"; "x.mp3"] 5 1
       ++ [EvLog Warning (FetchFailed ["show"; "x.mp3"])]).
Proof.
  split.
  - apply (proj1 (download_catches_timeouts_only env_flaky "u" ["show"; "x.mp3"]
                    world_show) 2%nat).
    + lia.
    + intros [|[|k]] Hk; [reflexivity | exact I | lia].
    + reflexivity.
  - apply (proj2 (download_catches_timeouts_only env_stalled "u" ["show"; "x.mp3"]
                    world_show)).
    + intros [|[|[|[|k]]]] Hk; try exact I. reflexivity.
    + right. exists 3%nat, "ab"%string. split; [lia | reflexivity].
Defined.

(** C3, as stated, fails: a refused connection is not a timeout; it is not
    retried, and the exception leaves [download]. *)
Lemma download_propagates_counterexample :
  (∀ k, urlopen env_refused "u" k = Failed None) ∧
  (download env_refused "u" ["show"; "x.mp3"] world_show).1 = Raise TransportError ∧
  attempts "u" (log (download env_refused "u" ["show"; "x.mp3"] world_show).2) = 1%nat.
Proof. split; [done|]. split; by vm_compute. Qed.

(** With nothing written at the destination, the [unlink] that follows the
    last timeout raises too. *)
Example download_unlink_missing :
  (download env_time_out "u" ["show"; "x.mp3"] world_show).1 = Raise FileNotFoundError.
Proof. by vm_compute. Qed.

(** [download] never runs out of the fuel of its loop. *)
Lemma write_file_not_out_of_fuel p c w : (write_file p c w).1 ≠ Raise OutOfFuel.
Proof.
  unfold write_file, open_wb.
  destruct (is_dir (fs w) p); [done|]. by destruct (is_dir (fs w) (parent p)).
Qed.

Lemma urlretrieve_not_out_of_fuel env url fname w :
  (urlretrieve env url fname w).1 ≠ Raise OutOfFuel.
Proof.
  unfold urlretrieve. munfold. simpl.
  destruct (urlopen env url (attempts url (log w))) as [d|[part|]|[part|]]; simpl;
    try done;
    match goal with
    | |- context [write_file ?p ?c ?w] =>
        pose proof (write_file_not_out_of_fuel p c w);
        destruct (write_file p c w) as [[[]|e] w1]; simpl in *; done
    end.
Qed.

Lemma retry_loop_not_out_of_fuel env url fname fuel : ∀ count w,
  6 - count ≤ Z.of_nat fuel →
  (retry_loop env fuel count url fname w).1 ≠ Raise OutOfFuel.
Proof.
  induction fuel as [|fuel IH]; intros count w Hf; simpl.
  - destruct (count <=? 5) eqn:E; [apply Z.leb_le in E; lia|done].
  - destruct (count <=? 5) eqn:E; [|done].
    unfold mbind, M_bind, try.
    pose proof (urlretrieve_not_out_of_fuel env url fname w) as Hu.
    destruct (urlretrieve env url fname w) as [[[]|e] w1]; [done|].
    destruct e; try done.
    unfold logger, emit. simpl. apply IH. lia.
Qed.

Lemma download_not_out_of_fuel env url fname w :
  (download env url fname w).1 ≠ Raise OutOfFuel.
Proof.
  unfold download, download_fuel, mbind, M_bind, try.
  pose proof (urlretrieve_not_out_of_fuel env url fname w) as Hu.
  destruct (urlretrieve env url fname w) as [[[]|e] w1]; [done|].
  destruct e; try done.
  pose proof (retry_loop_not_out_of_fuel env url fname 5 1 w1 ltac:(lia)) as Hr.
  destruct (retry_loop env 5 1 url fname w1) as [[c|e] w2];
    [|simpl in *; intros [= ->]; by apply Hr].
  destruct (5 <? c); [|done].
  unfold logger, emit, unlink. simpl.
  destruct (node (fs w2) fname) as [[|]|]; done.
Qed.

(** ** The loop over the catalog *)

Section Loop.

Variable env : Env.
Variables no_tag no_cover : bool.
Variable episodes : option (gset Z).
Variable show_dir : Path.

Local Abbreviation body := (process_article env no_tag no_cover show_dir).
Local Abbreviation run := (process_in_order env no_tag no_cover show_dir).
Local Abbreviation inner := (for_articles env no_tag no_cover episodes show_dir).
Local Abbreviation outer := (for_parts env no_tag no_cover episodes show_dir).

Lemma process_in_order_app l1 l2 w :
  run (l1 ++ l2) w = (run l1 ≫= λ _, run l2) w.
Proof.
  revert w. induction l1 as [|a l1 IH]; intros w; simpl; [done|].
  unfold mbind, M_bind in *.
  destruct (body a w) as [[[]|e] w1]; [|done]. apply IH.
Qed.

Lemma for_articles_filter l w :
  inner l w = run (List.filter (in_filter episodes) l) w.
Proof.
  revert w. induction l as [|a l IH]; intros w; simpl; [done|].
  unfold in_filter. destruct (filtered_out episodes a); simpl.
  - unfold mbind, M_bind, mret, M_ret. apply IH.
  - unfold mbind, M_bind. destruct (body a w) as [[[]|e] w1]; [|done].
    apply IH.
Qed.

Lemma for_parts_filter c w :
  outer c w =
  run (List.filter (in_filter episodes) (List.concat (map part c))) w.
Proof.
  revert w. induction c as [|p c IH]; intros w; simpl; [done|].
  rewrite List.filter_app, process_in_order_app.
  unfold mbind, M_bind. rewrite for_articles_filter.
  destruct (run (List.filter (in_filter episodes) (part p)) w)
    as [[[]|e] w1]; [|done].
  apply IH.
Qed.

(** An article whose media type is neither [audio] nor [video] stops the run
    where it stands. *)
Lemma process_in_order_unsupported pre a post w w1 :
  run pre w = (Ok tt, w1) →
  target show_dir a = Raise NotImplementedError →
  run (pre ++ a :: post) w = (Raise NotImplementedError, w1).
Proof.
  intros Hpre Ha. rewrite process_in_order_app.
  rewrite (bind_ok _ _ _ _ _ Hpre). simpl.
  unfold mbind, M_bind, process_article. by rewrite Ha.
Qed.

Lemma process_article_skip a fname w :
  target show_dir a = Ok fname →
  exists_ (fs w) fname = true →
  body a w = (Ok tt, mkWorld (fs w) (log w ++ [EvLog Info (Skipping fname)])).
Proof.
  intros Ht Hex. unfold process_article. rewrite Ht.
  munfold. by rewrite Hex.
Qed.

Lemma process_in_order_all_exist l : ∀ w,
  (∀ a, In a l → ∃ fname, target show_dir a = Ok fname ∧ exists_ (fs w) fname = true) →
  ∃ skipped,
    Forall2 (λ a fname, target show_dir a = Ok fname) l skipped ∧
    run l w =
      (Ok tt, mkWorld (fs w) (log w ++ map (λ p, EvLog Info (Skipping p)) skipped)).
Proof.
  induction l as [|a l IH]; intros w Hall; simpl.
  - exists []. split; [constructor|]. unfold mret, M_ret. rewrite app_nil_r.
    by destruct w.
  - destruct (Hall a (or_introl eq_refl)) as (fname & Ht & Hex).
    set (w1 := mkWorld (fs w) (log w ++ [EvLog Info (Skipping fname)])).
    destruct (IH w1) as (skipped & Hsk & Hrun).
    { intros b Hb. apply Hall. by right. }
    exists (fname :: skipped). split; [by constructor|].
    rewrite (bind_ok _ _ _ _ _ (process_article_skip a fname w Ht Hex)).
    fold w1. rewrite Hrun. simpl. by rewrite <- app_assoc.
Qed.

End Loop.

Lemma save_show_loop_flat env no_tag no_cover episodes c w :
  save_show_loop env no_tag no_cover episodes c w =
  process_in_order env no_tag no_cover (parts (cat_title c))
                   (List.filter (in_filter episodes) (articles c)) w.
Proof. apply for_parts_filter. Qed.

Lemma filter_no_episodes (l : list Article) : List.filter (in_filter None) l = l.
Proof. induction l as [|a l IH]; simpl; [done|]. by rewrite IH. Qed.

Lemma in_filter_some s a : in_filter (Some s) a = true ↔ sort_number a ∈ s.
Proof.
  unfold in_filter, filtered_out. rewrite negb_involutive.
  apply bool_decide_eq_true.
Qed.

(** C5 (amended).  An article that passes the filter and whose media type
    is neither [audio] nor [video] makes the run raise
    [NotImplementedError] when the loop reaches it.  Nothing catches the
    error: the run ends there, in the world the earlier articles left, and
    no later article is processed. *)
Theorem unsupported_kind_aborts_run
        (env : Env) (no_tag no_cover : bool) (episodes : option (gset Z))
        (c : Catalog) (w w1 : World) (pre post : list Article) (a : Article) :
  articles c = pre ++ a :: post →
  in_filter episodes a = true →
  media_type_en a ≠ "audio"%string →
  media_type_en a ≠ "video"%string →
  process_in_order env no_tag no_cover (parts (cat_title c))
                   (List.filter (in_filter episodes) pre) w = (Ok tt, w1) →
  save_show_loop env no_tag no_cover episodes c w = (Raise NotImplementedError, w1).
Proof.
  intros Hc Hin Ha Hv Hpre.
  rewrite save_show_loop_flat, Hc, List.filter_app. simpl. rewrite Hin.
  apply process_in_order_unsupported; [done|].
  unfold target.
  apply String.eqb_neq in Ha, Hv. by rewrite Ha, Hv.
Qed.

Lemma unsupported_kind_aborts_run_witness :
  save_show_loop env_ok false false (Some {[1; 2]}) catalog_text_first world_show
  = (Raise NotImplementedError, world_show).
Proof.
  apply (unsupported_kind_aborts_run env_ok false false (Some {[1; 2]})
           catalog_text_first world_show world_show [] [ep_audio_two] ep_text).
  - reflexivity.
  - by vm_compute.
  - discriminate.
  - discriminate.
  - reflexivity.
Defined.

(** C5, as stated, fails: after the article of kind [text] the audio
    article that follows is not processed, although on its own it is
    fetched. *)
Lemma unsupported_kind_counterexample :
  save_show_loop env_ok false false None catalog_text_first world_show
  = (Raise NotImplementedError, world_show) ∧
  node (fs world_show) ["show"; "two.mp3"] = None ∧
  node (fs (save_show_loop env_ok false false None catalog_two world_show).2)
       ["show"; "two.mp3"] = Some (File (Bytes "<http://h/two.mp3>")).
Proof. split_and!; by vm_compute. Qed.

(** C7.  An article whose target exists is skipped: the file system is left
    as it is and the only event is the message of the skip.  When the
    target of every article that passes the filter exists, the whole run
    fetches nothing, writes nothing and ends normally. *)
Theorem existing_targets_are_skipped
        (env : Env) (no_tag no_cover : bool) (episodes : option (gset Z))
        (c : Catalog) (w : World) :
  (∀ a fname,
     target (parts (cat_title c)) a = Ok fname →
     exists_ (fs w) fname = true →
     process_article env no_tag no_cover (parts (cat_title c)) a w
     = (Ok tt, mkWorld (fs w) (log w ++ [EvLog Info (Skipping fname)]))) ∧
  ((∀ a, In a (articles c) → in_filter episodes a = true →
         ∃ fname, target (parts (cat_title c)) a = Ok fname ∧
                  exists_ (fs w) fname = true) →
   ∃ skipped,
     Forall2 (λ a fname, target (parts (cat_title c)) a = Ok fname)
             (List.filter (in_filter episodes) (articles c)) skipped ∧
     save_show_loop env no_tag no_cover episodes c w
     = (Ok tt, mkWorld (fs w) (log w ++ map (λ p, EvLog Info (Skipping p)) skipped))).
Proof.
  split.
  - intros a fname. apply process_article_skip.
  - intros Hall. rewrite save_show_loop_flat.
    apply process_in_order_all_exist.
    intros a Ha. apply List.filter_In in Ha as [Ha Hin]. by apply Hall.
Qed.

Lemma existing_targets_are_skipped_witness :
  ∃ skipped,
    Forall2 (λ a fname, target (parts (cat_title catalog_two)) a = Ok fname)
            (List.filter (in_filter None) (articles catalog_two)) skipped ∧
    save_show_loop env_ok false false None catalog_two world_done
    = (Ok tt, mkWorld (fs world_done)
                      (log world_done ++ map (λ p, EvLog Info (Skipping p)) skipped)).
Proof.
  apply (proj2 (existing_targets_are_skipped env_ok false false None catalog_two
                  world_done)).
  intros a [<-|[]] _. exists ["show"; "two.mp3"]. split; reflexivity.
Defined.

(** A second run over the same catalog finds the file of the first run and
    fetches nothing. *)
Example second_run_skips :
  let w1 := (save_show_loop env_ok false false None catalog_two world_show).2 in
  let w2 := (save_show_loop env_ok false false None catalog_two w1).2 in
  fs w2 = fs w1 ∧
  log w2 = log w1 ++ [EvLog Info (Skipping ["show"; "two.mp3"])].
Proof. split; by vm_compute. Qed.

(** ** Isolation of a failing video episode *)

Lemma unlink_missing_ok_not_dir p w :
  node (fs w) p ≠ Some Dir →
  unlink true p w = (Ok tt, mkWorld (delete p (fs w)) (log w)).
Proof.
  intros Hnd. unfold unlink.
  destruct (node (fs w) p) as [[c|]|] eqn:E; [done|done|].
  destruct p as [|x p]; [done|]. simpl in E. rewrite delete_id by done.
  by destruct w.
Qed.

Lemma save_video_failure env a fname q video_m3u8 w e w1 :
  select_best (media_files a) = Ok (q, video_m3u8) →
  download_m3u8 env video_m3u8 fname w = (Raise e, w1) →
  node (fs w1) fname ≠ Some Dir →
  save_video env a fname w
  = (Ok tt, mkWorld (delete fname (fs w1))
                    (log w1 ++ [EvLog Error (EpisodeFailed fname);
                                EvLog Error (Traceback e)])).
Proof.
  intros Hsel Hrun Hnd. unfold save_video. rewrite Hsel.
  unfold mbind, M_bind. rewrite (try_eq _ _ _ _ Hrun).
  unfold logger, emit. simpl.
  rewrite unlink_missing_ok_not_dir by done. simpl. by rewrite <- app_assoc.
Qed.

(** ** The merge and the cleanup of [download_m3u8] *)

Lemma node_delete f (p q : Path) : node (delete p f) q = None ∨ node (delete p f) q = node f q.
Proof.
  destruct (decide (p = q)) as [->|Hne].
  - destruct q as [|x q]; [by right|]. left. by apply node_delete_eq.
  - right. by apply node_delete_ne.
Qed.

Lemma node_delete_not_dir f (p q : Path) :
  node f q ≠ Some Dir → node (delete p f) q ≠ Some Dir.
Proof. intros H. destruct (node_delete f p q) as [->| ->]; done. Qed.

Lemma node_delete_all_not_dir ps : ∀ f (q : Path),
  node f q ≠ Some Dir → node (delete_all ps f) q ≠ Some Dir.
Proof.
  induction ps as [|p ps IH]; intros f q H; simpl; [done|].
  apply IH. by apply node_delete_not_dir.
Qed.

Lemma node_delete_all_none ps : ∀ f (q : Path),
  node f q = None → node (delete_all ps f) q = None.
Proof.
  induction ps as [|p ps IH]; intros f q H; simpl; [done|].
  apply IH. destruct (node_delete f p q) as [->| ->]; done.
Qed.

Lemma node_delete_all_in ps : ∀ f (q : Path),
  In q ps → q ≠ [] → node (delete_all ps f) q = None.
Proof.
  induction ps as [|p ps IH]; intros f q Hin Hq; simpl; [done|].
  destruct Hin as [->|Hin].
  - apply node_delete_all_none. by apply node_delete_eq.
  - by apply IH.
Qed.

Lemma unlink_all_not_dir ps : ∀ w,
  (∀ p, In p ps → node (fs w) p ≠ Some Dir) →
  unlink_all ps w = (Ok tt, mkWorld (delete_all ps (fs w)) (log w)).
Proof.
  induction ps as [|p ps IH]; intros w H; simpl.
  - unfold mret, M_ret. by destruct w.
  - rewrite (bind_ok _ _ _ _ _ (unlink_missing_ok_not_dir p w (H p (or_introl eq_refl)))).
    rewrite IH; [done|].
    intros q Hq. simpl. apply node_delete_not_dir. apply H. by right.
Qed.

Lemma read_all_Forall2 f entries : ∀ ds,
  read_all f entries = Some ds →
  Forall2 (λ p d, node f p = Some (File (Bytes d))) entries ds.
Proof.
  induction entries as [|p entries IH]; intros ds H; simpl in H.
  - inversion H. constructor.
  - destruct (node f p) as [[[d|]|]|] eqn:E; try done.
    destruct (read_all f entries) as [ds'|]; [|done].
    inversion H; subst. constructor; [done|]. by apply IH.
Qed.

Lemma filelist_ne folder : filelist folder ≠ [].
Proof.
  unfold filelist, joinpath. change (parts "filelist.txt") with ["filelist.txt"%string].
  by destruct folder.
Qed.

Section Merge.

Variable env : Env.
Variable fname : Path.
Variable ts_list : list string.

Let folder := scratch_folder fname.
Let entries := map (seg_path folder) ts_list.

Lemma merge_ok_inv w1 w2 :
  download_m3u8_merge env fname ts_list w1 = (Ok tt, w2) →
  ∃ ds, read_all (fs_at_merge fname ts_list w1) entries = Some ds ∧
        open_wb (fs_at_merge fname ts_list w1) fname = Ok tt ∧
        fs w2 = <[fname := File (Bytes (join_media ds))]> (fs_at_merge fname ts_list w1) ∧
        log w2 = log w1 ++ [EvLog Info (MergeStart fname); EvConcat entries fname;
                            EvLog Info (MergeDone fname)].
Proof.
  unfold download_m3u8_merge, ffmpeg_concat, write_file, fs_at_merge.
  fold folder. fold entries. munfold. simpl.
  destruct (open_wb (fs w1) (filelist folder)) as [[]|e] eqn:Eo; [|done]. simpl.
  rewrite node_insert_eq by apply filelist_ne. simpl.
  destruct (read_all _ entries) as [ds|] eqn:Er;
    [|by destruct (ffmpeg_fail_raises env fname
                     (mkWorld (<[filelist folder:=File (Listing entries)]> (fs w1))
                        ((log w1 ++ [EvLog Info (MergeStart fname)])
                           ++ [EvConcat entries fname]))) as (w' & -> & _)].
  destruct (ffmpeg_ok env);
    [|by destruct (ffmpeg_fail_raises env fname
                     (mkWorld (<[filelist folder:=File (Listing entries)]> (fs w1))
                        ((log w1 ++ [EvLog Info (MergeStart fname)])
                           ++ [EvConcat entries fname]))) as (w' & -> & _)].
  destruct (open_wb _ fname) as [[]|e] eqn:Ew; [|done]. simpl.
  intros [= <-]. exists ds. simpl. split_and!; try done.
  by rewrite <- !app_assoc.
Qed.

(** After a merge that went through, the segment files and the merge
    manifest are unlinked without an error. *)
Lemma cleanup_unlinks w1 w2 :
  download_m3u8_merge env fname ts_list w1 = (Ok tt, w2) →
  (unlink_all entries ≫= λ _, unlink true (filelist folder)) w2
  = (Ok tt, mkWorld (delete (filelist folder) (delete_all entries (fs w2))) (log w2)) ∧
  (∀ p, In p entries →
        node (delete (filelist folder) (delete_all entries (fs w2))) p = None) ∧
  node (delete (filelist folder) (delete_all entries (fs w2))) (filelist folder) = None ∧
  fname ≠ [] ∧
  node (delete (filelist folder) (delete_all entries (fs w2))) fname ≠ Some Dir.
Proof.
  intros Hm. destruct (merge_ok_inv w1 w2 Hm) as (ds & Hread & Hopen & Hfs & Hlog).
  pose proof (open_wb_ne _ _ Hopen) as Hne.
  assert (Hfile : ∀ p, p = fname ∨ p = filelist folder ∨ In p entries →
                       ∃ c, node (fs w2) p = Some (File c)).
  { intros p Hp. rewrite Hfs.
    destruct (decide (fname = p)) as [<-|Hnp].
    { eexists. by apply node_insert_eq. }
    rewrite node_insert_ne by done.
    destruct Hp as [->|[->|Hin]]; [done| |].
    - eexists. unfold fs_at_merge. apply node_insert_eq, filelist_ne.
    - apply read_all_Forall2 in Hread.
      apply list_elem_of_In, list_elem_of_lookup in Hin as [i Hi].
      destruct (Forall2_lookup_l _ _ _ _ _ Hread Hi) as (d & _ & Hd).
      eauto. }
  assert (Hnd : ∀ p, p = fname ∨ p = filelist folder ∨ In p entries →
                     node (fs w2) p ≠ Some Dir).
  { intros p Hp. destruct (Hfile p Hp) as [c ->]. done. }
  split_and!.
  - rewrite (bind_ok _ _ _ tt _ (unlink_all_not_dir entries w2 ltac:(auto))).
    rewrite unlink_missing_ok_not_dir; [done|].
    simpl. apply node_delete_all_not_dir. auto.
  - intros p Hp.
    assert (p ≠ []) by (destruct (Hfile p) as [c Hc]; [auto|by intros ->]).
    destruct (node_delete (delete_all entries (fs w2)) (filelist folder) p) as [->| ->];
      [done|].
    by apply node_delete_all_in.
  - apply node_delete_eq, filelist_ne.
  - done.
  - apply node_delete_not_dir, node_delete_all_not_dir. auto.
Qed.

End Merge.

(** ** What the operations do to directories *)

#[local] Instance same_dirs_preorder : PreOrder same_dirs.
Proof.
  split; [by intros f q|].
  intros f g h H1 H2 q. by rewrite H2, H1.
Qed.

#[local] Instance no_new_dir_preorder d : PreOrder (no_new_dir d).
Proof.
  split; [by intros f q|].
  intros f g h H1 H2 q Hq Hd. apply H1; [done|]. by apply H2.
Qed.

Lemma same_dirs_no_new_dir d f f' : same_dirs f f' → no_new_dir d f f'.
Proof. intros H q _. by rewrite H. Qed.

Section Keeps.

Context (R : relation (gmap Path Node)) `{!PreOrder R}.

Lemma keeps_ret {A} (a : A) : keeps R (mret a).
Proof. intros w. simpl. reflexivity. Qed.

Lemma keeps_raise {A} e : keeps R (@raise A e).
Proof. intros w. simpl. reflexivity. Qed.

Lemma keeps_bind {A B} (m : M A) (f : A → M B) :
  keeps R m → (∀ a, keeps R (f a)) → keeps R (m ≫= f).
Proof.
  intros Hm Hf w. unfold mbind, M_bind.
  specialize (Hm w). destruct (m w) as [[a|e] w1]; simpl in *; [|done].
  etrans; [exact Hm|]. apply Hf.
Qed.

Lemma keeps_try {A} (m : M A) : keeps R m → keeps R (try m).
Proof. intros Hm w. unfold try. specialize (Hm w). by destruct (m w). Qed.

Lemma keeps_emit e : keeps R (emit e).
Proof. intros w. simpl. reflexivity. Qed.

Lemma keeps_get_log : keeps R get_log.
Proof. intros w. simpl. reflexivity. Qed.

Lemma keeps_get_fs : keeps R get_fs.
Proof. intros w. simpl. reflexivity. Qed.

Lemma keeps_ffmpeg_fail env out :
  (∀ c, keeps R (write_file out c)) → keeps R (ffmpeg_fail env out).
Proof.
  intros H. unfold ffmpeg_fail.
  destruct (ffmpeg_partial env) as [part|]; [|apply keeps_raise].
  apply keeps_bind; [apply keeps_try, H|intros _; apply keeps_raise].
Qed.

End Keeps.

Lemma is_dir_insert_file f (p q : Path) c :
  is_dir f p = false → is_dir (<[p := File c]> f) q = is_dir f q.
Proof.
  intros Hp. unfold is_dir in *.
  destruct (decide (p = q)) as [<-|Hne].
  - destruct p as [|x p]; [done|]. simpl. rewrite lookup_insert_eq.
    simpl in Hp. by destruct (f !! (x :: p)) as [[|]|].
  - by rewrite node_insert_ne.
Qed.

Lemma is_dir_delete_file f (p q : Path) c :
  node f p = Some (File c) → is_dir (delete p f) q = is_dir f q.
Proof.
  intros Hp. unfold is_dir.
  destruct (decide (p = q)) as [<-|Hne].
  - rewrite Hp. destruct p as [|x p]; [done|]. by rewrite node_delete_eq.
  - by rewrite node_delete_ne.
Qed.

Lemma write_file_same_dirs p c : keeps same_dirs (write_file p c).
Proof.
  intros w q. unfold write_file, open_wb.
  destruct (is_dir (fs w) p) eqn:E; [done|].
  destruct (is_dir (fs w) (parent p)); [|done].
  simpl. by apply is_dir_insert_file.
Qed.

Lemma unlink_same_dirs b p : keeps same_dirs (unlink b p).
Proof.
  intros w q. unfold unlink.
  destruct (node (fs w) p) as [[c|]|] eqn:E; simpl; [|done|by destruct b].
  by apply (is_dir_delete_file _ _ _ c).
Qed.

Lemma urlretrieve_same_dirs env url fname : keeps same_dirs (urlretrieve env url fname).
Proof.
  unfold urlretrieve.
  apply (keeps_bind same_dirs); [apply (keeps_get_log same_dirs)|]. intros l.
  apply (keeps_bind same_dirs); [apply (keeps_emit same_dirs)|]. intros _.
  destruct (urlopen env url (attempts url l)) as [d|[part|]|[part|]];
    repeat first [ apply write_file_same_dirs
                 | apply (keeps_raise same_dirs)
                 | apply (keeps_bind same_dirs); [ |intros ?] ].
Qed.

Lemma retry_loop_same_dirs env url fname fuel : ∀ count,
  keeps same_dirs (retry_loop env fuel count url fname).
Proof.
  induction fuel as [|fuel IH]; intros count; simpl;
    (destruct (count <=? 5); [|apply (keeps_ret same_dirs)]).
  - apply (keeps_raise same_dirs).
  - apply (keeps_bind same_dirs); [apply (keeps_try same_dirs), urlretrieve_same_dirs|].
    intros [[]|e]; [apply (keeps_ret same_dirs)|].
    destruct e; try apply (keeps_raise same_dirs).
    apply (keeps_bind same_dirs); [apply (keeps_emit same_dirs)|]. intros _. apply IH.
Qed.

Lemma download_same_dirs env url fname : keeps same_dirs (download env url fname).
Proof.
  unfold download, download_fuel.
  apply (keeps_bind same_dirs); [apply (keeps_try same_dirs), urlretrieve_same_dirs|].
  intros [[]|e]; [apply (keeps_ret same_dirs)|].
  destruct e; try apply (keeps_raise same_dirs).
  apply (keeps_bind same_dirs); [apply retry_loop_same_dirs|]. intros count.
  destruct (5 <? count); [|apply (keeps_ret same_dirs)].
  apply (keeps_bind same_dirs); [apply (keeps_emit same_dirs)|]. intros _. apply unlink_same_dirs.
Qed.

Lemma executor_map_same_dirs env tasks order :
  keeps same_dirs (executor_map env order tasks).
Proof.
  induction order as [|i order IH]; simpl; [apply (keeps_ret same_dirs)|].
  destruct (tasks !! i) as [[url fname]|]; [|done].
  apply (keeps_bind same_dirs); [ |by intros _].
  apply (keeps_try same_dirs), download_same_dirs.
Qed.

Lemma mkdir_exist_ok_dir p w w' :
  mkdir_exist_ok p w = (Ok tt, w') → is_dir (fs w') p = true ∧ log w' = log w.
Proof.
  unfold mkdir_exist_ok.
  destruct (is_dir (fs w) p) eqn:E1; [by intros [= <-]|].
  destruct (exists_ (fs w) p); [done|].
  destruct (is_dir (fs w) (parent p)); [|done].
  intros [= <-]. simpl. split; [|done].
  unfold is_dir. rewrite node_insert_eq; [done|]. by intros ->.
Qed.

Lemma mkdir_exist_ok_no_new_dir p : keeps (no_new_dir p) (mkdir_exist_ok p).
Proof.
  intros w q Hq. unfold mkdir_exist_ok.
  destruct (is_dir (fs w) p); [done|].
  destruct (exists_ (fs w) p); [done|].
  destruct (is_dir (fs w) (parent p)); [|done].
  simpl. unfold is_dir. by rewrite node_insert_ne.
Qed.

Lemma rmdir_no_new_dir d p : keeps (no_new_dir d) (rmdir p).
Proof.
  intros w q Hq. unfold rmdir.
  destruct p as [|x p]; [done|].
  destruct (fs w !! (x :: p)) as [[c|]|]; try done.
  destruct (dir_empty (fs w) (x :: p)); [|done].
  simpl. unfold is_dir.
  destruct (node_delete (fs w) (x :: p) q) as [->| ->]; done.
Qed.

(** What a fetch phase that went through tells: the playlist was loaded and
    the scratch directory is there. *)
Lemma fetch_ok_inv env url fname w ts_list w1 :
  download_m3u8_fetch env url fname w = (Ok ts_list, w1) →
  (∃ playlist, m3u8_load env url = Some playlist ∧
               ts_list = map (urljoin env url) playlist) ∧
  is_dir (fs w1) (scratch_folder fname) = true.
Proof.
  unfold download_m3u8_fetch, load_playlist. munfold. simpl.
  destruct (m3u8_load env url) as [playlist|]; [|done].
  destruct (mkdir_exist_ok _ _) as [[[]|e] w0] eqn:Emk; [|done].
  apply mkdir_exist_ok_dir in Emk as [Hdir _].
  simpl.
  match goal with |- context [executor_map env ?o ?t ?w] =>
    pose proof (executor_map_same_dirs env t o w (scratch_folder fname)) as Hsame;
    destruct (executor_map env o t w) as [[[]|e] w2]
  end; [|done].
  simpl in *. intros [= <- <-]. simpl. split; [eauto|].
  by rewrite Hsame.
Qed.

Lemma unlink_all_same_dirs ps : keeps same_dirs (unlink_all ps).
Proof.
  induction ps as [|p ps IH]; simpl; [apply (keeps_ret same_dirs)|].
  apply (keeps_bind same_dirs); [apply unlink_same_dirs|by intros _].
Qed.

Lemma ffmpeg_concat_same_dirs env listfile out :
  keeps same_dirs (ffmpeg_concat env listfile out).
Proof.
  unfold ffmpeg_concat.
  apply (keeps_bind same_dirs); [apply (keeps_get_fs same_dirs)|]. intros f.
  destruct (node f listfile) as [[[d|entries]|]|]; try apply (keeps_raise same_dirs).
  apply (keeps_bind same_dirs); [apply (keeps_emit same_dirs)|]. intros _.
  destruct (read_all f entries) as [ds|];
    [|apply (keeps_ffmpeg_fail same_dirs); intros c; apply write_file_same_dirs].
  destruct (ffmpeg_ok env);
    [|apply (keeps_ffmpeg_fail same_dirs); intros c; apply write_file_same_dirs].
  apply (keeps_bind same_dirs); [apply (keeps_try same_dirs), write_file_same_dirs|].
  intros [[]|e]; [apply (keeps_ret same_dirs)|apply (keeps_raise same_dirs)].
Qed.

Lemma download_m3u8_merge_same_dirs env fname ts_list :
  keeps same_dirs (download_m3u8_merge env fname ts_list).
Proof.
  unfold download_m3u8_merge.
  apply (keeps_bind same_dirs); [apply (keeps_emit same_dirs)|]. intros _.
  apply (keeps_bind same_dirs); [apply write_file_same_dirs|]. intros _.
  apply (keeps_bind same_dirs); [apply ffmpeg_concat_same_dirs|]. intros _.
  apply (keeps_emit same_dirs).
Qed.

(** C9 (amended).  After a segmented download that went through the merge,
    every segment file and the merge manifest are unlinked and the scratch
    directory is removed with [rmdir].  When [rmdir] succeeds the episode is
    reported as done.  When [rmdir] raises, as it does for a scratch
    directory that still has an entry, the exception reaches the handler of
    the loop: the episode is logged as failed, at error level, and the
    merged output file is deleted; the loop goes on. *)
Theorem cleanup_failure_discards_output
        (env : Env) (a : Article) (fname : Path) (q : Z) (url : string)
        (w w1 w2 : World) (ts_list : list string) :
  select_best (media_files a) = Ok (q, url) →
  download_m3u8_fetch env url fname w = (Ok ts_list, w1) →
  download_m3u8_merge env fname ts_list w1 = (Ok tt, w2) →
  let folder := scratch_folder fname in
  let cleaned :=
    mkWorld (delete (filelist folder)
                    (delete_all (map (seg_path folder) ts_list) (fs w2)))
            (log w2) in
  (∀ ts, In ts ts_list → node (fs cleaned) (seg_path folder ts) = None) ∧
  node (fs cleaned) (filelist folder) = None ∧
  is_dir (fs cleaned) folder = true ∧
  (∀ w3, rmdir folder cleaned = (Ok tt, w3) →
         node (fs w3) folder = None ∧
         download_m3u8 env url fname w = (Ok tt, w3) ∧
         save_video env a fname w
         = (Ok tt, mkWorld (fs w3) (log w2 ++ [EvLog Info (Done fname)]))) ∧
  (∀ e w3, rmdir folder cleaned = (Raise e, w3) →
           download_m3u8 env url fname w = (Raise e, cleaned) ∧
           save_video env a fname w
           = (Ok tt, mkWorld (delete fname (fs cleaned))
                             (log w2 ++ [EvLog Error (EpisodeFailed fname);
                                         EvLog Error (Traceback e)])) ∧
           node (delete fname (fs cleaned)) fname = None) ∧
  (folder ≠ [] → dir_empty (fs cleaned) folder = false →
   rmdir folder cleaned = (Raise DirectoryNotEmpty, cleaned)).
Proof.
  intros Hsel Hfetch Hmerge folder cleaned.
  destruct (cleanup_unlinks env fname ts_list w1 w2 Hmerge)
    as (Hunl & Hsegs & Hlist & Hne & Hnd).
  fold folder in Hunl, Hsegs, Hlist, Hnd.
  destruct (fetch_ok_inv env url fname w ts_list w1 Hfetch) as [_ Hdir1].
  assert (Hdir : is_dir (fs cleaned) folder = true).
  { pose proof (download_m3u8_merge_same_dirs env fname ts_list w1 folder) as Hk1.
    rewrite Hmerge in Hk1. simpl in Hk1.
    pose proof (keeps_bind same_dirs _ _
                  (unlink_all_same_dirs (map (seg_path folder) ts_list))
                  (λ _, unlink_same_dirs true (filelist folder)) w2 folder) as Hk2.
    rewrite Hunl in Hk2. simpl in Hk2. unfold cleaned. simpl.
    by rewrite Hk2, Hk1. }
  assert (Hrun : download_m3u8 env url fname w = rmdir folder cleaned).
  { unfold download_m3u8. rewrite (bind_ok _ _ _ _ _ Hfetch).
    rewrite (bind_ok _ _ _ _ _ Hmerge). unfold download_m3u8_cleanup.
    fold folder. revert Hunl. unfold mbind, M_bind.
    destruct (unlink_all (map (seg_path folder) ts_list) w2) as [[[]|e] w3]; [|done].
    by intros ->. }
  split_and!.
  - intros ts Hts. apply Hsegs. by apply in_map.
  - done.
  - done.
  - intros w3 Hrm. split_and!.
    + revert Hrm. unfold rmdir. destruct folder as [|x p]; [done|].
      destruct (fs cleaned !! (x :: p)) as [[c|]|]; try done.
      destruct (dir_empty (fs cleaned) (x :: p)); [|done].
      intros [= <-]. simpl. apply lookup_delete_eq.
    + by rewrite Hrun.
    + unfold save_video. rewrite Hsel. unfold mbind, M_bind.
      rewrite (try_eq _ _ _ _ (eq_trans Hrun Hrm)). unfold logger, emit.
      do 2 f_equal. f_equal. revert Hrm. unfold rmdir.
      destruct folder as [|x p]; [done|].
      destruct (fs cleaned !! (x :: p)) as [[c|]|]; try done.
      destruct (dir_empty (fs cleaned) (x :: p)); [|done]. by intros [= <-].
  - intros e w3 Hrm.
    assert (w3 = cleaned) as ->.
    { revert Hrm. unfold rmdir. destruct folder as [|x p]; [by intros [= _ <-]|].
      destruct (fs cleaned !! (x :: p)) as [[c|]|]; try (by intros [= _ <-]).
      destruct (dir_empty (fs cleaned) (x :: p)); [done|]. by intros [= _ <-]. }
    split_and!.
    + by rewrite Hrun.
    + by apply (save_video_failure env a fname q url w e cleaned); [|rewrite Hrun|].
    + by apply node_delete_eq.
  - intros Hf Hempty. unfold rmdir. destruct folder as [|x p] eqn:Ef; [done|].
    unfold is_dir in Hdir.
    change (node (fs cleaned) (x :: p)) with (fs cleaned !! (x :: p)) in Hdir.
    destruct (fs cleaned !! (x :: p)) as [[c|]|]; try done.
    by rewrite Hempty.
Qed.

Lemma cleanup_failure_discards_output_witness :
  (save_video env_video ep_video_one ["show"; "one.mkv"] world_leftover).1 = Ok tt ∧
  node (fs (save_video env_video ep_video_one ["show"; "one.mkv"] world_leftover).2)
       ["show"; "one.mkv"] = None.
Proof.
  pose (w1 := (download_m3u8_fetch env_video "http://h/one.m3u8" ["show"; "one.mkv"]
                 world_leftover).2).
  pose (w2 := (download_m3u8_merge env_video ["show"; "one.mkv"]
                 ["http://h/s0.ts"; "http://h/s1.ts"]%string w1).2).
  destruct (cleanup_failure_discards_output env_video ep_video_one ["show"; "one.mkv"]
              720 "http://h/one.m3u8" world_leftover w1 w2
              ["http://h/s0.ts"; "http://h/s1.ts"]%string
              eq_refl ltac:(by vm_compute) ltac:(by vm_compute))
    as (_ & _ & _ & _ & Hfail & Hne).
  destruct (Hfail DirectoryNotEmpty _ (Hne ltac:(discriminate) ltac:(by vm_compute)))
    as (_ & Hsave & Hgone).
  rewrite Hsave. split; [done | exact Hgone].
Defined.

(** C9, as stated, fails: the segments are fetched and merged, but the
    scratch directory holds a file of an earlier run, [rmdir] raises, and
    the loop logs the episode as failed and deletes the merged file. *)
Lemma cleanup_failure_counterexample :
  (save_show_loop env_video false false None catalog_video_only world_leftover).1
  = Ok tt ∧
  log (save_show_loop env_video false false None catalog_video_only world_leftover).2
  = [EvLog Info (Starting ["show"; "one.mkv"]);
     EvLoad "http://h/one.m3u8"; EvLog Info (TsStart ["show"; "one"] 2);
     EvFetch "http://h/s1.ts" ["show"; "one"; "s1.ts"];
     EvFetch "http://h/s0.ts" ["show"; "one"; "s0.ts"];
     EvLog Info (TsDone ["show"; "one"]);
     EvLog Info (MergeStart ["show"; "one.mkv"]);
     EvConcat [["show"; "one"; "s0.ts"]; ["show"; "one"; "s1.ts"]] ["show"; "one.mkv"];
     EvLog Info (MergeDone ["show"; "one.mkv"]);
     EvLog Error (EpisodeFailed ["show"; "one.mkv"]);
     EvLog Error (Traceback DirectoryNotEmpty)] ∧
  node (fs (save_show_loop env_video false false None catalog_video_only
              world_leftover).2) ["show"; "one.mkv"] = None.
Proof. split_and!; by vm_compute. Qed.

(** Without the leftover the same episode ends with its merged file. *)
Example video_episode_merged :
  node (fs (save_show_loop env_video false false None catalog_video_only world_show).2)
       ["show"; "one.mkv"]
  = Some (File (Bytes "<http://h/s0.ts><http://h/s1.ts>")) ∧
  node (fs (save_show_loop env_video false false None catalog_video_only world_show).2)
       ["show"; "one"] = None.
Proof. split; by vm_compute. Qed.

(** ** The order of the merge *)

Lemma Forall2_same_key {A B} (P : A → B → Prop) (l : list A) ds i j x di dj :
  (∀ a b b', P a b → P a b' → b = b') →
  Forall2 P l ds → l !! i = Some x → l !! j = Some x →
  ds !! i = Some di → ds !! j = Some dj → di = dj.
Proof.
  intros Hfun HF Hi Hj Hdi Hdj.
  destruct (Forall2_lookup_l _ _ _ _ _ HF Hi) as (d1 & Hd1 & HP1).
  destruct (Forall2_lookup_l _ _ _ _ _ HF Hj) as (d2 & Hd2 & HP2).
  rewrite Hdi in Hd1. rewrite Hdj in Hd2. inversion Hd1; inversion Hd2; subst.
  by apply (Hfun x).
Qed.

(** What a merge that went through tells of the manifest: it lists the
    scratch paths of the segments in the order of the playlist, the merge
    tool is run on exactly that list, and the output is the media of the
    listed files in that order. *)
Lemma merge_lists_the_playlist
        (env : Env) (url : string) (fname : Path) (w w1 w2 : World)
        (ts_list : list string) :
  download_m3u8_fetch env url fname w = (Ok ts_list, w1) →
  download_m3u8_merge env fname ts_list w1 = (Ok tt, w2) →
  let folder := scratch_folder fname in
  ∃ playlist ds,
    m3u8_load env url = Some playlist ∧
    ts_list = map (urljoin env url) playlist ∧
    node (fs_at_merge fname ts_list w1) (filelist folder)
    = Some (File (Listing (map (seg_path folder) ts_list))) ∧
    In (EvConcat (map (seg_path folder) ts_list) fname) (log w2) ∧
    Forall2 (λ ts d, node (fs_at_merge fname ts_list w1) (seg_path folder ts)
                     = Some (File (Bytes d))) ts_list ds ∧
    node (fs w2) fname = Some (File (Bytes (join_media ds))).
Proof.
  intros Hfetch Hmerge folder.
  destruct (fetch_ok_inv env url fname w ts_list w1 Hfetch) as [(playlist & Hload & Hts) _].
  destruct (merge_ok_inv env fname ts_list w1 w2 Hmerge) as (ds & Hread & Hopen & Hfs & Hlog).
  exists playlist, ds. split_and!; try done.
  - unfold fs_at_merge. apply node_insert_eq, filelist_ne.
  - rewrite Hlog. apply in_or_app. right. simpl. auto.
  - apply read_all_Forall2 in Hread. by apply Forall2_fmap_l in Hread.
  - rewrite Hfs. apply node_insert_eq. by eapply open_wb_ne.
Qed.

(** The pool of [env_video] finishes the second segment first; the merged
    file has the segments in the order of the playlist all the same. *)
Example merged_in_playlist_order :
  pool_order env_video "http://h/one.m3u8" = [1; 0]%nat ∧
  (download_m3u8 env_video "http://h/one.m3u8" ["show"; "one.mkv"] world_show).1 = Ok tt ∧
  node (fs (download_m3u8 env_video "http://h/one.m3u8" ["show"; "one.mkv"] world_show).2)
       ["show"; "one.mkv"]
  = Some (File (Bytes "<http://h/s0.ts><http://h/s1.ts>")).
Proof. split_and!; by vm_compute. Qed.

(** The later fetch overwrites the earlier: the merged file holds the
    segment that finished last, twice. *)
Example same_basename_last_fetch_wins :
  node (fs (download_m3u8 (env_clash [0; 1]%nat) "m" ["show"; "one.mkv"] world_show).2)
       ["show"; "one.mkv"]
  = Some (File (Bytes "<http://h/b/seg.ts><http://h/b/seg.ts>")) ∧
  node (fs (download_m3u8 (env_clash [1; 0]%nat) "m" ["show"; "one.mkv"] world_show).2)
       ["show"; "one.mkv"]
  = Some (File (Bytes "<http://h/a/seg.ts><http://h/a/seg.ts>")).
Proof. split; by vm_compute. Qed.

(** ** The scratch directory of a video episode *)

Lemma components_no_slash s : has_slash s = false → components s = [s].
Proof.
  induction s as [|c s IH]; simpl; [done|].
  destruct (Ascii.eqb c "/"); [done|]. simpl. intros H. by rewrite IH.
Qed.

Lemma has_slash_append s t : has_slash (s +:+ t) = has_slash s || has_slash t.
Proof. induction s as [|c s IH]; simpl; [done|]. by rewrite IH, orb_assoc. Qed.

Lemma replace_slash_no_slash s : has_slash (replace_slash s) = false.
Proof.
  induction s as [|c s IH]; simpl; [done|]. rewrite IH, orb_false_r.
  destruct (Ascii.eqb c "/") eqn:E; [done|exact E].
Qed.

Lemma length_append s t :
  String.length (s +:+ t) = (String.length s + String.length t)%nat.
Proof. induction s as [|c s IH]; simpl; [done|]. by rewrite IH. Qed.

Lemma rfind_dot_mkv t : rfind_dot (t +:+ ".mkv") = Some (String.length t).
Proof. induction t as [|c t IH]; simpl; [done|]. by rewrite IH. Qed.

Lemma substring_append t e : substring 0 (String.length t) (t +:+ e) = t.
Proof.
  induction t as [|c t IH]; simpl; [by destruct e|]. by rewrite IH.
Qed.

Lemma stem_mkv t : t ≠ ""%string → stem (t +:+ ".mkv") = t.
Proof.
  intros Ht. unfold stem. rewrite rfind_dot_mkv, length_append. simpl.
  assert (0 < String.length t)%nat by (destruct t; [done|simpl; lia]).
  replace (Nat.ltb 0 (String.length t)) with true by (symmetry; apply Nat.ltb_lt; lia).
  replace (Nat.ltb (String.length t) (String.length t + 4 - 1)) with true
    by (symmetry; apply Nat.ltb_lt; lia).
  simpl. apply substring_append.
Qed.

Lemma parts_mkv t : has_slash t = false → parts (t +:+ ".mkv") = [t +:+ ".mkv"].
Proof.
  intros Ht. unfold parts.
  rewrite components_no_slash by (by rewrite has_slash_append, Ht).
  simpl. unfold keep_component.
  assert (H1 : t +:+ ".mkv" ≠ ""%string).
  { intros H. apply (f_equal String.length) in H. rewrite length_append in H.
    simpl in H. lia. }
  assert (H2 : t +:+ ".mkv" ≠ "."%string).
  { intros H. apply (f_equal String.length) in H. rewrite length_append in H.
    simpl in H. lia. }
  apply String.eqb_neq in H1, H2. by rewrite H1, H2.
Qed.

Lemma parts_no_slash t : has_slash t = false → parts t = [t] ∨ parts t = [].
Proof.
  intros Ht. unfold parts. rewrite components_no_slash by done. simpl.
  destruct (keep_component t); auto.
Qed.

(** The scratch directory of the target of a video article with a title is
    not the target itself. *)
Lemma video_target_scratch_ne show_dir a fname :
  title a ≠ ""%string →
  media_type_en a = "video"%string →
  target show_dir a = Ok fname →
  scratch_folder fname ≠ fname.
Proof.
  intros Ht Hv. unfold target. rewrite Hv. simpl. intros [= <-].
  set (t := replace_slash (title a)).
  assert (Hns : has_slash t = false) by apply replace_slash_no_slash.
  assert (Hne : t ≠ ""%string).
  { unfold t. destruct (title a); [done|]. done. }
  unfold scratch_folder, joinpath, parent, name.
  rewrite (parts_mkv t Hns), removelast_last, last_last, (stem_mkv t Hne).
  destruct (parts_no_slash t Hns) as [-> | ->].
  - intros H. apply app_inv_head in H. inversion H as [H'].
    apply (f_equal String.length) in H'. rewrite length_append in H'.
    simpl in H'. lia.
  - intros H. apply app_inv_head in H. done.
Qed.

Lemma keeps_weaken {A} d (m : M A) : keeps same_dirs m → keeps (no_new_dir d) m.
Proof. intros H w. apply same_dirs_no_new_dir, H. Qed.

(** [download_m3u8] makes no directory but its scratch directory. *)
Lemma download_m3u8_no_new_dir env url fname :
  keeps (no_new_dir (scratch_folder fname)) (download_m3u8 env url fname).
Proof.
  set (d := scratch_folder fname).
  unfold download_m3u8, download_m3u8_fetch, download_m3u8_cleanup, load_playlist.
  fold d.
  apply (keeps_bind (no_new_dir d)).
  - apply (keeps_bind (no_new_dir d)).
    + apply (keeps_bind (no_new_dir d)); [apply (keeps_emit (no_new_dir d))|].
      intros _. destruct (m3u8_load env url);
        [apply (keeps_ret (no_new_dir d))|apply (keeps_raise (no_new_dir d))].
    + intros playlist.
      apply (keeps_bind (no_new_dir d)); [apply mkdir_exist_ok_no_new_dir|]. intros _.
      apply (keeps_bind (no_new_dir d)); [apply (keeps_emit (no_new_dir d))|]. intros _.
      apply (keeps_bind (no_new_dir d));
        [apply keeps_weaken, executor_map_same_dirs|]. intros _.
      apply (keeps_bind (no_new_dir d)); [apply (keeps_emit (no_new_dir d))|]. intros _.
      apply (keeps_ret (no_new_dir d)).
  - intros ts_list.
    apply (keeps_bind (no_new_dir d));
      [apply keeps_weaken, download_m3u8_merge_same_dirs|]. intros _.
    apply (keeps_bind (no_new_dir d));
      [apply keeps_weaken, unlink_all_same_dirs|]. intros _.
    apply (keeps_bind (no_new_dir d));
      [apply keeps_weaken, unlink_same_dirs|]. intros _.
    apply rmdir_no_new_dir.
Qed.

(** X13.  When the segmented download of a video episode raises
    (its manifest cannot be loaded, a segment is missing at the merge, the
    merge tool fails, the cleanup fails), the loop logs the failure,
    removes the file of the episode if there is one, and goes on: the run
    is the processing of the remaining articles, in order, from the world
    the handler leaves.  The title of the episode is not empty, so that its
    scratch directory is not the target itself. *)
Theorem video_failure_does_not_stop_the_run
        (env : Env) (no_tag no_cover : bool) (episodes : option (gset Z))
        (c : Catalog) (w w0 w1 : World) (pre post : list Article) (a : Article)
        (fname : Path) (q : Z) (video_m3u8 : string) (e : Exn) :
  articles c = pre ++ a :: post →
  in_filter episodes a = true →
  process_in_order env no_tag no_cover (parts (cat_title c))
                   (List.filter (in_filter episodes) pre) w = (Ok tt, w0) →
  media_type_en a = "video"%string →
  title a ≠ ""%string →
  target (parts (cat_title c)) a = Ok fname →
  exists_ (fs w0) fname = false →
  select_best (media_files a) = Ok (q, video_m3u8) →
  download_m3u8 env video_m3u8 fname
                (mkWorld (fs w0) (log w0 ++ [EvLog Info (Starting fname)]))
  = (Raise e, w1) →
  save_show_loop env no_tag no_cover episodes c w =
  process_in_order env no_tag no_cover (parts (cat_title c))
                   (List.filter (in_filter episodes) post)
                   (mkWorld (delete fname (fs w1))
                            (log w1 ++ [EvLog Error (EpisodeFailed fname);
                                        EvLog Error (Traceback e)])).
Proof.
  intros Hc Hin Hpre Hv Htitle Ht Hex Hsel Hrun.
  assert (Hnd : node (fs w1) fname ≠ Some Dir).
  { intros Hd.
    pose proof (download_m3u8_no_new_dir env video_m3u8 fname
                  (mkWorld (fs w0) (log w0 ++ [EvLog Info (Starting fname)])) fname) as Hk.
    rewrite Hrun in Hk. simpl in Hk.
    assert (Hne : fname ≠ scratch_folder fname).
    { intros Heq. by apply (video_target_scratch_ne (parts (cat_title c)) a fname). }
    specialize (Hk Hne). unfold is_dir in Hk. rewrite Hd in Hk.
    specialize (Hk eq_refl). unfold exists_ in Hex.
    by destruct (node (fs w0) fname) as [[|]|]. }
  rewrite save_show_loop_flat, Hc, List.filter_app. simpl. rewrite Hin.
  rewrite process_in_order_app, (bind_ok _ _ _ _ _ Hpre). simpl.
  erewrite bind_ok; [reflexivity|].
  unfold process_article. rewrite Ht. munfold. rewrite Hex. simpl.
  rewrite Hv. simpl.
  by apply (save_video_failure env a fname q video_m3u8 _ e w1).
Qed.

Lemma video_failure_does_not_stop_the_run_witness :
  save_show_loop env_ok false false None catalog_video_first world_show =
  process_in_order env_ok false false ["show"] [ep_audio_two]
    (mkWorld (fs world_show)
             [EvLog Info (Starting ["show"; "one.mkv"]); EvLoad "http://h/one.m3u8";
              EvLog Error (EpisodeFailed ["show"; "one.mkv"]);
              EvLog Error (Traceback ManifestError)]).
Proof.
  exact (video_failure_does_not_stop_the_run env_ok false false None
           catalog_video_first world_show world_show
           (mkWorld (fs world_show)
                    [EvLog Info (Starting ["show"; "one.mkv"]); EvLoad "http://h/one.m3u8"])
           [] [ep_audio_two] ep_video_one ["show"; "one.mkv"] 720 "http://h/one.m3u8"
           ManifestError
           eq_refl eq_refl eq_refl eq_refl ltac:(discriminate) eq_refl eq_refl eq_refl
           eq_refl).
Defined.

(** After the failed video episode the audio episode is fetched. *)
Example video_failure_then_audio :
  (save_show_loop env_ok false false None catalog_video_first world_show).1 = Ok tt ∧
  node (fs (save_show_loop env_ok false false None catalog_video_first world_show).2)
       ["show"; "two.mp3"] = Some (File (Bytes "<http://h/two.mp3>")) ∧
  node (fs (save_show_loop env_ok false false None catalog_video_first world_show).2)
       ["show"; "one.mkv"] = None.
Proof. split_and!; by vm_compute. Qed.

(** C4 (code bug).  A show of two audio episodes, the first of them on a
    host that refuses the connection, in an empty show directory: the
    failure of episode 1 is not caught by the loop.  The run ends with that
    exception right after the fetch attempt, nothing is logged of the
    failure, and episode 2 is never processed: its file is not there and
    the log does not mention it, while a run on episode 2 alone fetches it.
    The video branch of the same loop catches every exception of its
    download, logs it and goes on to the next episode. *)
Theorem audio_failure_aborts_run :
  save_show_loop env_bad_host true true None catalog_bad_first world_show
  = (Raise TransportError,
     mkWorld (fs world_show)
             [EvLog Info (Starting ["show"; "one.mp3"]);
              EvFetch "http://bad/one.mp3" ["show"; "one.mp3"]]) ∧
  node (fs (save_show_loop env_bad_host true true None catalog_bad_first world_show).2)
       ["show"; "two.mp3"] = None ∧
  (save_show_loop env_bad_host true true None catalog_two world_show).1 = Ok tt ∧
  node (fs (save_show_loop env_bad_host true true None catalog_two world_show).2)
       ["show"; "two.mp3"] = Some (File (Bytes "<http://h/two.mp3>")).
Proof. split_and!; by vm_compute. Qed.

(** * Further properties of the code *)

(** ** What the operations add to the log *)

Section Appends.

Variable P : Event → Prop.

Lemma appends_ret {A} (a : A) : appends P (mret a).
Proof. intros w. exists []. simpl. by rewrite app_nil_r. Qed.

Lemma appends_raise {A} e : appends P (@raise A e).
Proof. intros w. exists []. simpl. by rewrite app_nil_r. Qed.

Lemma appends_emit e : P e → appends P (emit e).
Proof. intros He w. exists [e]. simpl. split; [done|]. by constructor. Qed.

Lemma appends_get_fs : appends P get_fs.
Proof. intros w. exists []. simpl. by rewrite app_nil_r. Qed.

Lemma appends_get_log : appends P get_log.
Proof. intros w. exists []. simpl. by rewrite app_nil_r. Qed.

Lemma appends_bind {A B} (m : M A) (f : A → M B) :
  appends P m → (∀ a, appends P (f a)) → appends P (m ≫= f).
Proof.
  intros Hm Hf w. unfold mbind, M_bind.
  destruct (Hm w) as (evs & Hlog & HP).
  destruct (m w) as [[a|e] w1]; simpl in *; [|by exists evs].
  destruct (Hf a w1) as (evs' & Hlog' & HP').
  exists (evs ++ evs'). rewrite Hlog', Hlog, app_assoc. split; [done|].
  by apply Forall_app.
Qed.

Lemma appends_try {A} (m : M A) : appends P m → appends P (try m).
Proof.
  intros Hm w. unfold try. destruct (Hm w) as (evs & Hlog & HP).
  destruct (m w) as [r w1]. by exists evs.
Qed.

Lemma appends_silent {A} (m : M A) : (∀ w, log (m w).2 = log w) → appends P m.
Proof. intros H w. exists []. rewrite H, app_nil_r. by split. Qed.

End Appends.

Lemma appends_weaken (P Q : Event → Prop) {A} (m : M A) :
  (∀ e, P e → Q e) → appends P m → appends Q m.
Proof.
  intros HPQ Hm w. destruct (Hm w) as (evs & Hlog & HP).
  exists evs. split; [done|]. eapply Forall_impl; eauto.
Qed.

Lemma write_file_log p c w : log (write_file p c w).2 = log w.
Proof. unfold write_file. by destruct (open_wb (fs w) p). Qed.

Lemma mkdir_exist_ok_log p w : log (mkdir_exist_ok p w).2 = log w.
Proof.
  unfold mkdir_exist_ok. destruct (is_dir (fs w) p); [done|].
  destruct (exists_ (fs w) p); [done|]. by destruct (is_dir (fs w) (parent p)).
Qed.

Lemma rmdir_log p w : log (rmdir p w).2 = log w.
Proof.
  unfold rmdir. destruct p as [|x p]; [done|].
  destruct (fs w !! (x :: p)) as [[c|]|]; try done.
  by destruct (dir_empty (fs w) (x :: p)).
Qed.

Lemma urlretrieve_appends env url fname :
  appends (download_event url fname) (urlretrieve env url fname).
Proof.
  unfold urlretrieve.
  apply appends_bind; [apply appends_get_log|]. intros l.
  apply appends_bind; [apply appends_emit; by left|]. intros _.
  destruct (urlopen env url (attempts url l)) as [d|[part|]|[part|]];
    repeat first [ apply appends_raise
                 | apply appends_silent, write_file_log
                 | apply appends_bind; [|intros ?] ].
Qed.

Lemma retry_loop_appends env url fname fuel : ∀ count,
  appends (download_event url fname) (retry_loop env fuel count url fname).
Proof.
  induction fuel as [|fuel IH]; intros count; simpl;
    (destruct (count <=? 5); [|apply appends_ret]).
  - apply appends_raise.
  - apply appends_bind; [apply appends_try, urlretrieve_appends|].
    intros [[]|e]; [apply appends_ret|].
    destruct e; try apply appends_raise.
    apply appends_bind; [apply appends_emit; right; eauto|]. intros _. apply IH.
Qed.

Lemma download_appends env url fname :
  appends (download_event url fname) (download env url fname).
Proof.
  unfold download, download_fuel.
  apply appends_bind; [apply appends_try, urlretrieve_appends|].
  intros [[]|e]; [apply appends_ret|].
  destruct e; try apply appends_raise.
  apply appends_bind; [apply retry_loop_appends|]. intros count.
  destruct (5 <? count); [|apply appends_ret].
  apply appends_bind; [apply appends_emit; right; eauto|]. intros _.
  apply appends_silent, unlink_log.
Qed.

(** ** The bound on the attempts of [download] *)

Lemma urlretrieve_log env url fname w :
  log (urlretrieve env url fname w).2 = log w ++ [EvFetch url fname].
Proof.
  unfold urlretrieve, write_file. munfold. simpl.
  destruct (urlopen env url (attempts url (log w))) as [d|[part|]|[part|]]; simpl;
    try done;
    by destruct (open_wb _ _).
Qed.

Lemma retry_loop_attempts_bound env url fname fuel : ∀ count w,
  1 ≤ count →
  (attempts url (log (retry_loop env fuel count url fname w).2)
   ≤ attempts url (log w) + Z.to_nat (6 - count))%nat.
Proof.
  induction fuel as [|fuel IH]; intros count w Hc; simpl.
  - destruct (count <=? 5); simpl; lia.
  - destruct (count <=? 5) eqn:E; [|simpl; lia]. apply Z.leb_le in E.
    unfold mbind, M_bind, try.
    pose proof (urlretrieve_log env url fname w) as Hu.
    destruct (urlretrieve env url fname w) as [[[]|e] w1]; simpl in Hu.
    + simpl. rewrite Hu, attempts_fetch. lia.
    + assert (Hone : (attempts url (log w1) ≤ attempts url (log w) + Z.to_nat (6 - count))%nat)
        by (rewrite Hu, attempts_fetch; lia).
      destruct e; simpl; try exact Hone.
      unfold logger, emit. simpl.
      etrans; [apply IH; lia|]. simpl. rewrite attempts_log, Hu, attempts_fetch. lia.
Qed.

Lemma attempts_other_url url fname u evs :
  u ≠ url → Forall (download_event url fname) evs → attempts u evs = O.
Proof.
  intros Hu. induction 1 as [|e evs He _ IH]; [done|].
  change (e :: evs) with ([e] ++ evs). rewrite attempts_app, IH.
  destruct He as [-> | [msg ->]]; unfold attempts; simpl; [|done].
  apply String.eqb_neq in Hu. rewrite String.eqb_sym in Hu. by rewrite Hu.
Qed.

(** [download], step by step. *)
Lemma download_unfold env url fname w :
  download env url fname w =
  match urlretrieve env url fname w with
  | (Ok _, w1) => (Ok tt, w1)
  | (Raise SocketTimeout, w1) =>
      match retry_loop env 5 1 url fname w1 with
      | (Ok c, w2) =>
          if 5 <? c
          then unlink false fname
                 (mkWorld (fs w2) (log w2 ++ [EvLog Warning (FetchFailed fname)]))
          else (Ok tt, w2)
      | (Raise e, w2) => (Raise e, w2)
      end
  | (Raise e, w1) => (Raise e, w1)
  end.
Proof.
  unfold download, download_fuel, mbind, M_bind, try.
  destruct (urlretrieve env url fname w) as [[[]|e] w1]; [done|].
  destruct e; try done.
  destruct (retry_loop env 5 1 url fname w1) as [[c|e] w2]; [|done].
  by destruct (5 <? c).
Qed.

(** X1.  Whatever the network does, one call of [download] makes at least
    one and at most six fetch attempts for its URL, and none for any other
    URL. *)
Theorem download_at_most_six_attempts (env : Env) (url : string) (fname : Path) (w : World) :
  (attempts url (log w) + 1 ≤ attempts url (log (download env url fname w).2))%nat ∧
  (attempts url (log (download env url fname w).2) ≤ attempts url (log w) + 6)%nat ∧
  (∀ u, u ≠ url → attempts u (log (download env url fname w).2) = attempts u (log w)).
Proof.
  split_and!.
  - rewrite download_unfold.
    pose proof (urlretrieve_log env url fname w) as Hu.
    destruct (urlretrieve env url fname w) as [[[]|e] w1]; cbn [snd] in Hu.
    { cbn [snd]. rewrite Hu, attempts_fetch. lia. }
    assert (H1 : (attempts url (log w) + 1 ≤ attempts url (log w1))%nat)
      by (rewrite Hu, attempts_fetch; lia).
    destruct e; try exact H1.
    destruct (retry_loop_appends env url fname 5 1 w1) as (evs & Hlog & _).
    destruct (retry_loop env 5 1 url fname w1) as [[c|e] w2]; cbn [snd] in Hlog.
    + destruct (5 <? c); cbn [snd].
      * rewrite unlink_log. cbn [log]. rewrite attempts_log, Hlog, attempts_app. lia.
      * rewrite Hlog, attempts_app. lia.
    + cbn [snd]. rewrite Hlog, attempts_app. lia.
  - rewrite download_unfold.
    pose proof (urlretrieve_log env url fname w) as Hu.
    destruct (urlretrieve env url fname w) as [[[]|e] w1]; cbn [snd] in Hu.
    { cbn [snd]. rewrite Hu, attempts_fetch. lia. }
    assert (H1 : (attempts url (log w1) ≤ attempts url (log w) + 6)%nat)
      by (rewrite Hu, attempts_fetch; lia).
    destruct e; try exact H1.
    pose proof (retry_loop_attempts_bound env url fname 5 1 w1 ltac:(lia)) as Hb.
    rewrite Hu, attempts_fetch in Hb. change (Z.to_nat (6 - 1)) with 5%nat in Hb.
    destruct (retry_loop env 5 1 url fname w1) as [[c|e] w2]; cbn [snd] in Hb.
    + destruct (5 <? c); cbn [snd].
      * rewrite unlink_log. cbn [log]. rewrite attempts_log. lia.
      * lia.
    + cbn [snd]. lia.
  - intros u Hu. destruct (download_appends env url fname w) as (evs & Hlog & Hev).
    rewrite Hlog, attempts_app, (attempts_other_url url fname u evs Hu Hev). lia.
Qed.

(** ** Recovery of [download] after timeouts *)

Section Recovery.

Variable env : Env.
Variables (url : string) (fname : Path).

Lemma urlretrieve_completes w data :
  completes (fs w) fname (urlopen env url (attempts url (log w))) data →
  urlretrieve env url fname w =
    (Ok tt, mkWorld (<[fname := File (Bytes data)]> (fs w))
                    (log w ++ [EvFetch url fname])).
Proof.
  intros [Ho Hopen]. unfold urlretrieve. munfold. simpl. rewrite Ho.
  unfold write_file. simpl. by rewrite Hopen.
Qed.

Lemma completes_fs_after f o p data :
  completes f fname o data → completes (fs_after fname p f) fname o data.
Proof.
  intros [Ho Hopen]. split; [done|].
  destruct p as [q|]; simpl; [|done]. by apply open_wb_insert_file.
Qed.

Lemma insert_fs_after p f n :
  <[fname := n]> (fs_after fname p f) = <[fname := n]> f.
Proof. destruct p; simpl; [|done]. by rewrite insert_insert_eq. Qed.

Lemma retry_loop_recovers (j : nat) : ∀ fuel count w data,
  1 ≤ count → count + Z.of_nat j ≤ 5 → (j < fuel)%nat →
  (∀ k, (k < j)%nat →
        times_out (fs w) fname (urlopen env url (attempts url (log w) + k))) →
  completes (fs w) fname (urlopen env url (attempts url (log w) + j)) data →
  ∃ c w', retry_loop env fuel count url fname w = (Ok c, w') ∧ c ≤ 5 ∧
          fs w' = <[fname := File (Bytes data)]> (fs w) ∧
          log w' = log w ++ retry_trace url fname j count ++ [EvFetch url fname].
Proof.
  induction j as [|j IH]; intros fuel count w data Hc1 Hc5 Hfuel Hto Hdone;
    (destruct fuel as [|fuel]; [lia|]);
    assert (Hle : (count <=? 5) = true) by (apply Z.leb_le; lia);
    simpl; rewrite Hle.
  - rewrite Nat.add_0_r in Hdone.
    pose proof (urlretrieve_completes w data Hdone) as Hu.
    exists count. eexists. split_and!.
    + unfold mbind, M_bind. rewrite (try_eq _ _ _ _ Hu). reflexivity.
    + lia.
    + done.
    + done.
  - pose proof (Hto O ltac:(lia)) as H0. rewrite Nat.add_0_r in H0.
    pose proof (urlretrieve_times_out env url fname w H0) as Hu.
    set (o := urlopen env url (attempts url (log w))) in *.
    set (w1 := mkWorld (fs_after fname (partial_of o) (fs w))
                       (log w ++ [EvFetch url fname])) in *.
    set (w2 := mkWorld (fs w1) (log w1 ++ [EvLog Warning (Retrying fname count)])).
    destruct (IH fuel (count + 1) w2 data) as (c & w' & Hrun & Hc & Hfs & Hlog).
    + lia.
    + lia.
    + lia.
    + intros k Hk. simpl. rewrite attempts_log, attempts_fetch.
      apply times_out_fs_after.
      replace (S (attempts url (log w)) + k)%nat with (attempts url (log w) + S k)%nat by lia.
      apply Hto. lia.
    + simpl. rewrite attempts_log, attempts_fetch. apply completes_fs_after.
      replace (S (attempts url (log w)) + j)%nat with (attempts url (log w) + S j)%nat by lia.
      done.
    + exists c, w'. split_and!.
      * unfold mbind, M_bind. rewrite (try_eq _ _ _ _ Hu).
        unfold logger, emit. simpl. exact Hrun.
      * done.
      * rewrite Hfs. simpl. apply insert_fs_after.
      * rewrite Hlog. simpl. by rewrite <- !app_assoc.
Qed.

End Recovery.

Lemma download_recovers_run
        (env : Env) (url : string) (fname : Path) (w : World) (j : nat) (data : string) :
  (j ≤ 5)%nat →
  (∀ k, (k < j)%nat →
        times_out (fs w) fname (urlopen env url (attempts url (log w) + k))) →
  completes (fs w) fname (urlopen env url (attempts url (log w) + j)) data →
  download env url fname w
  = (Ok tt, mkWorld (<[fname := File (Bytes data)]> (fs w))
                    (log w ++ recover_trace url fname j)) ∧
  attempts url (log w ++ recover_trace url fname j) = (attempts url (log w) + j + 1)%nat ∧
  EvLog Warning (FetchFailed fname) ∉ recover_trace url fname j.
Proof.
  intros Hj Hto Hdone. split_and!.
  - rewrite download_unfold. destruct j as [|j].
    + rewrite Nat.add_0_r in Hdone.
      by rewrite (urlretrieve_completes env url fname w data Hdone).
    + pose proof (Hto O ltac:(lia)) as H0. rewrite Nat.add_0_r in H0.
      rewrite (urlretrieve_times_out env url fname w H0).
      set (o := urlopen env url (attempts url (log w))) in *.
      set (w0 := mkWorld (fs_after fname (partial_of o) (fs w))
                         (log w ++ [EvFetch url fname])).
      destruct (retry_loop_recovers env url fname j 5 1 w0 data)
        as (c & w' & Hrun & Hc & Hfs & Hlog); try lia.
      { intros k Hk. simpl. rewrite attempts_fetch. apply times_out_fs_after.
        replace (S (attempts url (log w)) + k)%nat
          with (attempts url (log w) + S k)%nat by lia.
        apply Hto. lia. }
      { simpl. rewrite attempts_fetch. apply completes_fs_after.
        replace (S (attempts url (log w)) + j)%nat
          with (attempts url (log w) + S j)%nat by lia.
        done. }
      rewrite Hrun.
      replace (5 <? c) with false by (symmetry; apply Z.ltb_ge; lia).
      destruct w' as [f' l']. simpl in *. subst f' l'.
      rewrite insert_fs_after. by rewrite <- app_assoc.
  - destruct j as [|j]; simpl.
    + rewrite attempts_fetch. lia.
    + change (EvFetch url fname :: retry_trace url fname j 1 ++ [EvFetch url fname])
        with ([EvFetch url fname] ++ retry_trace url fname j 1 ++ [EvFetch url fname]).
      rewrite !app_assoc, attempts_fetch, attempts_retry_trace, attempts_fetch. lia.
  - assert (Hrt : ∀ n c, EvLog Warning (FetchFailed fname) ∉ retry_trace url fname n c).
    { induction n as [|n IH]; intros c; simpl; [apply not_elem_of_nil|].
      rewrite !not_elem_of_cons. split_and!; [done|done|apply IH]. }
    destruct j as [|j]; simpl.
    + rewrite not_elem_of_cons. split; [done|apply not_elem_of_nil].
    + rewrite not_elem_of_cons, not_elem_of_app, not_elem_of_cons.
      split_and!; [done|apply Hrt|done|apply not_elem_of_nil].
Qed.

(** X2.  When the first [j] attempts of a call of [download] time out, with
    [j] at most five, and the next one brings the whole body, the call
    returns normally after [j + 1] attempts, the destination holds the
    whole body (whatever the timed-out attempts had written there), and no
    failure is logged. *)
Theorem download_recovers
        (env : Env) (url : string) (fname : Path) (w : World) (j : nat) (data : string) :
  (j ≤ 5)%nat →
  (∀ k, (k < j)%nat →
        times_out (fs w) fname (urlopen env url (attempts url (log w) + k))) →
  completes (fs w) fname (urlopen env url (attempts url (log w) + j)) data →
  download env url fname w
  = (Ok tt, mkWorld (<[fname := File (Bytes data)]> (fs w))
                    (log w ++ recover_trace url fname j)) ∧
  attempts url (log w ++ recover_trace url fname j) = (attempts url (log w) + j + 1)%nat ∧
  EvLog Warning (FetchFailed fname) ∉ recover_trace url fname j.
Proof. apply download_recovers_run. Qed.

Lemma download_recovers_witness :
  download env_slow "u" ["show"; "x.mp3"] world_show
  = (Ok tt, mkWorld (<[["show"; "x.mp3"] := File (Bytes "abcd")]> (fs world_show))
                    (log world_show ++ recover_trace "u" ["show"; "x.mp3"] 2)).
Proof.
  apply (download_recovers env_slow "u" ["show"; "x.mp3"] world_show 2 "abcd").
  - lia.
  - intros [|[|k]] Hk; [reflexivity | exact I | lia].
  - split; reflexivity.
Defined.

(** ** The fetch phase and a failed merge *)

Lemma executor_map_ok env tasks order : ∀ w, (executor_map env order tasks w).1 = Ok tt.
Proof.
  induction order as [|i order IH]; intros w; simpl; [done|].
  destruct (tasks !! i) as [[url fname]|]; [|apply IH].
  unfold mbind, M_bind, try. destruct (download env url fname w) as [r w1]. apply IH.
Qed.

(** X3.  The pool swallows whatever a segment fetch raises: [executor.map]
    always ends normally, and the fetch phase of [download_m3u8] can fail
    only on the playlist or on its scratch directory, never on a segment. *)
Theorem segment_failures_stay_in_the_pool
        (env : Env) (url : string) (fname : Path) (w : World) :
  (∀ order tasks, (executor_map env order tasks w).1 = Ok tt) ∧
  (∀ e, (download_m3u8_fetch env url fname w).1 = Raise e →
        e = ManifestError ∨ e = FileExistsError ∨ e = FileNotFoundError).
Proof.
  split; [intros order tasks; apply executor_map_ok|].
  intros e. unfold download_m3u8_fetch, load_playlist. munfold. simpl.
  destruct (m3u8_load env url) as [playlist|]; [|intros [= <-]; auto].
  destruct (mkdir_exist_ok _ _) as [[[]|e'] w0] eqn:Emk.
  - simpl.
    match goal with |- context [executor_map env ?o ?t ?w] =>
      pose proof (executor_map_ok env t o w) as Hok;
      destruct (executor_map env o t w) as [[[]|e''] w2]
    end; simpl in *; done.
  - simpl. intros [= <-]. revert Emk. unfold mkdir_exist_ok. simpl.
    destruct (is_dir (fs w) _); [done|].
    destruct (exists_ (fs w) _); [intros [= <- _]; auto|].
    destruct (is_dir (fs w) _); [done|]. intros [= <- _]. auto.
Qed.

Lemma node_write_file_other p c w (q : Path) :
  q ≠ p → node (fs (write_file p c w).2) q = node (fs w) q.
Proof.
  intros Hq. unfold write_file. destruct (open_wb (fs w) p) as [[]|e]; [|done].
  simpl. by apply node_insert_ne.
Qed.

Lemma filelist_unfold folder : filelist folder = folder ++ ["filelist.txt"%string].
Proof. reflexivity. Qed.

(** The merge manifest is never the output file itself. *)
Lemma fname_ne_filelist (fname : Path) : fname ≠ filelist (scratch_folder fname).
Proof.
  intros Heq. rewrite filelist_unfold in Heq.
  assert (Hp : parent fname = scratch_folder fname).
  { unfold parent. rewrite Heq at 1. apply removelast_last. }
  assert (Hn : name fname = "filelist.txt"%string).
  { unfold name. rewrite Heq at 1. apply last_last. }
  unfold scratch_folder, joinpath in Hp. rewrite Hn in Hp.
  change (parts (stem "filelist.txt")) with ["filelist"%string] in Hp.
  apply (f_equal List.length) in Hp. rewrite length_app in Hp. simpl in Hp. lia.
Qed.

(** X4.  A merge phase that fails removes nothing: [download_m3u8] raises
    the error of the merge and does not reach its cleanup, so the scratch
    directory is still there, with the segments as the fetch phase left
    them.  The output is as it was, or holds what the failed merge tool had
    written of it; every path other than the output and the merge manifest
    is as the fetch phase left it.  The handler of the loop then removes
    what there is of the output. *)
Theorem failed_merge_leaves_scratch
        (env : Env) (url : string) (fname : Path) (a : Article) (q0 : Z)
        (w w1 w2 : World) (ts_list : list string) (e : Exn) :
  download_m3u8_fetch env url fname w = (Ok ts_list, w1) →
  download_m3u8_merge env fname ts_list w1 = (Raise e, w2) →
  download_m3u8 env url fname w = (Raise e, w2) ∧
  (e = IsADirectoryError ∨ e = FileNotFoundError ∨ e = FfmpegError) ∧
  is_dir (fs w2) (scratch_folder fname) = true ∧
  (node (fs w2) fname = node (fs w1) fname ∨
   ∃ part, ffmpeg_partial env = Some part ∧
           node (fs w2) fname = Some (File (Bytes part))) ∧
  (∀ q : Path, q ≠ filelist (scratch_folder fname) → q ≠ fname →
               node (fs w2) q = node (fs w1) q) ∧
  (select_best (media_files a) = Ok (q0, url) →
   node (fs w1) fname ≠ Some Dir →
   (save_video env a fname w).1 = Ok tt ∧
   node (fs (save_video env a fname w).2) fname = None).
Proof.
  intros Hfetch Hmerge.
  destruct (fetch_ok_inv env url fname w ts_list w1 Hfetch) as [_ Hdir].
  pose proof (download_m3u8_merge_same_dirs env fname ts_list w1 (scratch_folder fname)) as Hk.
  rewrite Hmerge in Hk. simpl in Hk.
  assert (Hfs : (e = IsADirectoryError ∨ e = FileNotFoundError ∨ e = FfmpegError) ∧
                (fs w2 = fs w1 ∨ fs w2 = fs_at_merge fname ts_list w1 ∨
                 ∃ part, ffmpeg_partial env = Some part ∧
                         open_wb (fs_at_merge fname ts_list w1) fname = Ok tt ∧
                         fs w2 = <[fname := File (Bytes part)]>
                                   (fs_at_merge fname ts_list w1))).
  { revert Hmerge.
    unfold download_m3u8_merge, ffmpeg_concat, write_file, fs_at_merge. munfold. simpl.
    unfold open_wb at 1.
    destruct (is_dir (fs w1) (filelist (scratch_folder fname))); [intros [= <- <-]; auto|].
    destruct (is_dir (fs w1) (parent (filelist (scratch_folder fname))));
      [|intros [= <- <-]; auto].
    simpl. rewrite node_insert_eq by apply filelist_ne. simpl.
    assert (Hfail : ∀ w0,
              fs w0 = <[filelist (scratch_folder fname) :=
                          File (Listing (map (seg_path (scratch_folder fname)) ts_list))]>
                        (fs w1) →
              match ffmpeg_fail env fname w0 with
              | (Ok a0, w') => (Ok tt, mkWorld (fs w') (log w' ++ [EvLog Info (MergeDone fname)]))
              | (Raise e0, w') => (Raise e0, w')
              end = (Raise e, w2) →
              (e = IsADirectoryError ∨ e = FileNotFoundError ∨ e = FfmpegError) ∧
              (fs w2 = fs w1
               ∨ fs w2 = <[filelist (scratch_folder fname) :=
                             File (Listing (map (seg_path (scratch_folder fname)) ts_list))]>
                           (fs w1)
               ∨ ∃ part, ffmpeg_partial env = Some part ∧
                         open_wb (<[filelist (scratch_folder fname) :=
                             File (Listing (map (seg_path (scratch_folder fname)) ts_list))]>
                           (fs w1)) fname = Ok tt ∧
                         fs w2 = <[fname := File (Bytes part)]>
                                   (<[filelist (scratch_folder fname) :=
                             File (Listing (map (seg_path (scratch_folder fname)) ts_list))]>
                           (fs w1)))).
    { intros w0 Hw0.
      destruct (ffmpeg_fail_raises env fname w0) as (w' & -> & _ & Hw').
      intros [= <- <-]. split; [auto|]. rewrite <- Hw0.
      destruct Hw' as [->|(part & Hp & Ho & ->)]; [auto|]. right. right. eauto. }
    destruct (read_all _ _) as [ds|]; [|by apply Hfail].
    destruct (ffmpeg_ok env); [|by apply Hfail].
    destruct (open_wb _ fname) as [[]|e']; [done|].
    simpl. intros [= <- <-]. auto. }
  destruct Hfs as [He Hfs].
  assert (Hother : ∀ q : Path, q ≠ filelist (scratch_folder fname) → q ≠ fname →
                               node (fs w2) q = node (fs w1) q).
  { intros q Hq Hq'. destruct Hfs as [-> | [-> | (part & _ & _ & ->)]]; [done| |].
    - unfold fs_at_merge. by apply node_insert_ne.
    - rewrite node_insert_ne by done. unfold fs_at_merge. by apply node_insert_ne. }
  assert (Hout : node (fs w2) fname = node (fs w1) fname ∨
                 ∃ part, ffmpeg_partial env = Some part ∧
                         node (fs w2) fname = Some (File (Bytes part))).
  { destruct Hfs as [-> | [-> | (part & Hp & Ho & ->)]]; [by left| |].
    - left. unfold fs_at_merge. apply node_insert_ne. intros H.
      by apply (fname_ne_filelist fname).
    - right. exists part. split; [done|]. apply node_insert_eq. by eapply open_wb_ne. }
  assert (Hrun : download_m3u8 env url fname w = (Raise e, w2)).
  { unfold download_m3u8. rewrite (bind_ok _ _ _ _ _ Hfetch).
    by rewrite (bind_raise _ _ _ _ _ Hmerge). }
  split_and!; try done.
  - by rewrite Hk.
  - intros Hsel Hnd.
    assert (Hnd2 : node (fs w2) fname ≠ Some Dir).
    { destruct Hout as [-> | (part & _ & ->)]; done. }
    rewrite (save_video_failure env a fname q0 url w e w2 Hsel Hrun Hnd2). simpl.
    split; [done|]. destruct fname as [|x fname']; [done|]. apply lookup_delete_eq.
Qed.

Lemma failed_merge_leaves_scratch_witness :
  let fname := ["show"; "one.mkv"]%string in
  let ts_list := ["http://h/s0.ts"; "http://h/s1.ts"]%string in
  let w1 := (download_m3u8_fetch env_missing_segment "http://h/one.m3u8" fname
               world_show).2 in
  let w2 := (download_m3u8_merge env_missing_segment fname ts_list w1).2 in
  download_m3u8 env_missing_segment "http://h/one.m3u8" fname world_show
  = (Raise FfmpegError, w2) ∧
  is_dir (fs w2) (scratch_folder fname) = true ∧
  node (fs w2) fname = Some (File (Bytes "<http://h/s0.ts>")) ∧
  node (fs w2) ["show"; "one"; "s0.ts"] = node (fs w1) ["show"; "one"; "s0.ts"] ∧
  (save_video env_missing_segment ep_video_one fname world_show).1 = Ok tt ∧
  node (fs (save_video env_missing_segment ep_video_one fname world_show).2) fname = None.
Proof.
  intros fname ts_list w1 w2.
  destruct (failed_merge_leaves_scratch env_missing_segment "http://h/one.m3u8" fname
              ep_video_one 720 world_show w1 w2 ts_list FfmpegError
              ltac:(by vm_compute) ltac:(by vm_compute))
    as (Hrun & _ & Hdir & Hout & Hother & Hhandler).
  split_and!; [exact Hrun|exact Hdir|by vm_compute| |apply Hhandler|apply Hhandler];
    try (by vm_compute).
Defined.

(** The segment that was fetched is still in the scratch directory after
    the failed merge, and the output holds what the tool had written. *)
Example failed_merge_keeps_segment :
  let w' := (download_m3u8 env_missing_segment "http://h/one.m3u8" ["show"; "one.mkv"]
               world_show).2 in
  node (fs w') ["show"; "one"; "s0.ts"] = Some (File (Bytes "<http://h/s0.ts>")) ∧
  node (fs w') ["show"; "one"; "s1.ts"] = None ∧
  node (fs w') ["show"; "one.mkv"] = Some (File (Bytes "<http://h/s0.ts>")).
Proof. split_and!; by vm_compute. Qed.

(** ** Edge cases of the loop *)

(** X5.  A video article with no media candidate makes the run raise
    [IndexError] when the loop reaches it: the scan of the candidates is
    outside the [try], the error ends the run, and no later article is
    processed. *)
Theorem empty_candidates_abort_run
        (env : Env) (no_tag no_cover : bool) (episodes : option (gset Z))
        (c : Catalog) (w w0 : World) (pre post : list Article) (a : Article)
        (fname : Path) :
  articles c = pre ++ a :: post →
  in_filter episodes a = true →
  process_in_order env no_tag no_cover (parts (cat_title c))
                   (List.filter (in_filter episodes) pre) w = (Ok tt, w0) →
  media_type_en a = "video"%string →
  media_files a = [] →
  target (parts (cat_title c)) a = Ok fname →
  exists_ (fs w0) fname = false →
  save_show_loop env no_tag no_cover episodes c w
  = (Raise IndexError, mkWorld (fs w0) (log w0 ++ [EvLog Info (Starting fname)])).
Proof.
  intros Hc Hin Hpre Hv Hmf Ht Hex.
  rewrite save_show_loop_flat, Hc, List.filter_app. simpl. rewrite Hin.
  rewrite process_in_order_app, (bind_ok _ _ _ _ _ Hpre). simpl.
  apply bind_raise.
  unfold process_article. rewrite Ht. munfold. rewrite Hex. simpl.
  rewrite Hv. simpl. unfold save_video. by rewrite Hmf.
Qed.

Lemma empty_candidates_abort_run_witness :
  save_show_loop env_ok false false None catalog_video_bare world_show
  = (Raise IndexError,
     mkWorld (fs world_show) (log world_show ++ [EvLog Info (Starting ["show"; "one.mkv"])])).
Proof.
  exact (empty_candidates_abort_run env_ok false false None catalog_video_bare
           world_show world_show [] [ep_audio_two] ep_video_bare ["show"; "one.mkv"]
           eq_refl eq_refl eq_refl eq_refl eq_refl eq_refl eq_refl).
Defined.

Lemma parts_suffix t ext :
  has_slash t = false → has_slash ext = false → (2 ≤ String.length ext)%nat →
  parts (t +:+ ext) = [t +:+ ext].
Proof.
  intros Ht He Hlen. unfold parts.
  rewrite components_no_slash by (by rewrite has_slash_append, Ht, He).
  simpl. unfold keep_component.
  assert (H1 : t +:+ ext ≠ ""%string).
  { intros H. apply (f_equal String.length) in H. rewrite length_append in H.
    simpl in H. lia. }
  assert (H2 : t +:+ ext ≠ "."%string).
  { intros H. apply (f_equal String.length) in H. rewrite length_append in H.
    simpl in H. lia. }
  apply String.eqb_neq in H1, H2. by rewrite H1, H2.
Qed.

(** X6.  On POSIX paths, where the slash is the only separator, the target
    file of an article is a direct child of the directory of the show
    whatever its title: the slashes of the title are replaced by
    backslashes, which are characters of a name there, so the file name is
    one path component, and it ends in the extension of the media type. *)
Theorem target_is_direct_child (show_dir : Path) (a : Article) (fname : Path) :
  target show_dir a = Ok fname →
  ∃ nm, fname = show_dir ++ [nm] ∧
        parent fname = show_dir ∧
        has_slash nm = false ∧
        (nm = replace_slash (title a) +:+ ".mp3" ∨
         nm = replace_slash (title a) +:+ ".mkv").
Proof.
  unfold target, joinpath.
  destruct (String.eqb (media_type_en a) "audio");
    [|destruct (String.eqb (media_type_en a) "video"); [|done]];
    intros [= <-]; eexists;
    (rewrite parts_suffix; [|apply replace_slash_no_slash|done|simpl; lia]);
    (split_and!; [reflexivity
                 |apply removelast_last
                 |by rewrite has_slash_append, replace_slash_no_slash
                 |auto]).
Qed.

Lemma target_is_direct_child_witness :
  ∃ nm, ["show"; "..\..\etc\passwd.mp3"] = ["show"] ++ [nm] ∧
        parent ["show"; "..\..\etc\passwd.mp3"] = ["show"] ∧
        has_slash nm = false ∧
        (nm = replace_slash "../../etc/passwd" +:+ ".mp3" ∨
         nm = replace_slash "../../etc/passwd" +:+ ".mkv").
Proof.
  exact (target_is_direct_child ["show"]
           (mkArticle 1 "../../etc/passwd" "audio" "http://h/x.mp3" [])
           ["show"; "..\..\etc\passwd.mp3"] eq_refl).
Defined.

Lemma filter_empty_set (l : list Article) : List.filter (in_filter (Some ∅)) l = [].
Proof.
  induction l as [|a l IH]; simpl; [done|].
  unfold in_filter at 1. simpl.
  rewrite bool_decide_eq_false_2 by apply not_elem_of_empty. simpl. exact IH.
Qed.

(** X7.  An empty set of episodes is a filter, not the absence of one: the
    run processes no article and leaves the world as it is. *)
Theorem empty_filter_processes_nothing
        (env : Env) (no_tag no_cover : bool) (c : Catalog) (w : World) :
  save_show_loop env no_tag no_cover (Some ∅) c w = (Ok tt, w).
Proof. by rewrite save_show_loop_flat, filter_empty_set. Qed.

Lemma segment_failures_stay_in_the_pool_witness :
  (download_m3u8_fetch env_ok "http://h/one.m3u8" ["show"; "one.mkv"] world_show).1
  = Raise ManifestError ∧
  (ManifestError = ManifestError ∨ ManifestError = FileExistsError ∨
   ManifestError = FileNotFoundError).
Proof.
  split; [reflexivity|].
  exact (proj2 (segment_failures_stay_in_the_pool env_ok "http://h/one.m3u8"
                  ["show"; "one.mkv"] world_show) ManifestError eq_refl).
Defined.

(** ** The flags of the taggers *)

Lemma ffmpeg_fail_log env out w : log (ffmpeg_fail env out w).2 = log w.
Proof. by destruct (ffmpeg_fail_raises env out w) as (w' & -> & Hlog & _). Qed.

Ltac appends_step :=
  first [ apply appends_ret
        | apply appends_silent, ffmpeg_fail_log
        | apply appends_raise
        | apply appends_get_fs
        | apply appends_get_log
        | apply appends_silent, write_file_log
        | apply appends_silent, unlink_log
        | apply appends_silent, mkdir_exist_ok_log
        | apply appends_silent, rmdir_log
        | apply appends_emit; (split; intros; discriminate)
        | apply appends_try
        | apply appends_bind; [|intros ?] ].

Lemma download_plain env url fname : appends plain_event (download env url fname).
Proof.
  eapply appends_weaken; [|apply download_appends].
  intros e [-> | [msg ->]]; split; intros; discriminate.
Qed.

Lemma executor_map_plain env tasks order :
  appends plain_event (executor_map env order tasks).
Proof.
  induction order as [|i order IH]; simpl; [apply appends_ret|].
  destruct (tasks !! i) as [[url fname]|]; [|done].
  apply appends_bind; [apply appends_try, download_plain|by intros _].
Qed.

Lemma unlink_all_plain ps : appends plain_event (unlink_all ps).
Proof.
  induction ps as [|p ps IH]; simpl; [apply appends_ret|].
  apply appends_bind; [apply appends_silent, unlink_log|by intros _].
Qed.

Lemma download_m3u8_plain env url fname : appends plain_event (download_m3u8 env url fname).
Proof.
  unfold download_m3u8, download_m3u8_fetch, download_m3u8_merge, download_m3u8_cleanup,
    load_playlist, ffmpeg_concat, logger.
  apply appends_bind.
  - apply appends_bind.
    + apply appends_bind; [appends_step|]. intros _.
      destruct (m3u8_load env url); appends_step.
    + intros playlist. do 2 (apply appends_bind; [appends_step|intros _]).
      apply appends_bind; [apply executor_map_plain|intros _].
      repeat appends_step.
  - intros ts_list. apply appends_bind.
    + do 2 (apply appends_bind; [appends_step|intros _]).
      apply appends_bind; [|intros _; appends_step].
      apply appends_bind; [appends_step|intros f].
      destruct (node f _) as [[[d|entries]|]|];
        [appends_step| |appends_step|appends_step].
      apply appends_bind; [appends_step|intros _].
      destruct (read_all f entries); [|appends_step].
      destruct (ffmpeg_ok env); [|appends_step].
      apply appends_bind; [repeat appends_step|].
      intros [[]|e]; appends_step.
    + intros _. apply appends_bind; [apply unlink_all_plain|intros _].
      repeat appends_step.
Qed.

Lemma plain_respects_flags no_tag no_cover e :
  plain_event e → respects_flags no_tag no_cover e.
Proof. intros [H1 H2]. split; auto. Qed.

Lemma process_article_flags env no_tag no_cover show_dir a :
  appends (respects_flags no_tag no_cover)
          (process_article env no_tag no_cover show_dir a).
Proof.
  unfold process_article.
  destruct (target show_dir a) as [fname|e]; [|apply appends_raise].
  apply appends_bind; [apply appends_get_fs|]. intros f.
  destruct (negb (exists_ f fname));
    [|apply appends_emit; split; intros; discriminate].
  apply appends_bind; [apply appends_emit; split; intros; discriminate|]. intros _.
  destruct (String.eqb (media_type_en a) "audio").
  - unfold save_audio, retag, retag_cover.
    apply appends_bind.
    { eapply appends_weaken; [apply plain_respects_flags|apply download_plain]. }
    intros _. apply appends_bind.
    { destruct no_tag eqn:Ent; [apply appends_ret|].
      apply appends_bind; [apply appends_emit; split; intros; done|]. intros _.
      apply appends_bind; [apply appends_get_fs|]. intros f'.
      destruct (node f' fname) as [[c|]|]; try apply appends_raise.
      destruct (retag_ok env fname); [apply appends_ret|apply appends_raise]. }
    intros _. apply appends_bind.
    { destruct no_cover eqn:Enc; [apply appends_ret|].
      apply appends_bind; [apply appends_emit; split; intros; done|]. intros _.
      apply appends_bind; [apply appends_get_fs|]. intros f'.
      destruct (node f' fname) as [[c|]|]; try apply appends_raise.
      destruct (retag_cover_ok env fname); [apply appends_ret|apply appends_raise]. }
    intros _. apply appends_emit; split; intros; discriminate.
  - unfold save_video.
    destruct (select_best (media_files a)) as [[q url]|e]; [|apply appends_raise].
    apply appends_bind.
    { apply appends_try. eapply appends_weaken;
        [apply plain_respects_flags|apply download_m3u8_plain]. }
    intros [[]|e]; [apply appends_emit; split; intros; discriminate|].
    apply appends_bind; [apply appends_emit; split; intros; discriminate|]. intros _.
    apply appends_bind; [apply appends_emit; split; intros; discriminate|]. intros _.
    apply appends_silent, unlink_log.
Qed.

Lemma process_in_order_flags env no_tag no_cover show_dir l :
  appends (respects_flags no_tag no_cover)
          (process_in_order env no_tag no_cover show_dir l).
Proof.
  induction l as [|a l IH]; simpl; [apply appends_ret|].
  apply appends_bind; [apply process_article_flags|by intros _].
Qed.

(** X8.  With [no_tag] set the run never calls [retag], and with
    [no_cover] set it never calls [retag_cover], whatever the catalog and
    the network: the run only adds events to the log, and none of them is
    a call of a tagger that is switched off. *)
Theorem flags_switch_taggers_off
        (env : Env) (no_tag no_cover : bool) (episodes : option (gset Z))
        (c : Catalog) (w : World) :
  ∃ evs, log (save_show_loop env no_tag no_cover episodes c w).2 = log w ++ evs ∧
         (no_tag = true → ∀ p, EvRetag p ∉ evs) ∧
         (no_cover = true → ∀ p, EvRetagCover p ∉ evs).
Proof.
  rewrite save_show_loop_flat.
  destruct (process_in_order_flags env no_tag no_cover (parts (cat_title c))
              (List.filter (in_filter episodes) (articles c)) w) as (evs & Hlog & Hev).
  exists evs. split; [done|].
  rewrite Forall_forall in Hev.
  split; intros Hflag p Hin; destruct (Hev _ Hin) as [H1 H2]; naive_solver.
Qed.

Lemma flags_switch_taggers_off_witness :
  ∃ evs, log (save_show_loop env_ok true true None catalog_two world_show).2
         = log world_show ++ evs ∧
         (∀ p, EvRetag p ∉ evs) ∧ (∀ p, EvRetagCover p ∉ evs).
Proof.
  destruct (flags_switch_taggers_off env_ok true true None catalog_two world_show)
    as (evs & H1 & H2 & H3).
  exists evs. split_and!; [done | exact (H2 eq_refl) | exact (H3 eq_refl)].
Defined.

(** ** The episodes a run takes up *)

Ltac quiet_step :=
  first [ apply appends_ret
        | apply appends_silent, ffmpeg_fail_log
        | apply appends_raise
        | apply appends_get_fs
        | apply appends_get_log
        | apply appends_silent, write_file_log
        | apply appends_silent, unlink_log
        | apply appends_silent, mkdir_exist_ok_log
        | apply appends_silent, rmdir_log
        | apply appends_emit; reflexivity
        | apply appends_try
        | apply appends_bind; [|intros ?] ].

Lemma download_quiet env url fname : appends quiet (download env url fname).
Proof.
  eapply appends_weaken; [|apply download_appends].
  by intros e [-> | [msg ->]].
Qed.

Lemma executor_map_quiet env tasks order : appends quiet (executor_map env order tasks).
Proof.
  induction order as [|i order IH]; simpl; [apply appends_ret|].
  destruct (tasks !! i) as [[url fname]|]; [|done].
  apply appends_bind; [apply appends_try, download_quiet|by intros _].
Qed.

Lemma unlink_all_quiet ps : appends quiet (unlink_all ps).
Proof.
  induction ps as [|p ps IH]; simpl; [apply appends_ret|].
  apply appends_bind; [apply appends_silent, unlink_log|by intros _].
Qed.

Lemma download_m3u8_quiet env url fname : appends quiet (download_m3u8 env url fname).
Proof.
  unfold download_m3u8, download_m3u8_fetch, download_m3u8_merge, download_m3u8_cleanup,
    load_playlist, ffmpeg_concat, logger.
  apply appends_bind.
  - apply appends_bind.
    + apply appends_bind; [quiet_step|]. intros _.
      destruct (m3u8_load env url); quiet_step.
    + intros playlist. do 2 (apply appends_bind; [quiet_step|intros _]).
      apply appends_bind; [apply executor_map_quiet|intros _].
      repeat quiet_step.
  - intros ts_list. apply appends_bind.
    + do 2 (apply appends_bind; [quiet_step|intros _]).
      apply appends_bind; [|intros _; quiet_step].
      apply appends_bind; [quiet_step|intros f].
      destruct (node f _) as [[[d|entries]|]|];
        [quiet_step| |quiet_step|quiet_step].
      apply appends_bind; [quiet_step|intros _].
      destruct (read_all f entries); [|quiet_step].
      destruct (ffmpeg_ok env); [|quiet_step].
      apply appends_bind; [repeat quiet_step|].
      intros [[]|e]; quiet_step.
    + intros _. apply appends_bind; [apply unlink_all_quiet|intros _].
      repeat quiet_step.
Qed.

Lemma save_audio_quiet env no_tag no_cover a fname :
  appends quiet (save_audio env no_tag no_cover a fname).
Proof.
  unfold save_audio, retag, retag_cover, logger.
  apply appends_bind; [apply download_quiet|]. intros _.
  apply appends_bind.
  { destruct no_tag; [apply appends_ret|].
    apply appends_bind; [quiet_step|]. intros _.
    apply appends_bind; [quiet_step|]. intros f'.
    destruct (node f' fname) as [[c|]|]; try quiet_step.
    destruct (retag_ok env fname); quiet_step. }
  intros _. apply appends_bind.
  { destruct no_cover; [apply appends_ret|].
    apply appends_bind; [quiet_step|]. intros _.
    apply appends_bind; [quiet_step|]. intros f'.
    destruct (node f' fname) as [[c|]|]; try quiet_step.
    destruct (retag_cover_ok env fname); quiet_step. }
  intros _. quiet_step.
Qed.

Lemma save_video_quiet env a fname : appends quiet (save_video env a fname).
Proof.
  unfold save_video, logger.
  destruct (select_best (media_files a)) as [[q url]|e]; [|apply appends_raise].
  apply appends_bind; [apply appends_try, download_m3u8_quiet|].
  intros [[]|e]; repeat quiet_step.
Qed.

Lemma omap_quiet evs : Forall quiet evs → omap announced evs = [].
Proof.
  induction 1 as [|e evs He _ IH]; [done|]. simpl. by rewrite He.
Qed.

(** An article that the loop takes up is announced once, by the name of its
    target, before anything else is done for it; an article of a kind that
    has no target is not announced and raises. *)
Lemma process_article_announces env no_tag no_cover show_dir a w :
  ∃ evs,
    log (process_article env no_tag no_cover show_dir a w).2 = log w ++ evs ∧
    omap announced evs
    = match target show_dir a with Ok p => [p] | Raise _ => [] end ∧
    (∀ e, target show_dir a = Raise e →
          (process_article env no_tag no_cover show_dir a w).1 = Raise e).
Proof.
  unfold process_article.
  destruct (target show_dir a) as [fname|e0].
  2: { exists []. simpl. rewrite app_nil_r. split_and!; [done|done|]. by intros e [= ->]. }
  unfold mbind at 1, M_bind at 1, get_fs. cbn [fst snd].
  destruct (exists_ (fs w) fname); cbn [negb].
  - exists [EvLog Info (Skipping fname)]. by split_and!.
  - unfold mbind, M_bind, logger, emit. cbn [fst snd].
    set (w' := mkWorld (fs w) (log w ++ [EvLog Info (Starting fname)])).
    assert (Hbody : appends quiet
              (if String.eqb (media_type_en a) "audio"
               then save_audio env no_tag no_cover a fname
               else save_video env a fname)).
    { destruct (String.eqb (media_type_en a) "audio");
        [apply save_audio_quiet|apply save_video_quiet]. }
    destruct (Hbody w') as (evs & Hlog & Hq).
    exists (EvLog Info (Starting fname) :: evs). split_and!; [| |done].
    + rewrite Hlog. unfold w'. simpl. by rewrite <- app_assoc.
    + simpl. by rewrite omap_quiet.
Qed.

Lemma process_in_order_announces env no_tag no_cover show_dir l : ∀ w,
  ∃ evs taken rest,
    log (process_in_order env no_tag no_cover show_dir l w).2 = log w ++ evs ∧
    l = taken ++ rest ∧
    Forall2 (λ a p, target show_dir a = Ok p) taken (omap announced evs) ∧
    ((process_in_order env no_tag no_cover show_dir l w).1 = Ok tt → rest = []).
Proof.
  induction l as [|a l IH]; intros w.
  { exists [], [], []. simpl. rewrite app_nil_r. by split_and!. }
  destruct (process_article_announces env no_tag no_cover show_dir a w)
    as (evs1 & Hlog1 & Hann1 & Hraise1).
  simpl. unfold mbind, M_bind.
  destruct (process_article env no_tag no_cover show_dir a w) as [[[]|e] w1] eqn:Ea;
    simpl in *.
  - destruct (target show_dir a) as [p|e0] eqn:Et;
      [|by specialize (Hraise1 e0 eq_refl)].
    destruct (IH w1) as (evs2 & taken & rest & Hlog2 & -> & Hall & Hok).
    exists (evs1 ++ evs2), (a :: taken), rest. split_and!; [|done| |done].
    + by rewrite Hlog2, Hlog1, app_assoc.
    + rewrite omap_app, Hann1. simpl. by constructor.
  - destruct (target show_dir a) as [p|e0] eqn:Et.
    + exists evs1, [a], l. rewrite Hann1. split_and!; [done|done| |done].
      by repeat constructor.
    + exists evs1, [], (a :: l). rewrite Hann1. by split_and!.
Qed.



(** ** An audio episode that is fetched *)

Lemma attempts_log_event url l lvl msg :
  attempts url (l ++ [EvLog lvl msg]) = attempts url l.
Proof. apply attempts_log. Qed.

Lemma retag_run env fname w c :
  node (fs w) fname = Some (File c) → retag_ok env fname = true →
  retag env fname w = (Ok tt, mkWorld (fs w) (log w ++ [EvRetag fname])).
Proof. intros Hn Hok. unfold retag. munfold. simpl. by rewrite Hn, Hok. Qed.

Lemma retag_cover_run env fname w c :
  node (fs w) fname = Some (File c) → retag_cover_ok env fname = true →
  retag_cover env fname w = (Ok tt, mkWorld (fs w) (log w ++ [EvRetagCover fname])).
Proof. intros Hn Hok. unfold retag_cover. munfold. simpl. by rewrite Hn, Hok. Qed.

Lemma process_audio_run
        (env : Env) (no_tag no_cover : bool) (show_dir : Path) (a : Article)
        (fname : Path) (w : World) (j : nat) (data : string) :
  media_type_en a = "audio"%string →
  target show_dir a = Ok fname →
  exists_ (fs w) fname = false →
  (j ≤ 5)%nat →
  (∀ k, (k < j)%nat →
        times_out (fs w) fname
                  (urlopen env (media_key_full_url a)
                           (attempts (media_key_full_url a) (log w) + k))) →
  completes (fs w) fname
            (urlopen env (media_key_full_url a)
                     (attempts (media_key_full_url a) (log w) + j)) data →
  (no_tag = false → retag_ok env fname = true) →
  (no_cover = false → retag_cover_ok env fname = true) →
  process_article env no_tag no_cover show_dir a w
  = (Ok tt, mkWorld (<[fname := File (Bytes data)]> (fs w))
                    (log w ++ audio_trace no_tag no_cover (media_key_full_url a) fname j)).
Proof.
  intros Ha Ht Hex Hj Hto Hdone Htag Hcover.
  set (url := media_key_full_url a) in *.
  set (w0 := mkWorld (fs w) (log w ++ [EvLog Info (Starting fname)])).
  destruct (download_recovers_run env url fname w0 j data Hj) as (Hdl & _ & _).
  { intros k Hk. simpl. rewrite attempts_log. by apply Hto. }
  { simpl. by rewrite attempts_log. }
  assert (Hne : fname ≠ []) by (destruct Hdone as [_ Ho]; by eapply open_wb_ne).
  unfold process_article. rewrite Ht. munfold. rewrite Hex. simpl.
  rewrite Ha. simpl. unfold save_audio. fold url.
  unfold mbind, M_bind. fold w0. rewrite Hdl. unfold audio_trace. fold url.
  destruct no_tag, no_cover; unfold mret, M_ret;
    repeat first
      [ erewrite retag_run;
          [|simpl; by apply node_insert_eq|by apply Htag]
      | erewrite retag_cover_run;
          [|simpl; by apply node_insert_eq|by apply Hcover] ];
    unfold logger, emit; simpl; by rewrite <- ?app_assoc.
Qed.

(** X9.  With both taggers switched off, an audio article whose target is
    not there and whose fetch brings the whole body after at most five
    timeouts ends with that body in its target file: the loop logs the
    start, [download] makes its attempts, and the episode is reported as
    done. *)
Theorem audio_episode_is_fetched
        (env : Env) (show_dir : Path) (a : Article)
        (fname : Path) (w : World) (j : nat) (data : string) :
  media_type_en a = "audio"%string →
  target show_dir a = Ok fname →
  exists_ (fs w) fname = false →
  (j ≤ 5)%nat →
  (∀ k, (k < j)%nat →
        times_out (fs w) fname
                  (urlopen env (media_key_full_url a)
                           (attempts (media_key_full_url a) (log w) + k))) →
  completes (fs w) fname
            (urlopen env (media_key_full_url a)
                     (attempts (media_key_full_url a) (log w) + j)) data →
  process_article env true true show_dir a w
  = (Ok tt, mkWorld (<[fname := File (Bytes data)]> (fs w))
                    (log w ++ [EvLog Info (Starting fname)]
                           ++ recover_trace (media_key_full_url a) fname j
                           ++ [EvLog Info (Done fname)])).
Proof.
  intros Ha Ht Hex Hj Hto Hdone.
  by rewrite (process_audio_run env true true show_dir a fname w j data
                Ha Ht Hex Hj Hto Hdone).
Qed.

Lemma audio_episode_is_fetched_witness :
  process_article env_slow true true ["show"] ep_audio_two world_show
  = (Ok tt, mkWorld (<[["show"; "two.mp3"] := File (Bytes "abcd")]> (fs world_show))
                    (log world_show
                     ++ [EvLog Info (Starting ["show"; "two.mp3"])]
                     ++ recover_trace "http://h/two.mp3" ["show"; "two.mp3"] 2
                     ++ [EvLog Info (Done ["show"; "two.mp3"])])).
Proof.
  apply (audio_episode_is_fetched env_slow ["show"] ep_audio_two
           ["show"; "two.mp3"] world_show 2 "abcd").
  - reflexivity.
  - reflexivity.
  - reflexivity.
  - lia.
  - intros [|[|k]] Hk; [reflexivity | exact I | lia].
  - split; reflexivity.
Defined.

(** ** The order of the pool *)

Lemma open_wb_same_dirs f f' p : same_dirs f f' → open_wb f' p = open_wb f p.
Proof. intros H. unfold open_wb. by rewrite !H. Qed.

Section Pool.

Variable env : Env.
Variable tasks : list (string * Path).
Variable datas : list string.

Hypothesis urls_distinct : NoDup (tasks.*1).
Hypothesis paths_distinct : NoDup (tasks.*2).

Lemma tasks_urls_ne i j t t' : i ≠ j → tasks !! i = Some t → tasks !! j = Some t' → t.1 ≠ t'.1.
Proof.
  intros Hij Hi Hj Heq. apply Hij.
  apply (NoDup_lookup (tasks.*1) i j t.1); [done| |];
    rewrite list_lookup_fmap; [by rewrite Hi|by rewrite Hj, Heq].
Qed.

Lemma tasks_paths_ne i j t t' : i ≠ j → tasks !! i = Some t → tasks !! j = Some t' → t.2 ≠ t'.2.
Proof.
  intros Hij Hi Hj Heq. apply Hij.
  apply (NoDup_lookup (tasks.*2) i j t.2); [done| |];
    rewrite list_lookup_fmap; [by rewrite Hi|by rewrite Hj, Heq].
Qed.

(** Running the tasks [order], each of them once and each ready to
    complete: every one of them leaves its body at its path, and nothing
    else changes. *)
Lemma executor_map_runs order : ∀ w,
  NoDup order →
  (∀ i, i ∈ order → ∃ t d, tasks !! i = Some t ∧ datas !! i = Some d ∧
                           task_completes env w t d) →
  (∀ i t d, i ∈ order → tasks !! i = Some t → datas !! i = Some d →
            node (fs (executor_map env order tasks w).2) t.2 = Some (File (Bytes d))) ∧
  (∀ q : Path, (∀ i t, i ∈ order → tasks !! i = Some t → q ≠ t.2) →
               node (fs (executor_map env order tasks w).2) q = node (fs w) q).
Proof.
  induction order as [|i order IH]; intros w Hnd Hready.
  - split; [intros i t d Hi; by apply elem_of_nil in Hi|done].
  - apply NoDup_cons in Hnd as [Hi Hnd].
    destruct (Hready i ltac:(left)) as ([url p] & d & Hti & Hdi & Hc).
    simpl. rewrite Hti.
    destruct (download_recovers_run env url p w 0 d ltac:(lia) ltac:(intros; lia)
                ltac:(by rewrite Nat.add_0_r)) as (Hdl & _ & _).
    unfold mbind, M_bind. rewrite (try_eq _ _ _ _ Hdl). simpl.
    set (w1 := mkWorld (<[p := File (Bytes d)]> (fs w)) (log w ++ [EvFetch url p])).
    assert (Hp : p ≠ []) by (destruct Hc as [_ Ho]; by eapply open_wb_ne).
    assert (Hsame : same_dirs (fs w) (fs w1)).
    { intros q. simpl. apply is_dir_insert_file.
      destruct Hc as [_ Ho]. unfold open_wb in Ho. simpl in Ho.
      by destruct (is_dir (fs w) p). }
    destruct (IH w1 Hnd) as [IH1 IH2].
    { intros j Hj. destruct (Hready j ltac:(by right)) as (t & d' & Htj & Hdj & Hcj).
      exists t, d'. split_and!; [done|done|].
      assert (Hij : i ≠ j) by (intros ->; done).
      destruct Hcj as [Ho Hopen]. split.
      - simpl. rewrite attempts_app.
        replace (attempts t.1 [EvFetch url p]) with O; [by rewrite Nat.add_0_r|].
        unfold attempts. simpl.
        pose proof (tasks_urls_ne i j (url, p) t Hij Hti Htj) as Hne. simpl in Hne.
        apply String.eqb_neq in Hne. by rewrite Hne.
      - by rewrite (open_wb_same_dirs _ _ _ Hsame). }
    split.
    + intros j t d' Hj Htj Hdj. apply elem_of_cons in Hj as [->|Hj].
      * rewrite Hti in Htj. rewrite Hdi in Hdj. inversion Htj; inversion Hdj; subst.
        simpl. rewrite IH2.
        -- simpl. by apply node_insert_eq.
        -- intros k t Hk Htk. assert (Hik : i ≠ k) by (intros ->; done).
           apply (tasks_paths_ne i k (url, p) t Hik Hti Htk).
      * by apply (IH1 j t d').
    + intros q Hq. rewrite IH2.
      * simpl. apply node_insert_ne. intros <-.
        by apply (Hq i (url, p) ltac:(left) Hti).
      * intros k t Hk. apply Hq. by right.
Qed.

End Pool.

Lemma pool_settles
        (env : Env) (tasks : list (string * Path)) (datas : list string)
        (order : list nat) (w : World) :
  Permutation order (seq 0 (List.length tasks)) →
  NoDup (tasks.*1) →
  NoDup (tasks.*2) →
  Forall2 (task_completes env w) tasks datas →
  (∀ i t d, tasks !! i = Some t → datas !! i = Some d →
            node (fs (executor_map env order tasks w).2) t.2 = Some (File (Bytes d))) ∧
  (∀ q : Path, q ∉ tasks.*2 →
               node (fs (executor_map env order tasks w).2) q = node (fs w) q).
Proof.
  intros Hperm Hurls Hpaths Hall.
  assert (Hnd : NoDup order) by (rewrite Hperm; apply NoDup_seq).
  assert (Hin : ∀ i, i ∈ order ↔ (i < List.length tasks)%nat).
  { intros i. rewrite Hperm, elem_of_seq. lia. }
  destruct (executor_map_runs env tasks datas Hurls Hpaths order w Hnd) as [H1 H2].
  { intros i Hi. apply Hin in Hi.
    destruct (lookup_lt_is_Some_2 tasks i Hi) as [t Ht].
    destruct (Forall2_lookup_l _ _ _ _ _ Hall Ht) as (d & Hd & Hc).
    by exists t, d. }
  split.
  - intros i t d Ht Hd. apply (H1 i t d); [|done|done].
    apply Hin. by eapply lookup_lt_Some.
  - intros q Hq. apply H2. intros i t _ Ht ->. apply Hq.
    apply list_elem_of_fmap. exists t. split; [done|].
    by eapply list_elem_of_lookup_2.
Qed.

(** X11.  The order in which the pool completes does not matter when the
    tasks are independent: if the URLs are distinct, the destinations are
    distinct and the first attempt of every task brings its whole body,
    then after the pool, for every completion order, the destination of
    each task holds the body of that task and no other path has changed. *)
Theorem pool_order_is_irrelevant
        (env : Env) (tasks : list (string * Path)) (datas : list string)
        (order : list nat) (w : World) :
  Permutation order (seq 0 (List.length tasks)) →
  NoDup (tasks.*1) →
  NoDup (tasks.*2) →
  Forall2 (task_completes env w) tasks datas →
  (∀ i t d, tasks !! i = Some t → datas !! i = Some d →
            node (fs (executor_map env order tasks w).2) t.2 = Some (File (Bytes d))) ∧
  (∀ q : Path, q ∉ tasks.*2 →
               node (fs (executor_map env order tasks w).2) q = node (fs w) q).
Proof. apply pool_settles. Qed.

(** ** A video episode whose segments all arrive *)

Lemma components_elems_no_slash s : ∀ x, In x (components s) → has_slash x = false.
Proof.
  induction s as [|c s IH]; simpl; intros x Hx.
  - by destruct Hx as [<-|[]].
  - destruct (Ascii.eqb c "/") eqn:E.
    + destruct Hx as [<-|Hx]; [done|by apply IH].
    + destruct (components s) as [|y ys] eqn:Ec.
      * destruct Hx as [<-|[]]. simpl. by rewrite E.
      * destruct Hx as [<-|Hx].
        -- simpl. rewrite E. simpl. apply IH. by left.
        -- apply IH. by right.
Qed.

Lemma last_In {A} (l : list A) d : l ≠ [] → In (List.last l d) l.
Proof.
  intros Hl. rewrite (app_removelast_last d Hl) at 2.
  apply in_or_app. right. by left.
Qed.

Lemma parts_path_name ts : path_name ts ≠ ""%string → parts (path_name ts) = [path_name ts].
Proof.
  intros Hne. unfold path_name in *.
  destruct (parts ts) as [|y ys] eqn:Ep; [done|].
  assert (Hin : In (List.last (y :: ys) "") (parts ts))
    by (rewrite Ep; by apply last_In).
  set (x := List.last (y :: ys) "") in *.
  unfold parts in Hin. apply List.filter_In in Hin as [Hc Hk].
  unfold parts. rewrite components_no_slash by (by eapply components_elems_no_slash).
  simpl. by rewrite Hk.
Qed.

Lemma seg_path_child folder ts :
  path_name ts ≠ ""%string → seg_path folder ts = folder ++ [path_name ts].
Proof. intros H. unfold seg_path, joinpath. by rewrite parts_path_name. Qed.

Lemma read_all_of_Forall2 f entries : ∀ ds,
  Forall2 (λ p d, node f p = Some (File (Bytes d))) entries ds →
  read_all f entries = Some ds.
Proof.
  induction entries as [|p entries IH]; intros ds H; inversion H; subst; simpl; [done|].
  match goal with Hn : node f p = _ |- _ => rewrite Hn end.
  by erewrite IH.
Qed.

Lemma mkdir_exist_ok_made p w :
  is_dir (fs w) p = true ∨ (exists_ (fs w) p = false ∧ is_dir (fs w) (parent p) = true) →
  ∃ f', mkdir_exist_ok p w = (Ok tt, mkWorld f' (log w)) ∧
        is_dir f' p = true ∧
        (∀ q : Path, q ≠ p → node f' q = node (fs w) q) ∧
        (∀ q : Path, is_dir (fs w) q = true → is_dir f' q = true).
Proof.
  intros [Hd | [Hex Hpar]]; unfold mkdir_exist_ok.
  - rewrite Hd. exists (fs w). destruct w. by split_and!.
  - assert (Hnd : is_dir (fs w) p = false).
    { unfold is_dir, exists_ in *. by destruct (node (fs w) p). }
    rewrite Hnd, Hex, Hpar.
    assert (Hp : p ≠ []) by (intros ->; done).
    exists (<[p := Dir]> (fs w)). split_and!.
    + done.
    + unfold is_dir. by rewrite node_insert_eq.
    + intros q Hq. by apply node_insert_ne.
    + intros q Hq. unfold is_dir in *.
      destruct (decide (p = q)) as [<-|Hne]; [by rewrite node_insert_eq|].
      by rewrite node_insert_ne.
Qed.

Lemma zip_with_image {A B} (f : A → B) (l : list A) :
  zip l (f <$> l) = (λ x, (x, f x)) <$> l.
Proof. induction l as [|x l IH]; simpl; [done|]. by f_equal. Qed.

Lemma NoDup_fmap_eq {A B} (f : A → B) (l : list A) x y :
  NoDup (f <$> l) → x ∈ l → y ∈ l → f x = f y → x = y.
Proof.
  intros Hnd Hx Hy Hf.
  apply list_elem_of_lookup in Hx as [i Hi]. apply list_elem_of_lookup in Hy as [j Hj].
  assert (i = j) as ->.
  { apply (NoDup_lookup (f <$> l) i j (f x) Hnd);
      rewrite list_lookup_fmap; [by rewrite Hi|by rewrite Hj, Hf]. }
  rewrite Hi in Hj. by inversion Hj.
Qed.

Lemma attempts_two_logs url l e lvl msg :
  attempts url ((l ++ [EvLoad e]) ++ [EvLog lvl msg]) = attempts url l.
Proof. rewrite attempts_log, attempts_app. unfold attempts at 2. simpl. lia. Qed.

(** A playlist whose segments have distinct final components, none of
    them empty or the name of the merge manifest, and whose every segment
    arrives at its first attempt: for every order of the pool the fetch and
    the merge go through, each scratch file holds the body of its segment
    when the merge tool reads it, and the output holds these bodies in the
    order of the playlist. *)
Lemma video_merge_run
        (env : Env) (url : string) (fname : Path) (w : World)
        (playlist : list string) (datas : list string) :
  m3u8_load env url = Some playlist →
  Permutation (pool_order env url) (seq 0 (List.length playlist)) →
  NoDup (path_name <$> (urljoin env url <$> playlist)) →
  Forall (λ ts, path_name ts ≠ ""%string ∧ path_name ts ≠ "filelist.txt"%string ∧
                node (fs w) (seg_path (scratch_folder fname) ts) ≠ Some Dir)
         (urljoin env url <$> playlist) →
  Forall2 (λ ts d, urlopen env ts (attempts ts (log w)) = Complete d)
          (urljoin env url <$> playlist) datas →
  (is_dir (fs w) (scratch_folder fname) = true ∨
   (exists_ (fs w) (scratch_folder fname) = false ∧
    is_dir (fs w) (parent (scratch_folder fname)) = true)) →
  node (fs w) (filelist (scratch_folder fname)) ≠ Some Dir →
  open_wb (fs w) fname = Ok tt →
  fname ≠ scratch_folder fname →
  ffmpeg_ok env = true →
  ∃ w1 w2,
    download_m3u8_fetch env url fname w = (Ok (urljoin env url <$> playlist), w1) ∧
    download_m3u8_merge env fname (urljoin env url <$> playlist) w1 = (Ok tt, w2) ∧
    read_all (fs_at_merge fname (urljoin env url <$> playlist) w1)
             (map (seg_path (scratch_folder fname)) (urljoin env url <$> playlist))
    = Some datas ∧
    node (fs w2) fname = Some (File (Bytes (join_media datas))).
Proof.
  intros Hload Hperm Hnames Hsegs Hdatas Hmk Hlist Hout Hfolder Hff.
  set (ts_list := urljoin env url <$> playlist) in *.
  set (folder := scratch_folder fname) in *.
  set (paths := seg_path folder <$> ts_list).
  rewrite Forall_forall in Hsegs.
  assert (Hchild : ∀ ts, ts ∈ ts_list → seg_path folder ts = folder ++ [path_name ts]).
  { intros ts Hts. apply seg_path_child. by apply Hsegs. }
  assert (Hne_folder : ∀ ts, ts ∈ ts_list → seg_path folder ts ≠ folder).
  { intros ts Hts Heq. rewrite (Hchild ts Hts) in Heq.
    apply (f_equal List.length) in Heq. rewrite length_app in Heq. simpl in Heq. lia. }
  assert (Hne_list : ∀ ts, ts ∈ ts_list → seg_path folder ts ≠ filelist folder).
  { intros ts Hts Heq. rewrite (Hchild ts Hts), filelist_unfold in Heq.
    apply app_inv_head in Heq. inversion Heq as [Hn].
    destruct (Hsegs ts Hts) as (_ & Hnl & _). by apply Hnl. }
  assert (Hnd_ts : NoDup ts_list) by (by eapply NoDup_fmap_1).
  assert (Hnd_paths : NoDup paths).
  { apply NoDup_fmap_2_strong; [|done]. intros x y Hx Hy Heq.
    apply (NoDup_fmap_eq path_name ts_list x y Hnames Hx Hy).
    rewrite (Hchild x Hx), (Hchild y Hy) in Heq.
    apply app_inv_head in Heq. by inversion Heq. }
  (* the scratch directory *)
  destruct (mkdir_exist_ok_made folder (mkWorld (fs w) (log w ++ [EvLoad url])) Hmk)
    as (fb & Hmkdir & Hdirb & Hnodeb & Hkeepb).
  simpl in Hmkdir, Hnodeb, Hkeepb.
  set (wc := mkWorld fb ((log w ++ [EvLoad url])
                         ++ [EvLog Info (TsStart folder (List.length ts_list))])).
  set (tasks := zip ts_list paths).
  assert (Htasks : tasks = (λ ts, (ts, seg_path folder ts)) <$> ts_list)
    by apply zip_with_image.
  assert (Hfst : tasks.*1 = ts_list).
  { rewrite Htasks, <- list_fmap_compose. apply list_fmap_id. }
  assert (Hsnd : tasks.*2 = paths).
  { rewrite Htasks, <- list_fmap_compose. done. }
  assert (Hready : Forall2 (task_completes env wc) tasks datas).
  { rewrite Htasks. apply Forall2_fmap_l.
    apply Forall2_same_length_lookup_2; [by eapply Forall2_length|].
    intros i ts d Hts Hd.
    destruct (Forall2_lookup_l _ _ _ _ _ Hdatas Hts) as (d' & Hd' & Ho).
    rewrite Hd in Hd'. inversion Hd'; subst d'.
    assert (Hin : ts ∈ ts_list) by (by eapply list_elem_of_lookup_2).
    split; simpl.
    - by rewrite attempts_two_logs.
    - unfold open_wb, is_dir. rewrite (Hnodeb _ (Hne_folder ts Hin)).
      destruct (Hsegs ts Hin) as (_ & _ & Hnd).
      destruct (node (fs w) (seg_path folder ts)) as [[|]|] eqn:E; try done;
        rewrite (Hchild ts Hin); unfold parent; rewrite removelast_last;
        fold (is_dir fb folder); by rewrite Hdirb. }
  assert (Hlen : List.length tasks = List.length playlist).
  { rewrite Htasks. unfold ts_list. by rewrite !length_fmap. }
  destruct (pool_settles env tasks datas (pool_order env url) wc)
    as [Hfiles Hrest]; [by rewrite Hlen|by rewrite Hfst|by rewrite Hsnd|done|].
  pose proof (executor_map_ok env tasks (pool_order env url) wc) as Hok.
  pose proof (executor_map_same_dirs env tasks (pool_order env url) wc) as Hsame.
  destruct (executor_map env (pool_order env url) tasks wc) as [r wd] eqn:Eex.
  simpl in Hok, Hfiles, Hrest, Hsame. subst r.
  set (w1 := mkWorld (fs wd) (log wd ++ [EvLog Info (TsDone folder)])).
  assert (Hfetch : download_m3u8_fetch env url fname w = (Ok ts_list, w1)).
  { unfold download_m3u8_fetch, load_playlist. munfold. simpl. rewrite Hload.
    fold folder. rewrite Hmkdir. simpl.
    change (map (urljoin env url) playlist) with ts_list.
    change (map (seg_path folder) ts_list) with paths.
    fold tasks. fold wc. by rewrite Eex. }
  (* the merge *)
  assert (Hdir_list : is_dir (fs wd) (filelist folder) = false).
  { rewrite Hsame. unfold is_dir. rewrite Hnodeb.
    - by destruct (node (fs w) (filelist folder)) as [[|]|].
    - rewrite filelist_unfold. intros Heq. apply (f_equal List.length) in Heq.
      rewrite length_app in Heq. simpl in Heq. lia. }
  assert (Hopen_list : open_wb (fs wd) (filelist folder) = Ok tt).
  { unfold open_wb. rewrite Hdir_list. rewrite filelist_unfold at 1.
    unfold parent. rewrite removelast_last. by rewrite Hsame, Hdirb. }
  set (fm := <[filelist folder := File (Listing paths)]> (fs wd)).
  assert (Hread : read_all fm paths = Some datas).
  { apply read_all_of_Forall2. unfold paths. apply Forall2_fmap_l.
    apply Forall2_same_length_lookup_2; [by eapply Forall2_length|].
    intros i ts d Hts Hd.
    assert (Hin : ts ∈ ts_list) by (by eapply list_elem_of_lookup_2).
    unfold compose. cbv beta.
    unfold fm. rewrite node_insert_ne by (intros Heq; by apply (Hne_list ts Hin)).
    apply (Hfiles i (ts, seg_path folder ts) d); [|done].
    by rewrite Htasks, list_lookup_fmap, Hts. }
  assert (Hopen_out : open_wb fm fname = Ok tt).
  { rewrite (open_wb_same_dirs (fs wd) fm).
    2: { intros q. unfold fm. by apply is_dir_insert_file. }
    rewrite (open_wb_same_dirs fb (fs wd)) by done.
    revert Hout. unfold open_wb, is_dir. rewrite (Hnodeb fname Hfolder).
    destruct (node (fs w) fname) as [[|]|]; try done;
      destruct (node (fs w) (parent fname)) as [[|]|] eqn:Ep; try done;
      intros _; pose proof (Hkeepb (parent fname)) as Hk; unfold is_dir in Hk;
      rewrite Ep in Hk; by rewrite (Hk eq_refl). }
  eexists w1, _. split_and!.
  - exact Hfetch.
  - unfold download_m3u8_merge, ffmpeg_concat, write_file. munfold. simpl.
    fold folder. change (map (seg_path folder) ts_list) with paths.
    rewrite Hopen_list. simpl.
    rewrite node_insert_eq by apply filelist_ne. simpl.
    fold fm. rewrite Hread, Hff. cbn [fs log]. rewrite Hopen_out. reflexivity.
  - exact Hread.
  - simpl. apply node_insert_eq. by eapply open_wb_ne.
Qed.

Lemma pool_order_is_irrelevant_witness :
  (∀ i t d, tasks_one !! i = Some t →
            ["<http://h/s0.ts>"; "<http://h/s1.ts>"]%string !! i = Some d →
            node (fs (executor_map env_video [1; 0]%nat tasks_one world_scratch).2) t.2
            = Some (File (Bytes d))) ∧
  (∀ q : Path, q ∉ tasks_one.*2 →
               node (fs (executor_map env_video [1; 0]%nat tasks_one world_scratch).2) q
               = node (fs world_scratch) q).
Proof.
  apply (pool_order_is_irrelevant env_video tasks_one
           ["<http://h/s0.ts>"; "<http://h/s1.ts>"]%string [1; 0]%nat world_scratch).
  - apply perm_swap.
  - apply (bool_decide_unpack _). vm_compute. exact I.
  - apply (bool_decide_unpack _). vm_compute. exact I.
  - repeat constructor.
Defined.



(** * The API client *)

Lemma bindX_ok {A B} (m : MX A) (f : A → MX B) w a w' :
  m w = (OkX a, w') → (m ≫= f) w = f a w'.
Proof. intros H. unfold mbind, MX_bind. by rewrite H. Qed.

Lemma bindX_raise {A B} (m : MX A) (f : A → MX B) w e w' :
  m w = (RaiseX e, w') → (m ≫= f) w = (RaiseX e, w').
Proof. intros H. unfold mbind, MX_bind. by rewrite H. Qed.

Ltac munfoldX :=
  unfold mbind, MX_bind, mret, MX_ret, tryX, raiseX, note, get_notes, get_base_fs,
    set_catalog_cache, set_show_cache in *.

Lemma requests_app uri l1 l2 :
  requests uri (l1 ++ l2) = (requests uri l1 + requests uri l2)%nat.
Proof. unfold requests. by rewrite List.filter_app, length_app. Qed.

(** What [get_api_response] does, case by case. *)
Lemma get_api_response_run {D} token uri params (reply : nat → Reply D) w :
  ∃ r logs,
    get_api_response token uri params reply w
    = (r, mkWorldX (base w)
                   (notes w ++ NRequest uri (<["api_token" := token]> params) :: logs)
                   (catalog_cache w) (show_cache w)) ∧
    (∀ d, r = OkX d ↔ reply (requests uri (notes w)) = Replied (Some "success"%string) (Some d)) ∧
    (∀ e, r = RaiseX e → e = RuntimeError ∨ e = KeyError ∨ e = RequestError) ∧
    (∀ u, requests u logs = O).
Proof.
  unfold get_api_response. munfoldX. simpl.
  destruct (reply (requests uri (notes w))) as [|[status|] data].
  - exists (RaiseX RequestError), []. split_and!; [done| |naive_solver|done].
    intros d. split; discriminate.
  - destruct (String.eqb status "success") eqn:E; simpl.
    + apply String.eqb_eq in E as ->. destruct data as [d|].
      * exists (OkX d), []. split_and!; [done| |naive_solver|done].
        intros d'. split; congruence.
      * exists (RaiseX RuntimeError),
          [NLog Error (ApiFailed uri); NLog Error (ApiDump uri)]. split_and!.
        -- simpl. by rewrite <- !app_assoc.
        -- intros d'. split; discriminate.
        -- naive_solver.
        -- done.
    + exists (RaiseX RuntimeError),
        [NLog Error (ApiFailed uri); NLog Error (ApiDump uri)]. split_and!.
      * simpl. by rewrite <- !app_assoc.
      * intros d'. split; [discriminate|]. intros [= -> _]. done.
      * naive_solver.
      * done.
  - exists (RaiseX KeyError), []. split_and!; [done| |naive_solver|done].
    intros d. split; discriminate.
Qed.

(** X14.  [get_api_response] sends exactly one request, which carries the
    token of the client under [api_token] whatever the caller had put
    there; it returns the data of the answer exactly when the answer has
    the status [success] and a key [data], and raises otherwise; it touches
    neither the disk nor the caches. *)
Theorem get_api_response_checks_the_answer
        {D : Type} (token : string) (uri : Endpoint) (params : gmap string string)
        (reply : nat → Reply D) (w : WorldX) :
  (∀ d, (get_api_response token uri params reply w).1 = OkX d ↔
        reply (requests uri (notes w)) = Replied (Some "success"%string) (Some d)) ∧
  (∀ e, (get_api_response token uri params reply w).1 = RaiseX e →
        e = RuntimeError ∨ e = KeyError ∨ e = RequestError) ∧
  requests uri (notes (get_api_response token uri params reply w).2)
  = S (requests uri (notes w)) ∧
  (∃ logs, notes (get_api_response token uri params reply w).2
           = notes w ++ NRequest uri (<["api_token" := token]> params) :: logs) ∧
  (<["api_token" := token]> params) !! "api_token"%string = Some token ∧
  base (get_api_response token uri params reply w).2 = base w ∧
  catalog_cache (get_api_response token uri params reply w).2 = catalog_cache w ∧
  show_cache (get_api_response token uri params reply w).2 = show_cache w.
Proof.
  destruct (get_api_response_run token uri params reply w)
    as (r & logs & Hrun & Hok & Herr & Hlogs).
  rewrite Hrun. simpl. split_and!; try done.
  - change (NRequest uri (<["api_token"%string:=token]> params) :: logs)
      with ([NRequest uri (<["api_token"%string:=token]> params)] ++ logs).
    rewrite !requests_app, Hlogs. unfold requests at 2. simpl.
    rewrite bool_decide_eq_true_2 by done. simpl. lia.
  - by exists logs.
  - apply lookup_insert_eq.
Qed.

Lemma get_api_response_checks_the_answer_witness :
  (get_api_response "tok" (CatalogOf 8) ∅ (catalog_reply server_seven 8) worldx_empty).1
  = RaiseX RuntimeError ∧
  (RuntimeError = RuntimeError ∨ RuntimeError = KeyError ∨ RuntimeError = RequestError).
Proof.
  split; [reflexivity|].
  exact (proj1 (proj2 (get_api_response_checks_the_answer "tok" (CatalogOf 8) ∅
                         (catalog_reply server_seven 8) worldx_empty))
               RuntimeError eq_refl).
Defined.

(** ** The caches *)

Lemma lru_find_touch {V} k (v : V) c : lru_find k (lru_touch k v c) = Some v.
Proof. unfold lru_touch. simpl. by rewrite Z.eqb_refl. Qed.

Lemma lru_find_store {V} k (v : V) c : lru_find k (lru_store k v c) = Some v.
Proof. unfold lru_store, lru_maxsize. simpl. by rewrite Z.eqb_refl. Qed.

Lemma lru_store_length {V} k (v : V) c :
  (List.length (lru_store k v c) ≤ lru_maxsize)%nat.
Proof. unfold lru_store. rewrite length_take. apply Nat.le_min_l. Qed.

Lemma lru_remove_length {V} k (c : list (Z * V)) v :
  lru_find k c = Some v → S (List.length (lru_remove k c)) = List.length c.
Proof.
  induction c as [|[k' v'] c IH]; simpl; [done|].
  destruct (Z.eqb k' k); [done|]. intros H. simpl. by rewrite IH.
Qed.

Section Caches.

Variable server : Server.
Variable token : string.

(** The two branches of [get_catalog]. *)
Lemma get_catalog_hit id w v :
  lru_find id (catalog_cache w) = Some v →
  get_catalog server token id w
  = (OkX v, mkWorldX (base w) (notes w) (lru_touch id v (catalog_cache w)) (show_cache w)).
Proof. intros H. unfold get_catalog. by rewrite H. Qed.

Lemma get_catalog_miss id w :
  lru_find id (catalog_cache w) = None →
  ∃ r logs,
    get_api_response token (CatalogOf id) ∅ (catalog_reply server id) w
    = (r, mkWorldX (base w)
                   (notes w ++ NRequest (CatalogOf id) (<["api_token" := token]> ∅) :: logs)
                   (catalog_cache w) (show_cache w)) ∧
    (∀ u, requests u logs = O) ∧
    get_catalog server token id w
    = match r with
      | OkX v =>
          (OkX v, mkWorldX (base w)
                    (notes w ++ NRequest (CatalogOf id) (<["api_token" := token]> ∅) :: logs)
                    (lru_store id v (catalog_cache w)) (show_cache w))
      | RaiseX e =>
          (RaiseX e, mkWorldX (base w)
                    (notes w ++ NRequest (CatalogOf id) (<["api_token" := token]> ∅) :: logs)
                    (catalog_cache w) (show_cache w))
      end.
Proof.
  intros H.
  destruct (get_api_response_run token (CatalogOf id) ∅ (catalog_reply server id) w)
    as (r & logs & Hrun & _ & _ & Hlogs).
  exists r, logs. split_and!; [done|done|].
  unfold get_catalog. rewrite H. unfold mbind, MX_bind. rewrite Hrun.
  by destruct r.
Qed.

Lemma requests_cons_request uri params logs l :
  (∀ u, requests u logs = O) →
  requests uri (l ++ NRequest uri params :: logs) = S (requests uri l).
Proof.
  intros Hlogs.
  change (NRequest uri params :: logs) with ([NRequest uri params] ++ logs).
  rewrite !requests_app, Hlogs. unfold requests at 2. simpl.
  rewrite bool_decide_eq_true_2 by done. simpl. lia.
Qed.

(** X15.  [get_catalog] is cached: when a call for an id has returned, the
    next call for that id returns the same catalog without any request to
    the server, and without touching the disk. *)
Theorem get_catalog_is_cached (id : Z) (w w1 : WorldX) (v : CatalogData) :
  get_catalog server token id w = (OkX v, w1) →
  ∃ w2, get_catalog server token id w1 = (OkX v, w2) ∧
        notes w2 = notes w1 ∧ base w2 = base w1.
Proof.
  intros Hcall.
  assert (Hfind : lru_find id (catalog_cache w1) = Some v).
  { destruct (lru_find id (catalog_cache w)) as [v'|] eqn:E.
    - rewrite (get_catalog_hit id w v' E) in Hcall. inversion Hcall; subst.
      simpl. apply lru_find_touch.
    - destruct (get_catalog_miss id w E) as (r & logs & _ & _ & Hrun).
      rewrite Hrun in Hcall. destruct r as [v'|e]; inversion Hcall; subst.
      simpl. apply lru_find_store. }
  eexists. split; [by apply get_catalog_hit|]. done.
Qed.

(** X16.  A call of [get_catalog] that raises stores nothing: the cache is
    as before, the id is still not in it, and the server has been asked
    once more, so the next call for the id asks the server again. *)
Theorem failed_call_is_not_cached (id : Z) (w w1 : WorldX) (e : ExnX) :
  get_catalog server token id w = (RaiseX e, w1) →
  catalog_cache w1 = catalog_cache w ∧
  lru_find id (catalog_cache w1) = None ∧
  requests (CatalogOf id) (notes w1) = S (requests (CatalogOf id) (notes w)) ∧
  requests (CatalogOf id) (notes (get_catalog server token id w1).2)
  = S (S (requests (CatalogOf id) (notes w))).
Proof.
  intros Hcall.
  destruct (lru_find id (catalog_cache w)) as [v'|] eqn:E.
  { by rewrite (get_catalog_hit id w v' E) in Hcall. }
  destruct (get_catalog_miss id w E) as (r & logs & _ & Hlogs & Hrun).
  rewrite Hrun in Hcall. destruct r as [v'|e']; inversion Hcall; subst. simpl.
  assert (Hreq : requests (CatalogOf id)
                   (notes w ++ NRequest (CatalogOf id) (<["api_token"%string := token]> ∅) :: logs)
                 = S (requests (CatalogOf id) (notes w)))
    by (by apply requests_cons_request).
  split_and!; [done|done|done|].
  match goal with |- context [get_catalog server token id ?w'] =>
    destruct (get_catalog_miss id w' E) as (r2 & logs2 & _ & Hlogs2 & Hrun2);
    rewrite Hrun2
  end.
  destruct r2; simpl; by rewrite requests_cons_request, Hreq.
Qed.


End Caches.

Lemma get_catalog_is_cached_witness :
  ∃ w2, get_catalog server_seven "tok" 7
          (get_catalog server_seven "tok" 7 worldx_empty).2 = (OkX cdata_two, w2) ∧
        notes w2 = notes (get_catalog server_seven "tok" 7 worldx_empty).2 ∧
        base w2 = base (get_catalog server_seven "tok" 7 worldx_empty).2.
Proof.
  apply (get_catalog_is_cached server_seven "tok" 7 worldx_empty). reflexivity.
Defined.

Lemma failed_call_is_not_cached_witness :
  catalog_cache (get_catalog server_seven "tok" 8 worldx_empty).2
  = catalog_cache worldx_empty ∧
  lru_find 8 (catalog_cache (get_catalog server_seven "tok" 8 worldx_empty).2) = None ∧
  requests (CatalogOf 8) (notes (get_catalog server_seven "tok" 8 worldx_empty).2)
  = S (requests (CatalogOf 8) (notes worldx_empty)) ∧
  requests (CatalogOf 8)
    (notes (get_catalog server_seven "tok" 8
              (get_catalog server_seven "tok" 8 worldx_empty).2).2)
  = S (S (requests (CatalogOf 8) (notes worldx_empty))).
Proof.
  apply (failed_call_is_not_cached server_seven "tok" 8 worldx_empty _ RuntimeError).
  reflexivity.
Defined.


(** * What a run may write *)

#[local] Instance only_at_preorder p : PreOrder (only_at p).
Proof.
  split; [by intros f q|].
  intros f g h H1 H2 q Hq. by rewrite H2, H1.
Qed.

#[local] Instance inside_preorder d : PreOrder (inside d).
Proof.
  split; [by intros f q|].
  intros f g h H1 H2 q Hq. by rewrite H2, H1.
Qed.

Lemma exists_node f f' (q : Path) : node f' q = node f q → exists_ f' q = exists_ f q.
Proof. unfold exists_. by intros ->. Qed.

#[local] Instance fills_only_preorder ps : PreOrder (fills_only ps).
Proof.
  split; [by intros f q|].
  intros f g h H1 H2 q Hq. rewrite <- (H1 q Hq). apply H2.
  destruct Hq as [Hq|Hq]; [left|by right].
  by rewrite (exists_node f g q) by (apply H1; by left).
Qed.

#[local] Instance adds_inside_preorder d : PreOrder (adds_inside d).
Proof.
  split; [by intros f q|].
  intros f g h H1 H2 q Hq. rewrite <- (H1 q Hq). apply H2.
  destruct Hq as [Hq|Hq]; [left|by right].
  by rewrite (exists_node f g q) by (apply H1; by left).
Qed.

Ltac keeps_step R :=
  first [ apply (keeps_ret R) | apply (keeps_raise R) | apply (keeps_emit R)
        | apply (keeps_get_fs R) | apply (keeps_get_log R)
        | apply (keeps_try R)
        | apply (keeps_bind R); [ |intros ?] ].

(** ** The primitives *)

Lemma write_file_only_at p c : keeps (only_at p) (write_file p c).
Proof.
  intros w q Hq. unfold write_file. destruct (open_wb (fs w) p); simpl; [|done].
  by rewrite node_insert_ne by congruence.
Qed.

Lemma unlink_only_at b p : keeps (only_at p) (unlink b p).
Proof.
  intros w q Hq. unfold unlink.
  destruct (node (fs w) p) as [[c|]|]; simpl; [|done|by destruct b].
  by rewrite node_delete_ne by congruence.
Qed.

Lemma mkdir_exist_ok_only_at p : keeps (only_at p) (mkdir_exist_ok p).
Proof.
  intros w q Hq. unfold mkdir_exist_ok.
  destruct (is_dir (fs w) p); [done|].
  destruct (exists_ (fs w) p); [done|].
  destruct (is_dir (fs w) (parent p)); [|done].
  simpl. by rewrite node_insert_ne by congruence.
Qed.

Lemma rmdir_only_at p : keeps (only_at p) (rmdir p).
Proof.
  intros w q Hq. unfold rmdir.
  destruct p as [|x p]; [done|].
  destruct (fs w !! (x :: p)) as [[c|]|]; try done.
  destruct (dir_empty (fs w) (x :: p)); [|done].
  simpl. by rewrite node_delete_ne by congruence.
Qed.

Lemma urlretrieve_only_at env url fname : keeps (only_at fname) (urlretrieve env url fname).
Proof.
  unfold urlretrieve.
  keeps_step (only_at fname); [keeps_step (only_at fname)|].
  keeps_step (only_at fname); [keeps_step (only_at fname)|].
  destruct (urlopen env url _) as [d|[part|]|[part|]];
    repeat first [ apply write_file_only_at | keeps_step (only_at fname) ].
Qed.

Lemma retry_loop_only_at env url fname fuel : ∀ count,
  keeps (only_at fname) (retry_loop env fuel count url fname).
Proof.
  induction fuel as [|fuel IH]; intros count; simpl;
    (destruct (count <=? 5); [|apply (keeps_ret (only_at fname))]).
  - apply (keeps_raise (only_at fname)).
  - apply (keeps_bind (only_at fname));
      [apply (keeps_try (only_at fname)), urlretrieve_only_at|].
    intros [[]|e]; [apply (keeps_ret (only_at fname))|].
    destruct e; try apply (keeps_raise (only_at fname)).
    apply (keeps_bind (only_at fname)); [apply (keeps_emit (only_at fname))|].
    intros _. apply IH.
Qed.

Lemma download_only_at env url fname : keeps (only_at fname) (download env url fname).
Proof.
  unfold download, download_fuel.
  apply (keeps_bind (only_at fname));
    [apply (keeps_try (only_at fname)), urlretrieve_only_at|].
  intros [[]|e]; [apply (keeps_ret (only_at fname))|].
  destruct e; try apply (keeps_raise (only_at fname)).
  apply (keeps_bind (only_at fname)); [apply retry_loop_only_at|]. intros count.
  destruct (5 <? count); [|apply (keeps_ret (only_at fname))].
  apply (keeps_bind (only_at fname)); [apply (keeps_emit (only_at fname))|].
  intros _. apply unlink_only_at.
Qed.

(** X18.  [download] changes nothing on the disk but its destination:
    whatever the network does and however the call ends, every other path
    is as before. *)
Theorem download_touches_only_its_destination
        (env : Env) (url : string) (fname : Path) (w : World) (q : Path) :
  q ≠ fname →
  node (fs (download env url fname w).2) q = node (fs w) q.
Proof. intros Hq. by apply download_only_at. Qed.

Lemma download_touches_only_its_destination_witness :
  node (fs (download env_flaky "http://h/a.mp3" ["show"; "a.mp3"] world_show).2) ["show"]
  = node (fs world_show) ["show"].
Proof.
  apply (download_touches_only_its_destination env_flaky "http://h/a.mp3"
           ["show"; "a.mp3"] world_show ["show"]).
  done.
Defined.

(** ** The loop stays in the directory of the show *)

Lemma only_at_inside d p f f' : d `prefix_of` p → only_at p f f' → inside d f f'.
Proof. intros Hp H q Hq. apply H. by intros ->. Qed.

Lemma keeps_inside {A} d p (m : M A) :
  d `prefix_of` p → keeps (only_at p) m → keeps (inside d) m.
Proof. intros Hp H w. by apply (only_at_inside d p), H. Qed.

Lemma executor_map_inside env d tasks order :
  Forall (λ t : string * Path, d `prefix_of` t.2) tasks →
  keeps (inside d) (executor_map env order tasks).
Proof.
  intros Htasks.
  induction order as [|i order IH]; simpl; [apply (keeps_ret (inside d))|].
  destruct (tasks !! i) as [[url fname]|] eqn:E; [|done].
  apply (keeps_bind (inside d)); [ |by intros _].
  apply (keeps_try (inside d)), (keeps_inside d fname), download_only_at.
  apply (Forall_lookup_1 _ _ _ _ Htasks E).
Qed.

Lemma unlink_all_inside d ps :
  Forall (λ p, d `prefix_of` p) ps → keeps (inside d) (unlink_all ps).
Proof.
  induction 1 as [|p ps Hp _ IH]; simpl; [apply (keeps_ret (inside d))|].
  apply (keeps_bind (inside d)); [|by intros _].
  by apply (keeps_inside d p), unlink_only_at.
Qed.

Lemma ffmpeg_concat_inside env d listfile out :
  d `prefix_of` out → keeps (inside d) (ffmpeg_concat env listfile out).
Proof.
  intros Hout. unfold ffmpeg_concat.
  apply (keeps_bind (inside d)); [apply (keeps_get_fs (inside d))|]. intros f.
  destruct (node f listfile) as [[[c|entries]|]|]; try apply (keeps_raise (inside d)).
  apply (keeps_bind (inside d)); [apply (keeps_emit (inside d))|]. intros _.
  destruct (read_all f entries) as [ds|];
    [|apply (keeps_ffmpeg_fail (inside d)); intros c;
      by apply (keeps_inside d out), write_file_only_at].
  destruct (ffmpeg_ok env);
    [|apply (keeps_ffmpeg_fail (inside d)); intros c;
      by apply (keeps_inside d out), write_file_only_at].
  apply (keeps_bind (inside d)).
  - by apply (keeps_try (inside d)), (keeps_inside d out), write_file_only_at.
  - intros [[]|e]; [apply (keeps_ret (inside d))|apply (keeps_raise (inside d))].
Qed.

Lemma seg_paths_inside d folder (ts_list : list string) :
  d `prefix_of` folder →
  Forall (λ p, d `prefix_of` p) (map (seg_path folder) ts_list).
Proof.
  intros Hd. apply List.Forall_forall. intros p Hp.
  apply in_map_iff in Hp as (ts & <- & _).
  unfold seg_path, joinpath. by apply prefix_app_r.
Qed.

Lemma download_m3u8_inside env d url fname :
  d `prefix_of` fname → d `prefix_of` scratch_folder fname →
  keeps (inside d) (download_m3u8 env url fname).
Proof.
  intros Hf Hs.
  unfold download_m3u8, download_m3u8_fetch, download_m3u8_merge,
    download_m3u8_cleanup, load_playlist.
  apply (keeps_bind (inside d)).
  - apply (keeps_bind (inside d)).
    + apply (keeps_bind (inside d)); [apply (keeps_emit (inside d))|].
      intros _. destruct (m3u8_load env url);
        [apply (keeps_ret (inside d))|apply (keeps_raise (inside d))].
    + intros playlist.
      apply (keeps_bind (inside d));
        [by apply (keeps_inside d (scratch_folder fname)), mkdir_exist_ok_only_at|].
      intros _.
      apply (keeps_bind (inside d)); [apply (keeps_emit (inside d))|]. intros _.
      apply (keeps_bind (inside d)).
      * apply executor_map_inside. apply List.Forall_forall. intros [u p] Hin.
        apply in_combine_r in Hin. simpl.
        by apply (proj1 (List.Forall_forall _ _)
                    (seg_paths_inside d _ (map (urljoin env url) playlist) Hs)).
      * intros _.
        apply (keeps_bind (inside d)); [apply (keeps_emit (inside d))|]. intros _.
        apply (keeps_ret (inside d)).
  - intros ts_list.
    apply (keeps_bind (inside d)).
    + apply (keeps_bind (inside d)); [apply (keeps_emit (inside d))|]. intros _.
      apply (keeps_bind (inside d)).
      * apply (keeps_inside d (filelist (scratch_folder fname))), write_file_only_at.
        unfold filelist, joinpath. by apply prefix_app_r.
      * intros _.
        apply (keeps_bind (inside d)); [by apply ffmpeg_concat_inside|]. intros _.
        apply (keeps_emit (inside d)).
    + intros _.
      apply (keeps_bind (inside d)); [by apply unlink_all_inside, seg_paths_inside|].
      intros _.
      apply (keeps_bind (inside d)).
      * apply (keeps_inside d (filelist (scratch_folder fname))), unlink_only_at.
        unfold filelist, joinpath. by apply prefix_app_r.
      * intros _. by apply (keeps_inside d (scratch_folder fname)), rmdir_only_at.
Qed.

Lemma target_inside show_dir a fname :
  target show_dir a = Ok fname →
  show_dir `prefix_of` fname ∧ show_dir `prefix_of` scratch_folder fname.
Proof.
  unfold target, joinpath.
  destruct (String.eqb (media_type_en a) "audio");
    [|destruct (String.eqb (media_type_en a) "video"); [|done]];
    intros [= <-];
    (rewrite parts_suffix; [|apply replace_slash_no_slash|done|simpl; lia]);
    (split; [by apply prefix_app_r|]);
    unfold scratch_folder, joinpath, parent; rewrite removelast_last;
    by apply prefix_app_r.
Qed.

Section Inside.

Variable env : Env.
Variables no_tag no_cover : bool.
Variable episodes : option (gset Z).

Lemma retag_same_fs fname w : fs (retag env fname w).2 = fs w.
Proof.
  unfold retag. munfold. simpl.
  destruct (node (fs w) fname) as [[c|]|]; [|done|done].
  by destruct (retag_ok env fname).
Qed.

Lemma retag_cover_same_fs fname w : fs (retag_cover env fname w).2 = fs w.
Proof.
  unfold retag_cover. munfold. simpl.
  destruct (node (fs w) fname) as [[c|]|]; [|done|done].
  by destruct (retag_cover_ok env fname).
Qed.

Lemma process_article_inside show_dir a :
  keeps (inside show_dir) (process_article env no_tag no_cover show_dir a).
Proof.
  unfold process_article.
  destruct (target show_dir a) as [fname|e] eqn:Et; [|apply (keeps_raise (inside show_dir))].
  apply target_inside in Et as [Hf Hs].
  apply (keeps_bind (inside show_dir)); [apply (keeps_get_fs (inside show_dir))|]. intros f.
  destruct (negb (exists_ f fname)); [|apply (keeps_emit (inside show_dir))].
  apply (keeps_bind (inside show_dir)); [apply (keeps_emit (inside show_dir))|]. intros _.
  destruct (String.eqb (media_type_en a) "audio").
  - unfold save_audio.
    apply (keeps_bind (inside show_dir));
      [by apply (keeps_inside show_dir fname), download_only_at|]. intros _.
    apply (keeps_bind (inside show_dir)).
    { destruct no_tag; [apply (keeps_ret (inside show_dir))|].
      intros w. rewrite retag_same_fs. reflexivity. }
    intros _.
    apply (keeps_bind (inside show_dir)).
    { destruct no_cover; [apply (keeps_ret (inside show_dir))|].
      intros w. rewrite retag_cover_same_fs. reflexivity. }
    intros _. apply (keeps_emit (inside show_dir)).
  - unfold save_video.
    destruct (select_best (media_files a)) as [[bq video_m3u8]|e];
      [|apply (keeps_raise (inside show_dir))].
    apply (keeps_bind (inside show_dir));
      [by apply (keeps_try (inside show_dir)), download_m3u8_inside|].
    intros [[]|e]; [apply (keeps_emit (inside show_dir))|].
    apply (keeps_bind (inside show_dir)); [apply (keeps_emit (inside show_dir))|]. intros _.
    apply (keeps_bind (inside show_dir)); [apply (keeps_emit (inside show_dir))|]. intros _.
    by apply (keeps_inside show_dir fname), unlink_only_at.
Qed.

Lemma for_articles_inside show_dir l :
  keeps (inside show_dir) (for_articles env no_tag no_cover episodes show_dir l).
Proof.
  induction l as [|a l IH]; simpl; [apply (keeps_ret (inside show_dir))|].
  apply (keeps_bind (inside show_dir)); [|by intros _].
  destruct (filtered_out episodes a);
    [apply (keeps_ret (inside show_dir))|apply process_article_inside].
Qed.

Lemma save_show_loop_inside c :
  keeps (inside (parts (cat_title c))) (save_show_loop env no_tag no_cover episodes c).
Proof.
  unfold save_show_loop. generalize (parts (cat_title c)). intros d.
  induction (catalog c) as [|p ps IH]; simpl; [apply (keeps_ret (inside d))|].
  apply (keeps_bind (inside d)); [apply for_articles_inside|by intros _].
Qed.

End Inside.

(** ** The second layer *)

Section KeepsX.

Context (R : relation (gmap Path Node)) `{!PreOrder R}.

Lemma keepsX_ret {A} (a : A) : keepsX R (mret a).
Proof. intros w. simpl. reflexivity. Qed.

Lemma keepsX_raise {A} e : keepsX R (@raiseX A e).
Proof. intros w. simpl. reflexivity. Qed.

Lemma keepsX_silent {A} (m : MX A) : (∀ w, base (m w).2 = base w) → keepsX R m.
Proof. intros H w. rewrite H. reflexivity. Qed.

Lemma keepsX_bind {A B} (m : MX A) (f : A → MX B) :
  keepsX R m → (∀ a, keepsX R (f a)) → keepsX R (m ≫= f).
Proof.
  intros Hm Hf w. unfold mbind, MX_bind.
  specialize (Hm w). destruct (m w) as [[a|e] w1]; simpl in *; [|done].
  etrans; [exact Hm|]. apply Hf.
Qed.

Lemma keepsX_try {A} (m : MX A) : keepsX R m → keepsX R (tryX m).
Proof. intros Hm w. unfold tryX. specialize (Hm w). by destruct (m w). Qed.

Lemma keepsX_lift {A} (m : M A) : keeps R m → keepsX R (lift m).
Proof.
  intros H w. unfold lift. specialize (H (base w)).
  by destruct (m (base w)) as [[a|e] b].
Qed.

Lemma keepsX_note n : keepsX R (note n).
Proof. intros w. simpl. reflexivity. Qed.

Lemma keepsX_log lvl msg : keepsX R (lift (logger lvl msg)).
Proof. apply keepsX_lift, (keeps_emit R). Qed.

(** A step that is taken only when [p] is not there. *)
Lemma keepsX_guard_last p (a b : MX unit) :
  (∀ w, exists_ (fs (base w)) p = false → R (fs (base w)) (fs (base (a w).2))) →
  keepsX R b →
  keepsX R (f ← get_base_fs; if negb (exists_ f p) then a else b).
Proof.
  intros Ha Hb w. unfold mbind, MX_bind, get_base_fs. cbn.
  destruct (exists_ (fs (base w)) p) eqn:E; cbn; [apply Hb|by apply Ha].
Qed.

Lemma keepsX_guard {A} p (a b : MX unit) (rest : MX A) :
  (∀ w, exists_ (fs (base w)) p = false → R (fs (base w)) (fs (base (a w).2))) →
  keepsX R b → keepsX R rest →
  keepsX R (f ← get_base_fs; (if negb (exists_ f p) then a else b);; rest).
Proof.
  intros Ha Hb Hrest w. unfold mbind, MX_bind, get_base_fs. cbn.
  destruct (exists_ (fs (base w)) p) eqn:E; cbn.
  - specialize (Hb w). destruct (b w) as [[[]|e] w1]; cbn in *; [|done].
    etrans; [exact Hb|apply Hrest].
  - specialize (Ha w E). destruct (a w) as [[[]|e] w1]; cbn in *; [|done].
    etrans; [exact Ha|apply Hrest].
Qed.

End KeepsX.

Lemma only_at_fills ps p f f' :
  p ∈ ps → exists_ f p = false → only_at p f f' → fills_only ps f f'.
Proof.
  intros Hin He H q Hq. apply H. intros ->.
  destruct Hq as [Hq|Hq]; [congruence|done].
Qed.

Lemma fills_only_inside d ps f f' :
  Forall (λ p, d `prefix_of` p) ps → fills_only ps f f' → inside d f f'.
Proof.
  intros Hps H q Hq. apply H. right. intros Hin.
  apply Hq. by apply (proj1 (Forall_forall _ _) Hps).
Qed.

Lemma fills_only_adds_inside d ps f f' :
  Forall (λ p, d `prefix_of` p) ps → fills_only ps f f' → adds_inside d f f'.
Proof.
  intros Hps H q Hq. apply H. destruct Hq as [Hq|Hq]; [by left|right].
  intros Hin. apply Hq. by apply (proj1 (Forall_forall _ _) Hps).
Qed.

(** ** [save_meta] *)

Lemma save_meta_fills env cdata series show_dir :
  keepsX (fills_only [joinpath show_dir "cover.jpg"; joinpath show_dir "desc.txt";
                      joinpath show_dir "reader.txt"])
         (save_meta env cdata series show_dir).
Proof.
  set (ps := [joinpath show_dir "cover.jpg"; joinpath show_dir "desc.txt";
              joinpath show_dir "reader.txt"]).
  unfold save_meta.
  apply (keepsX_guard (fills_only ps)); [|apply (keepsX_log (fills_only ps))|].
  { intros w E. apply (only_at_fills ps (joinpath show_dir "cover.jpg"));
      [set_solver|done|].
    revert w E. intros w _. revert w.
    change (keepsX (only_at (joinpath show_dir "cover.jpg"))
              (lift (logger Info (Starting (joinpath show_dir "cover.jpg")));;
               lift (download env (background_img cdata) (joinpath show_dir "cover.jpg"));;
               lift (logger Info (Done (joinpath show_dir "cover.jpg"))))).
    apply (keepsX_bind (only_at _)); [apply (keepsX_log (only_at _))|]. intros _.
    apply (keepsX_bind (only_at _));
      [apply (keepsX_lift (only_at _)), download_only_at|]. intros _.
    apply (keepsX_log (only_at _)). }
  apply (keepsX_guard (fills_only ps)); [|apply (keepsX_log (fills_only ps))|].
  { intros w E. apply (only_at_fills ps (joinpath show_dir "desc.txt"));
      [set_solver|done|].
    revert w E. intros w _. revert w.
    change (keepsX (only_at (joinpath show_dir "desc.txt"))
              (note (NLog Info (Generating (joinpath show_dir "desc.txt")));;
               lift (write_file (joinpath show_dir "desc.txt") (Bytes (share_desc series)));;
               note (NLog Info (Generated (joinpath show_dir "desc.txt"))))).
    apply (keepsX_bind (only_at _)); [apply (keepsX_note (only_at _))|]. intros _.
    apply (keepsX_bind (only_at _));
      [apply (keepsX_lift (only_at _)), write_file_only_at|]. intros _.
    apply (keepsX_note (only_at _)). }
  apply (keepsX_guard_last (fills_only ps)); [|apply (keepsX_log (fills_only ps))].
  intros w E. apply (only_at_fills ps (joinpath show_dir "reader.txt"));
    [set_solver|done|].
  revert w E. intros w _. revert w.
  change (keepsX (only_at (joinpath show_dir "reader.txt"))
            (note (NLog Info (Generating (joinpath show_dir "reader.txt")));;
             lift (write_file (joinpath show_dir "reader.txt") (Bytes (author series)));;
             note (NLog Info (Generated (joinpath show_dir "reader.txt"))))).
  apply (keepsX_bind (only_at _)); [apply (keepsX_note (only_at _))|]. intros _.
  apply (keepsX_bind (only_at _));
    [apply (keepsX_lift (only_at _)), write_file_only_at|]. intros _.
  apply (keepsX_note (only_at _)).
Qed.

(** X19.  [save_meta] makes the cover, the description and the reader only
    where they are missing: a path that is there when it starts, one of
    these three or any other, is the same when it ends, and so is every
    path other than the three. *)
Theorem save_meta_fills_only_what_is_missing
        (env : Env) (cdata : CatalogData) (series : Series) (show_dir : Path)
        (w : WorldX) (q : Path) :
  exists_ (fs (base w)) q = true ∨
  q ∉ [joinpath show_dir "cover.jpg"; joinpath show_dir "desc.txt";
       joinpath show_dir "reader.txt"] →
  node (fs (base (save_meta env cdata series show_dir w).2)) q = node (fs (base w)) q.
Proof. intros Hq. by apply save_meta_fills. Qed.

Lemma save_meta_fills_only_what_is_missing_witness :
  node (fs (base (save_meta env_ok cdata_two series_two ["show"] worldx_cover).2))
       ["show"; "cover.jpg"]
  = node (fs (base worldx_cover)) ["show"; "cover.jpg"].
Proof.
  apply (save_meta_fills_only_what_is_missing env_ok cdata_two series_two ["show"]
           worldx_cover ["show"; "cover.jpg"]).
  left. reflexivity.
Defined.

(** ** [save_show] as a whole *)

Lemma get_catalog_base server token id w :
  base (get_catalog server token id w).2 = base w.
Proof.
  destruct (lru_find id (catalog_cache w)) as [v|] eqn:E.
  - by rewrite (get_catalog_hit server token id w v E).
  - destruct (get_catalog_miss server token id w E) as (r & logs & _ & _ & ->).
    by destruct r.
Qed.

Lemma get_content_show_base server token id w :
  base (get_content_show server token id w).2 = base w.
Proof.
  unfold get_content_show.
  destruct (lru_find id (show_cache w)) as [v|]; [done|].
  unfold mbind, MX_bind.
  destruct (get_api_response_run token (ContentShow id) ∅ (show_reply server id) w)
    as (r & logs & -> & _).
  by destruct r.
Qed.

(** X20.  [save_show] asks for the catalog and for the series before it
    touches the disk: when either call raises, [save_show] raises the same
    exception and the disk and the log of fetches are as before; not even
    the directory of the show is made. *)
Theorem save_show_needs_both_answers
        (env : Env) (server : Server) (token : string) (no_tag no_cover : bool)
        (episodes : option (gset Z)) (id : Z) (w : WorldX) (e : ExnX) :
  (get_catalog server token id w).1 = RaiseX e ∨
  (∃ cdata, (get_catalog server token id w).1 = OkX cdata ∧
            (get_content_show server token id (get_catalog server token id w).2).1
            = RaiseX e) →
  (save_show env server token no_tag no_cover episodes id w).1 = RaiseX e ∧
  base (save_show env server token no_tag no_cover episodes id w).2 = base w.
Proof.
  unfold save_show, mbind, MX_bind.
  pose proof (get_catalog_base server token id w) as Hb.
  destruct (get_catalog server token id w) as [[cdata|e1] w1]; simpl in *.
  - intros [H|(c & _ & H)]; [done|].
    pose proof (get_content_show_base server token id w1) as Hb2.
    destruct (get_content_show server token id w1) as [[series|e2] w2]; simpl in *;
      [done|].
    split; congruence.
  - intros [H|(c & H & _)]; [|done]. split; congruence.
Qed.

Lemma save_show_needs_both_answers_witness :
  (save_show env_ok server_seven "tok" false false None 8 worldx_empty).1
  = RaiseX RuntimeError ∧
  base (save_show env_ok server_seven "tok" false false None 8 worldx_empty).2
  = base worldx_empty.
Proof.
  apply (save_show_needs_both_answers env_ok server_seven "tok" false false None 8
           worldx_empty RuntimeError).
  left. reflexivity.
Defined.

Lemma save_show_rest_inside env server token no_tag no_cover episodes id cdata :
  keepsX (inside (parts (cat_title (cat cdata))))
    (series ← get_content_show server token id;
     lift (mkdir_exist_ok (parts (cat_title (cat cdata))));;
     save_meta env cdata series (parts (cat_title (cat cdata)));;
     lift (save_show_loop env no_tag no_cover episodes (cat cdata))).
Proof.
  set (d := parts (cat_title (cat cdata))).
  apply (keepsX_bind (inside d));
    [apply (keepsX_silent (inside d)), get_content_show_base|]. intros series.
  apply (keepsX_bind (inside d)).
  { apply (keepsX_lift (inside d)), (keeps_inside d d); [done|].
    apply mkdir_exist_ok_only_at. }
  intros _.
  apply (keepsX_bind (inside d)).
  { intros w. eapply fills_only_inside; [|apply save_meta_fills].
    unfold joinpath. repeat constructor; by apply prefix_app_r. }
  intros _. apply (keepsX_lift (inside d)), save_show_loop_inside.
Qed.



(** ** [save_transcript] *)

Lemma mkdir_exist_ok_adds_inside p : keeps (adds_inside p) (mkdir_exist_ok p).
Proof.
  intros w q Hq. destruct (decide (q = p)) as [->|Hne];
    [|by apply mkdir_exist_ok_only_at].
  destruct Hq as [He|Hn]; [|by destruct Hn].
  unfold mkdir_exist_ok. destruct (is_dir (fs w) p); [done|]. by rewrite He.
Qed.

Lemma only_at_adds_inside d p f f' :
  d `prefix_of` p → exists_ f p = false → only_at p f f' → adds_inside d f f'.
Proof.
  intros Hd He H. apply (fills_only_adds_inside d [p]); [by repeat constructor|].
  apply (only_at_fills [p] p); [set_solver|done|done].
Qed.

Section TranscriptWrites.

Variable env : Env.
Variable tools : Tools.

Lemma read_text_base fname w : base (read_text tools fname w).2 = base w.
Proof.
  unfold read_text, mbind, MX_bind, get_base_fs. cbn.
  by destruct (node (fs (base w)) fname) as [[c|]|].
Qed.

Lemma pdfkit_from_file_only_at fname pdfname :
  keepsX (only_at pdfname) (pdfkit_from_file tools fname pdfname).
Proof.
  unfold pdfkit_from_file.
  apply (keepsX_bind (only_at pdfname)); [apply (keepsX_note (only_at pdfname))|].
  intros _.
  apply (keepsX_bind (only_at pdfname)); [by apply (keepsX_silent (only_at pdfname))|].
  intros f.
  destruct (node f fname) as [[c|]|]; try apply (keepsX_raise (only_at pdfname)).
  destruct (pdf_render tools (text_of tools c)) as [pdf|];
    [|apply (keepsX_raise (only_at pdfname))].
  apply (keepsX_bind (only_at pdfname)).
  - apply (keepsX_try (only_at pdfname)), (keepsX_lift (only_at pdfname)),
      write_file_only_at.
  - intros [[]|e];
      [apply (keepsX_ret (only_at pdfname))|apply (keepsX_raise (only_at pdfname))].
Qed.

Lemma transcript_article_adds cdata show_dir a :
  keepsX (adds_inside show_dir) (transcript_article env tools cdata show_dir a).
Proof.
  set (d := show_dir). unfold transcript_article.
  set (fname := joinpath show_dir (replace_slash (title a) ++ ".html")%string).
  set (pdfname := joinpath show_dir (replace_slash (title a) ++ ".pdf")%string).
  assert (Hf : d `prefix_of` fname) by (by apply prefix_app_r).
  assert (Hp : d `prefix_of` pdfname) by (by apply prefix_app_r).
  apply (keepsX_guard (adds_inside d)); [|apply (keepsX_log (adds_inside d))|].
  { intros w E. apply (only_at_adds_inside d fname); [done|done|].
    revert w E. intros w _. revert w.
    change (keepsX (only_at fname)
              (lift (logger Info (Starting fname));;
               lift (urlretrieve env (content_url cdata a) fname);;
               content ← read_text tools fname;
               lift (write_file fname (Bytes (rewrite_assets content)));;
               lift (logger Info (Done fname)))).
    apply (keepsX_bind (only_at _)); [apply (keepsX_log (only_at _))|]. intros _.
    apply (keepsX_bind (only_at _));
      [apply (keepsX_lift (only_at _)), urlretrieve_only_at|]. intros _.
    apply (keepsX_bind (only_at _));
      [apply (keepsX_silent (only_at _)), read_text_base|]. intros content.
    apply (keepsX_bind (only_at _));
      [apply (keepsX_lift (only_at _)), write_file_only_at|]. intros _.
    apply (keepsX_log (only_at _)). }
  apply (keepsX_guard_last (adds_inside d)); [|apply (keepsX_log (adds_inside d))].
  intros w E. apply (only_at_adds_inside d pdfname); [done|done|].
  revert w E. intros w _. revert w.
  change (keepsX (only_at pdfname)
            (note (NLog Info (Converting pdfname));;
             pdfkit_from_file tools fname pdfname;;
             note (NLog Info (Converted pdfname)))).
  apply (keepsX_bind (only_at _)); [apply (keepsX_note (only_at _))|]. intros _.
  apply (keepsX_bind (only_at _)); [apply pdfkit_from_file_only_at|]. intros _.
  apply (keepsX_note (only_at _)).
Qed.

Lemma transcript_parts_adds episodes cdata show_dir c :
  keepsX (adds_inside show_dir) (transcript_parts env tools episodes cdata show_dir c).
Proof.
  set (d := show_dir).
  induction c as [|p c IH]; simpl; [apply (keepsX_ret (adds_inside d))|].
  apply (keepsX_bind (adds_inside d)); [|by intros _].
  induction (part p) as [|a l IHl]; simpl; [apply (keepsX_ret (adds_inside d))|].
  apply (keepsX_bind (adds_inside d)); [|by intros _].
  destruct (filtered_out episodes a);
    [apply (keepsX_ret (adds_inside d))|apply transcript_article_adds].
Qed.

End TranscriptWrites.



(** * Segments with the same final component *)

Lemma components_nonempty s : components s ≠ [].
Proof.
  destruct s as [|c s]; simpl; [done|].
  destruct (Ascii.eqb c "/"); [done|]. by destruct (components s).
Qed.

Lemma components_app_slash s1 s2 :
  components (s1 +:+ String "/" s2) = components s1 ++ components s2.
Proof.
  induction s1 as [|c s1 IH]; simpl; [done|].
  destruct (Ascii.eqb c "/"); [rewrite IH; reflexivity|].
  rewrite IH. pose proof (components_nonempty s1) as Hne.
  by destruct (components s1).
Qed.

(** The final component of a URI is what follows its last slash. *)
Lemma path_name_basename dir nm :
  has_slash nm = false → nm ≠ ""%string → nm ≠ "."%string →
  path_name (dir +:+ String "/" nm) = nm.
Proof.
  intros Hs Hne Hdot. unfold path_name, parts.
  rewrite components_app_slash, List.filter_app, (components_no_slash nm Hs).
  simpl. unfold keep_component at 2.
  apply String.eqb_neq in Hne, Hdot. rewrite Hne, Hdot. simpl.
  apply last_last.
Qed.

Lemma executor_map_app env tasks l1 l2 : ∀ w,
  executor_map env (l1 ++ l2) tasks w
  = executor_map env l2 tasks (executor_map env l1 tasks w).2.
Proof.
  induction l1 as [|i l1 IH]; intros w; simpl; [done|].
  destruct (tasks !! i) as [[u q]|]; [|apply IH].
  unfold mbind, M_bind, try. destruct (download env u q w) as [r w1]. apply IH.
Qed.

(** The pool leaves a path alone that is the destination of none of its
    tasks. *)
Lemma executor_map_frame env tasks order (q : Path) : ∀ w,
  (∀ k t, k ∈ order → tasks !! k = Some t → q ≠ t.2) →
  node (fs (executor_map env order tasks w).2) q = node (fs w) q.
Proof.
  induction order as [|i order IH]; intros w Hq; simpl; [done|].
  destruct (tasks !! i) as [[u dst]|] eqn:E.
  - unfold mbind, M_bind, try.
    pose proof (download_only_at env u dst w q) as Hd.
    destruct (download env u dst w) as [r w1]. simpl in *.
    rewrite IH by (intros k t Hk; apply Hq; by right).
    apply Hd. apply (Hq i (u, dst)); [by left|done].
  - apply IH. intros k t Hk. apply Hq. by right.
Qed.

(** The pool makes no attempt for a URL that is the URL of none of its
    tasks. *)
Lemma executor_map_attempts env tasks order u : ∀ w,
  (∀ k t, k ∈ order → tasks !! k = Some t → t.1 ≠ u) →
  attempts u (log (executor_map env order tasks w).2) = attempts u (log w).
Proof.
  induction order as [|i order IH]; intros w Hu; simpl; [done|].
  destruct (tasks !! i) as [[u' dst]|] eqn:E.
  - unfold mbind, M_bind, try.
    destruct (download_appends env u' dst w) as (evs & Hlog & Hev).
    destruct (download env u' dst w) as [r w1]. simpl in *.
    rewrite IH by (intros k t Hk; apply Hu; by right).
    assert (Hne : u ≠ u').
    { intros ->. apply (Hu i (u', dst)); [by left|done|done]. }
    rewrite Hlog, attempts_app, (attempts_other_url u' dst u evs Hne Hev). lia.
  - apply IH. intros k t Hk. apply Hu. by right.
Qed.

(** The file two tasks share holds the body of the one that ends last. *)
Lemma executor_map_last_writer env tasks (pre post : list nat) j u dst d w :
  tasks !! j = Some (u, dst) →
  (∀ k t, k ∈ pre → tasks !! k = Some t → t.1 ≠ u) →
  (∀ k t, k ∈ post → tasks !! k = Some t → t.2 ≠ dst) →
  urlopen env u (attempts u (log w)) = Complete d →
  open_wb (fs w) dst = Ok tt →
  node (fs (executor_map env (pre ++ j :: post) tasks w).2) dst
  = Some (File (Bytes d)).
Proof.
  intros Hj Hpre Hpost Hurl Hopen.
  rewrite executor_map_app.
  pose proof (executor_map_attempts env tasks pre u w Hpre) as Hatt.
  pose proof (executor_map_same_dirs env tasks pre w) as Hsame.
  set (wp := (executor_map env pre tasks w).2) in *.
  assert (Hc : completes (fs wp) dst (urlopen env u (attempts u (log wp) + 0)) d).
  { split; [by rewrite Nat.add_0_r, Hatt|]. by rewrite (open_wb_same_dirs _ _ _ Hsame). }
  destruct (download_recovers_run env u dst wp 0 d ltac:(lia) ltac:(intros; lia) Hc)
    as (Hdl & _ & _).
  simpl. rewrite Hj. unfold mbind, M_bind. rewrite (try_eq _ _ _ _ Hdl).
  rewrite executor_map_frame.
  - simpl. apply node_insert_eq. by eapply open_wb_ne.
  - intros k t Hk Ht Heq. by apply (Hpost k t).
Qed.



(** * The links of a transcript page *)

(** The replacement text holds no occurrence of the text it replaces, and
    none can begin in it and end after it. *)
Lemma occurs_assets_new t : occurs assets_old (assets_new +:+ t) = occurs assets_old t.
Proof. reflexivity. Qed.

(** What the output of the replacement starts with, as far as it has no
    equals sign, the input starts with too. *)
Lemma starts_with_replaced p : ∀ s,
  no_equals p = true →
  starts_with p (replace_from 0 assets_old assets_new s) = true →
  starts_with p s = true.
Proof.
  induction p as [|a p IH]; intros s Hp; [done|].
  simpl in Hp. apply andb_prop in Hp as [Ha Hp].
  destruct s as [|c s]; [done|].
  cbn [replace_from].
  destruct (starts_with assets_old (String c s)).
  - simpl. by rewrite (negb_true_iff _) in Ha; rewrite Ha.
  - simpl. intros H. apply andb_prop in H as [H1 H2].
    rewrite H1. simpl. by apply IH.
Qed.

Lemma replace_from_no_occurrence s : ∀ k,
  occurs assets_old (replace_from k assets_old assets_new s) = false.
Proof.
  induction s as [|c s IH]; intros k; [done|].
  cbn [replace_from]. destruct k as [|k]; [|apply IH].
  destruct (starts_with assets_old (String c s)) eqn:E.
  - rewrite occurs_assets_new. apply IH.
  - cbn [occurs]. rewrite IH, orb_false_r.
    destruct (starts_with assets_old (String c (replace_from 0 assets_old assets_new s)))
      eqn:E'; [|done].
    exfalso. simpl in E, E'.
    apply andb_prop in E' as [Hc Hrest]. rewrite Hc in E. simpl in E.
    change (starts_with (String dquote "/assets/")
              (replace_from 0 assets_old assets_new s) = true) in Hrest.
    apply starts_with_replaced in Hrest; [|reflexivity].
    simpl in Hrest. congruence.
Qed.

Lemma replace_from_absent old new s :
  occurs old s = false → replace_from 0 old new s = s.
Proof.
  induction s as [|c s IH]; [done|].
  cbn [occurs replace_from]. intros H. apply orb_false_elim in H as [H1 H2].
  rewrite H1. by rewrite IH.
Qed.

(** X23.  The rewriting of the asset links of a page (lines 231-234)
    leaves no relative asset link: the text it replaces does not occur in
    its output.  So it changes nothing in a page without such links, and
    rewriting a page twice gives what rewriting it once gives. *)
Theorem rewrite_assets_leaves_no_relative_link (content : string) :
  occurs assets_old (rewrite_assets content) = false ∧
  (occurs assets_old content = false → rewrite_assets content = content) ∧
  rewrite_assets (rewrite_assets content) = rewrite_assets content.
Proof.
  assert (H : occurs assets_old (rewrite_assets content) = false)
    by apply replace_from_no_occurrence.
  split_and!; [done|apply replace_from_absent|by apply replace_from_absent].
Qed.

(** A page with one relative asset link. *)
Example rewrite_assets_page :
  rewrite_assets page_raw
  = ("<img src" ++ assets_new ++ "a.png" ++ String dquote ">")%string.
Proof. reflexivity. Qed.

(** * The fetch of a transcript page *)

Lemma lift_run {A} (m : M A) w :
  lift m w
  = match m (base w) with
    | (Ok a, b) => (OkX a, mkWorldX b (notes w) (catalog_cache w) (show_cache w))
    | (Raise e, b) => (RaiseX (Base e), mkWorldX b (notes w) (catalog_cache w) (show_cache w))
    end.
Proof. reflexivity. Qed.

Section TranscriptFetch.

Variable env : Env.
Variable tools : Tools.
Variable cdata : CatalogData.
Variable show_dir : Path.
Variable a : Article.

(** The page is fetched with one bare call of [urlretrieve]: a timeout is
    not retried, it ends [save_transcript], and what had arrived of the
    page stays on the disk. *)
Lemma transcript_article_times_out w :
  exists_ (fs (base w)) (page_path show_dir a) = false →
  times_out (fs (base w)) (page_path show_dir a)
            (urlopen env (content_url cdata a)
                     (attempts (content_url cdata a) (log (base w)))) →
  transcript_article env tools cdata show_dir a w
  = (RaiseX (Base SocketTimeout),
     mkWorldX (mkWorld (fs_after (page_path show_dir a)
                          (partial_of (urlopen env (content_url cdata a)
                                         (attempts (content_url cdata a) (log (base w)))))
                          (fs (base w)))
                       (log (base w) ++ [EvLog Info (Starting (page_path show_dir a));
                                         EvFetch (content_url cdata a) (page_path show_dir a)]))
              (notes w) (catalog_cache w) (show_cache w)).
Proof.
  intros Hex Hto. unfold transcript_article. fold (page_path show_dir a).
  unfold mbind at 1, MX_bind at 1, get_base_fs. cbn [fst snd]. rewrite Hex. cbn [negb].
  set (w0 := mkWorld (fs (base w)) (log (base w) ++ [EvLog Info (Starting (page_path show_dir a))])).
  assert (Hret : urlretrieve env (content_url cdata a) (page_path show_dir a) w0
                 = (Raise SocketTimeout,
                    mkWorld (fs_after (page_path show_dir a)
                               (partial_of (urlopen env (content_url cdata a)
                                  (attempts (content_url cdata a) (log (base w)))))
                               (fs (base w)))
                            (log w0 ++ [EvFetch (content_url cdata a) (page_path show_dir a)]))).
  { rewrite urlretrieve_times_out; unfold w0; simpl; rewrite attempts_log; done. }
  unfold mbind, MX_bind. rewrite !lift_run.
  unfold logger, emit. cbn [fst snd base notes catalog_cache show_cache].
  rewrite lift_run. cbn [base notes catalog_cache show_cache].
  fold w0. rewrite Hret. unfold w0. simpl. by rewrite <- app_assoc.
Qed.

Lemma pdfkit_from_file_log fname pdfname w :
  log (base (pdfkit_from_file tools fname pdfname w).2) = log (base w).
Proof.
  unfold pdfkit_from_file, mbind, MX_bind, note, get_base_fs. cbn [fst snd base].
  destruct (node (fs (base w)) fname) as [[c|]|]; [|done|done].
  destruct (pdf_render tools (text_of tools c)) as [pdf|]; [|done].
  unfold tryX. rewrite lift_run. cbn [base notes catalog_cache show_cache].
  pose proof (write_file_log pdfname (Bytes pdf) (base w)) as Hl.
  by destruct (write_file pdfname (Bytes pdf) (base w)) as [[[]|e] b].
Qed.

(** A page that is there is not fetched again, whatever it holds: the call
    makes no fetch attempt at all. *)
Lemma transcript_article_no_fetch w u :
  exists_ (fs (base w)) (page_path show_dir a) = true →
  attempts u (log (base (transcript_article env tools cdata show_dir a w).2))
  = attempts u (log (base w)).
Proof.
  intros Hex. unfold transcript_article. fold (page_path show_dir a).
  unfold mbind at 1, MX_bind at 1, get_base_fs. cbn [fst snd]. rewrite Hex. cbn [negb].
  unfold mbind at 1, MX_bind at 1. rewrite lift_run.
  unfold logger, emit. cbn [fst snd base notes catalog_cache show_cache].
  unfold mbind at 1, MX_bind at 1. cbn [fst snd base fs].
  destruct (exists_ (fs (base w)) (joinpath show_dir (replace_slash (title a) ++ ".pdf")));
    cbn [negb].
  - rewrite lift_run. cbn [fst snd base log]. by rewrite !attempts_log.
  - unfold mbind, MX_bind, note. cbn [fst snd base notes catalog_cache show_cache].
    match goal with |- context [pdfkit_from_file tools ?f ?p ?w0] =>
      pose proof (pdfkit_from_file_log f p w0) as Hl;
      destruct (pdfkit_from_file tools f p w0) as [[[]|e] w1]
    end; cbn [fst snd base log] in *; rewrite Hl; by rewrite attempts_log.
Qed.

End TranscriptFetch.

(** X24.  [save_transcript] fetches a page with one bare call of
    [urlretrieve]: unlike [download] it does not retry.  A timeout of that
    one attempt ends the call with the exception, after the start message
    and a single attempt, and what had arrived of the page stays on the
    disk.  A later call for the same article finds that file: it makes no
    fetch attempt and leaves the truncated page as it is. *)
Theorem transcript_fetch_is_not_retried
        (env : Env) (tools : Tools) (cdata : CatalogData) (show_dir : Path)
        (a : Article) (w : WorldX) (part : string) :
  exists_ (fs (base w)) (page_path show_dir a) = false →
  urlopen env (content_url cdata a) (attempts (content_url cdata a) (log (base w)))
  = TimedOut (Some part) →
  open_wb (fs (base w)) (page_path show_dir a) = Ok tt →
  let w1 := mkWorldX (mkWorld (<[page_path show_dir a := File (Bytes part)]> (fs (base w)))
                        (log (base w)
                         ++ [EvLog Info (Starting (page_path show_dir a));
                             EvFetch (content_url cdata a) (page_path show_dir a)]))
                     (notes w) (catalog_cache w) (show_cache w) in
  transcript_article env tools cdata show_dir a w = (RaiseX (Base SocketTimeout), w1) ∧
  attempts (content_url cdata a) (log (base w1))
  = S (attempts (content_url cdata a) (log (base w))) ∧
  ∀ env' w2, w2 = (transcript_article env' tools cdata show_dir a w1).2 →
    (∀ u, attempts u (log (base w2)) = attempts u (log (base w1))) ∧
    node (fs (base w2)) (page_path show_dir a) = Some (File (Bytes part)).
Proof.
  intros Hex Hto Hopen w1.
  assert (Hpage : node (fs (base w1)) (page_path show_dir a) = Some (File (Bytes part))).
  { simpl. apply node_insert_eq. by eapply open_wb_ne. }
  split_and!.
  - rewrite (transcript_article_times_out env tools cdata show_dir a w Hex).
    + by rewrite Hto.
    + by rewrite Hto.
  - simpl. rewrite attempts_app. unfold attempts at 2. simpl.
    rewrite String.eqb_refl. simpl. lia.
  - intros env' w2 ->.
    assert (Hex1 : exists_ (fs (base w1)) (page_path show_dir a) = true)
      by (unfold exists_; by rewrite Hpage).
    split.
    + intros u. by apply transcript_article_no_fetch.
    + rewrite <- Hpage.
      apply (transcript_article_adds env' tools cdata show_dir a w1). by left.
Qed.

Lemma transcript_fetch_is_not_retried_witness :
  let page := ["show"; "two.html"]%string in
  let w1 := mkWorldX (mkWorld (<[page := File (Bytes "ab")]> (fs world_show))
                        [EvLog Info (Starting page); EvFetch "http://h/two.html" page])
                     [] [] [] in
  transcript_article env_flaky tools_plain cdata_two ["show"] ep_audio_two worldx_show
  = (RaiseX (Base SocketTimeout), w1) ∧
  node (fs (base (transcript_article env_ok tools_plain cdata_two ["show"] ep_audio_two
                    w1).2)) page
  = Some (File (Bytes "ab")).
Proof.
  intros page w1.
  destruct (transcript_fetch_is_not_retried env_flaky tools_plain cdata_two ["show"]
              ep_audio_two worldx_show "ab" eq_refl eq_refl eq_refl)
    as (Hrun & _ & Hnext).
  split; [exact Hrun|].
  exact (proj2 (Hnext env_ok _ eq_refl)).
Defined.
